(** * url-migration-checker: a shallow embedding and its verified properties

    The development follows the layout of the TypeScript sources:

    - [JS]        the fragment of the JavaScript runtime the sources rely on
                  (strings, regular expressions, IEEE-754 numbers);
    - [Soft404]   [utils/soft404.ts]: [checkSoft404], [titlesMatch],
                  [calculateSimilarity];
    - [Http]      [utils/http.ts]: [fetchUrl], [fetchUrlWithFlareSolverr];
    - [Url]       the records of the platform [URL] class as far as
                  [normalizeUrl] and [validateUrl] use them, and a reference
                  constructor for serialized URLs;
    - [Crawler]   [crawler.ts]: [normalizeUrl] and the breadth-first [crawl];
    - [Validator] [validator.ts]: [validateUrl].

    JavaScript strings are modelled as [string]: sequences of the code units
    U+0000 to U+00FF.  JavaScript numbers that hold scores are binary64 floats
    ([PrimFloat]); counters, lengths and status codes are integers. *)

From Stdlib Require Import Ascii String ZArith QArith Floats DecimalString.
From stdpp Require Import base tactics option list strings gmap gmultiset.

Set Warnings "-inexact-float".
Set Default Proof Using "Type".

Local Open Scope string_scope.
Local Open Scope list_scope.

(* ===================================================================== *)
(** * The JavaScript runtime fragment *)
(* ===================================================================== *)

Module JS.

(** ** Characters *)

Definition code (c : ascii) : nat := nat_of_ascii c.

Definition in_range (lo hi : nat) (c : ascii) : bool :=
  (lo <=? code c)%nat && (code c <=? hi)%nat.

(** [\s]: tab, line feed, vertical tab, form feed, carriage return, space and
    the no-break space U+00A0 (the members of the class below U+0100). *)
Definition is_space (c : ascii) : bool :=
  in_range 9 13 c || (code c =? 32)%nat || (code c =? 160)%nat.

Definition is_upper (c : ascii) : bool := in_range 65 90 c.
Definition is_lower (c : ascii) : bool := in_range 97 122 c.
Definition is_digit (c : ascii) : bool := in_range 48 57 c.

(** [\w] is [[A-Za-z0-9_]]. *)
Definition is_word (c : ascii) : bool :=
  is_upper c || is_lower c || is_digit c || (code c =? 95)%nat.

(** [String.prototype.toLowerCase] on one code unit: A-Z and the Latin-1
    capitals U+00C0..U+00DE (except the multiplication sign U+00D7). *)
Definition lower_char (c : ascii) : ascii :=
  if is_upper c || (in_range 192 222 c && negb (code c =? 215)%nat)
  then ascii_of_nat (code c + 32)
  else c.

(** Line terminators below U+0100; [.] does not match them. *)
Definition is_line_terminator (c : ascii) : bool :=
  (code c =? 10)%nat || (code c =? 13)%nat.

(** ** Strings *)

Fixpoint toLowerCase (s : string) : string :=
  match s with
  | EmptyString => EmptyString
  | String c s' => String (lower_char c) (toLowerCase s')
  end.

Definition length (s : string) : nat := String.length s.

(** A JavaScript string used as a condition is truthy when it is not empty. *)
Definition truthy (s : string) : bool :=
  match s with EmptyString => false | String _ _ => true end.

(** [a || b] on strings. *)
Definition or_else (a b : string) : string := if truthy a then a else b.

Definition rev (s : string) : string :=
  string_of_list_ascii (List.rev (list_ascii_of_string s)).

Fixpoint trimStart (s : string) : string :=
  match s with
  | EmptyString => EmptyString
  | String c s' => if is_space c then trimStart s' else s
  end.

Definition trimEnd (s : string) : string := rev (trimStart (rev s)).

Definition trim (s : string) : string := trimEnd (trimStart s).

(** [s.replace(/\s+/g, ' ')]: every maximal run of white space becomes one
    space.  [in_run] records that the previous code unit was white space. *)
Fixpoint collapse_from (in_run : bool) (s : string) : string :=
  match s with
  | EmptyString => EmptyString
  | String c s' =>
      if is_space c
      then (if in_run then collapse_from true s'
            else String " " (collapse_from true s'))
      else String c (collapse_from false s')
  end.

Definition collapse_whitespace (s : string) : string := collapse_from false s.

(** [s.replace(/[^\w\s]/g, '')]: keep word characters and white space. *)
Fixpoint strip_non_word (s : string) : string :=
  match s with
  | EmptyString => EmptyString
  | String c s' =>
      if is_word c || is_space c
      then String c (strip_non_word s')
      else strip_non_word s'
  end.

Fixpoint has_char (x : ascii) (s : string) : bool :=
  match s with
  | EmptyString => false
  | String c s' => Ascii.eqb c x || has_char x s'
  end.

(** [s.replace(/<[^>]*>/g, '')]: a [<] opens a tag when a [>] follows
    somewhere; the tag extends to the first such [>]. *)
Fixpoint strip_tags_from (in_tag : bool) (s : string) : string :=
  match s with
  | EmptyString => EmptyString
  | String c s' =>
      if in_tag
      then (if Ascii.eqb c ">" then strip_tags_from false s'
            else strip_tags_from true s')
      else if Ascii.eqb c "<" && has_char ">" s'
           then strip_tags_from true s'
           else String c (strip_tags_from false s')
  end.

Definition strip_tags (s : string) : string := strip_tags_from false s.

Fixpoint startsWith (s p : string) : bool :=
  match p, s with
  | EmptyString, _ => true
  | String _ _, EmptyString => false
  | String a p', String b s' => Ascii.eqb a b && startsWith s' p'
  end.

(** [s.endsWith(p)]: some suffix of [s] is [p]. *)
Fixpoint endsWith (s p : string) : bool :=
  String.eqb s p ||
  match s with
  | EmptyString => false
  | String _ s' => endsWith s' p
  end.

(** [s.includes(p)] *)
Fixpoint includes (s p : string) : bool :=
  startsWith s p ||
  match s with
  | EmptyString => false
  | String _ s' => includes s' p
  end.

(** [s.slice(0, -1)] *)
Fixpoint drop_last (s : string) : string :=
  match s with
  | EmptyString => EmptyString
  | String c EmptyString => EmptyString
  | String c s' => String c (drop_last s')
  end.

(** Decimal rendering of a non-negative integer, as template literals do. *)
Definition show_nat (n : nat) : string :=
  NilEmpty.string_of_uint (Nat.to_uint n).

Definition show_Z (z : Z) : string :=
  match z with
  | Z.neg p => "-" +:+ show_nat (Pos.to_nat p)
  | _ => show_nat (Z.to_nat z)
  end.

Definition dquote : string := String (ascii_of_nat 34) EmptyString.

(** ** Regular expressions

    The patterns of the sources use literals, character classes, star, [?],
    alternation and concatenation, all under the [i] flag and without the
    [g] flag, so [RegExp.prototype.test] is a stateless search for a matching
    substring.  Matching is by Brzozowski derivatives. *)

Inductive regex : Type :=
  | Empty : regex
  | Eps : regex
  | Cls : (ascii -> bool) -> regex
  | Seq : regex -> regex -> regex
  | Alt : regex -> regex -> regex
  | Star : regex -> regex.

Fixpoint nullable (r : regex) : bool :=
  match r with
  | Empty => false
  | Eps => true
  | Cls _ => false
  | Seq a b => nullable a && nullable b
  | Alt a b => nullable a || nullable b
  | Star _ => true
  end.

Definition seq (a b : regex) : regex :=
  match a, b with
  | Empty, _ => Empty
  | _, Empty => Empty
  | Eps, _ => b
  | _, Eps => a
  | _, _ => Seq a b
  end.

Definition alt (a b : regex) : regex :=
  match a, b with
  | Empty, _ => b
  | _, Empty => a
  | _, _ => Alt a b
  end.

Fixpoint deriv (c : ascii) (r : regex) : regex :=
  match r with
  | Empty => Empty
  | Eps => Empty
  | Cls p => if p c then Eps else Empty
  | Seq a b =>
      if nullable a
      then alt (seq (deriv c a) b) (deriv c b)
      else seq (deriv c a) b
  | Alt a b => alt (deriv c a) (deriv c b)
  | Star a => seq (deriv c a) (Star a)
  end.

(** Some prefix of [s] matches [r]. *)
Fixpoint match_prefix (r : regex) (s : string) : bool :=
  nullable r ||
  match s with
  | EmptyString => false
  | String c s' => match_prefix (deriv c r) s'
  end.

(** [r.test(s)]: some substring of [s] matches [r]. *)
Fixpoint test (r : regex) (s : string) : bool :=
  match_prefix r s ||
  match s with
  | EmptyString => false
  | String _ s' => test r s'
  end.

(** Pattern combinators.  Literals compare case-insensitively (flag [i]). *)
Definition chr (c : ascii) : regex :=
  Cls (fun x => Ascii.eqb (lower_char x) (lower_char c)).

Fixpoint lit (s : string) : regex :=
  match s with
  | EmptyString => Eps
  | String c s' => Seq (chr c) (lit s')
  end.

Definition ws : regex := Star (Cls is_space).
Definition dot : regex := Cls (fun c => negb (is_line_terminator c)).
Definition opt (r : regex) : regex := Alt r Eps.

Fixpoint cat (rs : list regex) : regex :=
  match rs with
  | [] => Eps
  | [r] => r
  | r :: rs' => Seq r (cat rs')
  end.

(** ** Numbers *)

(** [Math.min] on two numbers that are not NaN. *)
Definition fmin (a b : float) : float := if (a <? b)%float then a else b.

Definition float_of_nat (n : nat) : float :=
  PrimFloat.of_uint63 (Uint63.of_Z (Z.of_nat n)).

(** [Math.round] on a finite number: the nearest integer, ties upwards,
    computed exactly from the binary representation. *)
Definition Math_round (x : float) : Z :=
  match Prim2SF x with
  | S754_finite sign m e =>
      let v := if sign then Z.neg m else Z.pos m in
      if (0 <=? e)%Z then (v * 2 ^ e)%Z
      else ((2 * v + 2 ^ (- e)) / 2 ^ (- e + 1))%Z
  | _ => 0%Z
  end.

End JS.

(* ===================================================================== *)
(** * utils/soft404.ts *)
(* ===================================================================== *)

Module Soft404.

Import JS.

Record Soft404CheckResult : Type := {
  isSoft404 : bool;
  confidence : float;
  reasons : list string
}.

(** Patterns that indicate a 404 error page in body content. *)
Definition BODY_ERROR_PATTERNS : list regex := [
  (* /page\s*not\s*found/i *)
  cat [lit "page"; ws; lit "not"; ws; lit "found"];
  (* /404\s*(error)?/i *)
  cat [lit "404"; ws; opt (lit "error")];
  (* /not\s*found/i *)
  cat [lit "not"; ws; lit "found"];
  (* /doesn'?t\s*exist/i *)
  cat [lit "doesn"; opt (lit "'"); lit "t"; ws; lit "exist"];
  (* /does\s*not\s*exist/i *)
  cat [lit "does"; ws; lit "not"; ws; lit "exist"];
  (* /no\s*longer\s*(available|exists?)/i *)
  cat [lit "no"; ws; lit "longer"; ws;
       Alt (lit "available") (cat [lit "exist"; opt (lit "s")])];
  (* /cannot\s*be\s*found/i *)
  cat [lit "cannot"; ws; lit "be"; ws; lit "found"];
  (* /could\s*not\s*(be\s* )?found/i *)
  cat [lit "could"; ws; lit "not"; ws; opt (cat [lit "be"; ws]); lit "found"];
  (* /we\s*couldn'?t\s*find/i *)
  cat [lit "we"; ws; lit "couldn"; opt (lit "'"); lit "t"; ws; lit "find"];
  (* /page\s*(you('?re)?\s*(looking\s*for\s* )?)?is\s*missing/i *)
  cat [lit "page"; ws;
       opt (cat [lit "you"; opt (cat [opt (lit "'"); lit "re"]); ws;
                 opt (cat [lit "looking"; ws; lit "for"; ws])]);
       lit "is"; ws; lit "missing"];
  (* /this\s*page\s*(has\s*been\s* )?(moved|removed|deleted)/i *)
  cat [lit "this"; ws; lit "page"; ws;
       opt (cat [lit "has"; ws; lit "been"; ws]);
       Alt (lit "moved") (Alt (lit "removed") (lit "deleted"))];
  (* /oops/i *)
  lit "oops";
  (* /sorry.*page/i *)
  cat [lit "sorry"; Star dot; lit "page"];
  (* /nothing\s*(here|found)/i *)
  cat [lit "nothing"; ws; Alt (lit "here") (lit "found")]
].

(** Patterns that indicate a 404 error in the page title. *)
Definition TITLE_ERROR_PATTERNS : list regex := [
  lit "404";
  cat [lit "not"; ws; lit "found"];
  cat [lit "page"; ws; lit "not"; ws; lit "found"];
  lit "error";
  lit "missing";
  lit "oops"
].

(** Pages shorter than this are suspicious. *)
Definition MIN_CONTENT_LENGTH : nat := 500.

(** Confidence threshold for flagging as soft 404. *)
Definition SOFT_404_THRESHOLD : float := 0.5%float.

(** The mutable locals [score] and [reasons] of [checkSoft404]. *)
Record acc : Type := { score : float; why : list string }.

Definition bump (x : float) (msg : string) (a : acc) : acc :=
  {| score := (score a + x)%float; why := why a ++ [msg] |}.

(** [for (const pattern of TITLE_ERROR_PATTERNS)] with its [break]. *)
Fixpoint title_loop (ps : list regex) (title : string) (a : acc) : acc :=
  match ps with
  | [] => a
  | p :: ps' =>
      if test p title
      then bump 0.4 ("Title matches error pattern: " +:+ dquote +:+ title +:+ dquote) a
      else title_loop ps' title a
  end.

(** [for (const pattern of BODY_ERROR_PATTERNS)]: the state is
    [bodyMatchCount] and the reasons. *)
Fixpoint body_loop (ps : list regex) (bodyLower : string)
    (st : nat * list string) : nat * list string :=
  match ps with
  | [] => st
  | p :: ps' =>
      if test p bodyLower
      then let n := S (fst st) in
           body_loop ps' bodyLower
             (n, if (n =? 1)%nat then snd st ++ ["Body contains error indicator"]
                 else snd st)
      else body_loop ps' bodyLower st
  end.

Definition checkSoft404 (body : string) (title : option string)
    (statusCode : Z) : Soft404CheckResult :=
  (* If it's already a real 404, not a soft 404 *)
  if (statusCode =? 404)%Z
  then {| isSoft404 := false; confidence := 0; reasons := [] |}
  (* Only check pages that returned 200 *)
  else if negb (statusCode =? 200)%Z
  then {| isSoft404 := false; confidence := 0; reasons := [] |}
  else
    let a := {| score := 0; why := [] |} in
    (* Check title for error patterns *)
    let a :=
      match title with
      | Some t => if truthy t then title_loop TITLE_ERROR_PATTERNS t a else a
      | None => a
      end in
    (* Check body for error patterns *)
    let bodyLower := toLowerCase body in
    let '(bodyMatchCount, rs) := body_loop BODY_ERROR_PATTERNS bodyLower (0%nat, why a) in
    let a := {| score := score a; why := rs |} in
    (* Multiple body matches increase confidence *)
    let a :=
      if (0 <? bodyMatchCount)%nat
      then {| score := (score a + fmin (0.3 + float_of_nat bodyMatchCount * 0.1) 0.5)%float;
              why := why a |}
      else a in
    (* Check content length - very short pages are suspicious *)
    let contentLength := JS.length body in
    let a :=
      if (contentLength <? MIN_CONTENT_LENGTH)%nat
      then bump 0.2 ("Short content length: " +:+ show_nat contentLength +:+ " chars") a
      else a in
    (* Check for empty or near-empty body *)
    let textContent := trim (collapse_whitespace (strip_tags body)) in
    let a :=
      if (JS.length textContent <? 100)%nat
      then bump 0.3 ("Very little text content: " +:+ show_nat (JS.length textContent) +:+ " chars") a
      else a in
    let conf := fmin (score a) 1 in
    {| isSoft404 := (SOFT_404_THRESHOLD <=? conf)%float;
       confidence := conf;
       reasons := why a |}.

(** [const normalize = (title) => ...] inside [titlesMatch]. *)
Definition normalize (title : string) : string :=
  trim (strip_non_word (collapse_whitespace (toLowerCase title))).

(** [s.substring(i, i + 2)] for [i = 0 .. s.length - 2], in order. *)
Fixpoint bigrams (s : string) : list string :=
  match s with
  | String a (String b _ as s') => String a (String b EmptyString) :: bigrams s'
  | _ => []
  end.

(** [bigrams1.get(bigram) || 0] *)
Definition get_count (m : gmap string nat) (g : string) : nat :=
  default 0%nat (m !! g).

(** First loop of [calculateSimilarity]: fill the [Map] [bigrams1]. *)
Fixpoint count_bigrams (gs : list string) (m : gmap string nat) : gmap string nat :=
  match gs with
  | [] => m
  | g :: gs' => count_bigrams gs' (<[g := (get_count m g + 1)%nat]> m)
  end.

(** Second loop: the state is the map and [intersectionSize]. *)
Fixpoint intersect_bigrams (gs : list string) (m : gmap string nat)
    (intersectionSize : nat) : nat :=
  match gs with
  | [] => intersectionSize
  | g :: gs' =>
      let count := get_count m g in
      if (0 <? count)%nat
      then intersect_bigrams gs' (<[g := (count - 1)%nat]> m) (S intersectionSize)
      else intersect_bigrams gs' m intersectionSize
  end.

(** Calculates string similarity using the Sorensen-Dice coefficient. *)
Definition calculateSimilarity (s1 s2 : string) : float :=
  if String.eqb s1 s2 then 1%float
  else if (JS.length s1 <? 2)%nat || (JS.length s2 <? 2)%nat then 0%float
  else
    let bigrams1 := count_bigrams (bigrams s1) ∅ in
    let intersectionSize := intersect_bigrams (bigrams s2) bigrams1 0 in
    (2.0 * float_of_nat intersectionSize
       / float_of_nat (JS.length s1 + JS.length s2 - 2))%float.

(** [!title] for a [string | null]. *)
Definition absent (title : option string) : bool :=
  match title with
  | None => true
  | Some t => negb (truthy t)
  end.

Definition titlesMatch (sourceTitle destTitle : option string) : bool :=
  (* Both null or empty - consider as match *)
  if absent sourceTitle && absent destTitle then true
  (* One is null/empty, other isn't - mismatch *)
  else if absent sourceTitle || absent destTitle then false
  else
    match sourceTitle, destTitle with
    | Some s, Some d =>
        let normalizedSource := normalize s in
        let normalizedDest := normalize d in
        (* Exact match after normalization *)
        if String.eqb normalizedSource normalizedDest then true
        (* Check if one contains the other (for added site names, etc.) *)
        else if includes normalizedDest normalizedSource
                || includes normalizedSource normalizedDest then true
        else (0.8 <? calculateSimilarity normalizedSource normalizedDest)%float
    | _, _ => false
    end.

(** ** Closed forms used in the statements *)

(** Some title pattern matches. *)
Definition title_matches (title : option string) : bool :=
  match title with
  | Some t => existsb (fun p => test p t) TITLE_ERROR_PATTERNS
  | None => false
  end.

(** Number of body patterns that match the case-folded body. *)
Definition body_match_count (body : string) : nat :=
  List.length (List.filter (fun p => test p (toLowerCase body)) BODY_ERROR_PATTERNS).

Definition short_body (body : string) : bool :=
  (JS.length body <? 500)%nat.

Definition text_content (body : string) : string :=
  trim (collapse_whitespace (strip_tags body)).

Definition little_text (body : string) : bool :=
  (JS.length (text_content body) <? 100)%nat.

(** [+x if b]: the contribution of one signal to the running score. *)
Definition plus_if (b : bool) (x : float) (s : float) : float :=
  if b then (s + x)%float else s.

Definition body_term (n : nat) : float :=
  fmin (0.3 + float_of_nat n * 0.1) 0.5.

(** The score as the four conditional additions, in evaluation order. *)
Definition signal_sum (tm : bool) (n : nat) (sh lt : bool) : float :=
  plus_if lt 0.3 (plus_if sh 0.2 (plus_if (0 <? n)%nat (body_term n) (plus_if tm 0.4 0%float))).

(** The same sum with an absent signal written as the term [0]. *)
Definition signal_sum0 (tm : bool) (n : nat) (sh lt : bool) : float :=
  (0 + (if tm then 0.4 else 0) + (if (0 <? n)%nat then body_term n else 0)
     + (if sh then 0.2 else 0) + (if lt then 0.3 else 0))%float.

(** The exact decimal score, in tenths. *)
Definition signal_tenths (tm : bool) (n : nat) (sh lt : bool) : Z :=
  ((if tm then 4 else 0) + (if (0 <? n)%nat then Z.min (3 + Z.of_nat n) 5 else 0)
     + (if sh then 2 else 0) + (if lt then 3 else 0))%Z.

Definition when {A} (b : bool) (x : A) : list A := if b then [x] else [].

Definition reasons_of (body : string) (title : option string) : list string :=
  when (title_matches title)
    ("Title matches error pattern: " +:+ dquote +:+ default EmptyString title +:+ dquote)
  ++ when (0 <? body_match_count body)%nat "Body contains error indicator"
  ++ when (short_body body)
       ("Short content length: " +:+ show_nat (JS.length body) +:+ " chars")
  ++ when (little_text body)
       ("Very little text content: " +:+ show_nat (JS.length (text_content body)) +:+ " chars").

(** The multiset of character bigrams of a string. *)
Definition bag (s : string) : gmultiset string := list_to_set_disj (bigrams s).

(** The Sorensen-Dice coefficient over bigram multisets. *)
Definition dice (a b : string) : float :=
  if String.eqb a b then 1%float
  else if (JS.length a <? 2)%nat || (JS.length b <? 2)%nat then 0%float
  else (2.0 * float_of_nat (size (bag a ∩ bag b))
          / float_of_nat (JS.length a + JS.length b - 2))%float.

(** The map [m] holds the multiplicities of the multiset [X]. *)
Definition represents (m : gmap string nat) (X : gmultiset string) : Prop :=
  ∀ g, get_count m g = multiplicity g X.

(** The decision of [titlesMatch] as one rule over a normalization:
    vacuous match, one-sided absence, equality, containment, Dice above 0.8. *)
Definition match_rule (norm : string → string) (src dst : option string) : bool :=
  if absent src && absent dst then true
  else if absent src || absent dst then false
  else
    let a := norm (default EmptyString src) in
    let b := norm (default EmptyString dst) in
    String.eqb a b || includes b a || includes a b || (0.8 <? dice a b)%float.

(** The normalization as the specification words it: lowercase, collapse
    whitespace, strip every character that is neither alphanumeric nor a
    space. *)
Definition is_alnum (c : ascii) : bool := is_upper c || is_lower c || is_digit c.

Fixpoint strip_non_alnum (s : string) : string :=
  match s with
  | EmptyString => EmptyString
  | String c s' =>
      if is_alnum c || is_space c
      then String c (strip_non_alnum s')
      else strip_non_alnum s'
  end.

Definition spec_normalize (title : string) : string :=
  trim (strip_non_alnum (collapse_whitespace (toLowerCase title))).

Definition spec_titlesMatch : option string → option string → bool :=
  match_rule spec_normalize.

(** ** Properties of [checkSoft404] *)

Section CheckSoft404.

Lemma title_loop_exists ps title a :
  title_loop ps title a =
    if existsb (fun p => test p title) ps
    then bump 0.4 ("Title matches error pattern: " +:+ dquote +:+ title +:+ dquote) a
    else a.
Proof.
  induction ps as [|p ps IH]; simpl; [done|].
  destruct (test p title); simpl; [done|apply IH].
Qed.

Lemma body_loop_count ps b n rs :
  body_loop ps b (n, rs) =
    let k := List.length (List.filter (fun p => test p b) ps) in
    ((n + k)%nat,
     if (n =? 0)%nat && (0 <? k)%nat
     then rs ++ ["Body contains error indicator"] else rs).
Proof.
  revert n rs; induction ps as [|p ps IH]; intros n rs; simpl.
  - rewrite Nat.add_0_r, Nat.ltb_irrefl, andb_false_r. done.
  - destruct (test p b); simpl; [|apply IH].
    rewrite IH; cbv zeta.
    set (k := List.length (List.filter (fun p => test p b) ps)).
    f_equal; [lia|].
    destruct n as [|[|n]]; done.
Qed.

Lemma body_match_count_le body :
  (body_match_count body <= 14)%nat.
Proof.
  unfold body_match_count.
  etrans; [apply List.filter_length_le|]. done.
Qed.

Lemma title_patterns_reject_empty :
  existsb (fun p => test p EmptyString) TITLE_ERROR_PATTERNS = false.
Proof. reflexivity. Qed.

Lemma title_matches_truthy title :
  title_matches title = true → ∃ t, title = Some t ∧ truthy t = true.
Proof.
  destruct title as [[|c t]|]; [|by eauto|done].
  unfold title_matches. by rewrite title_patterns_reject_empty.
Qed.

(** The loops of the function compute the closed forms. *)
Lemma checkSoft404_unfold body title :
  checkSoft404 body title 200 =
    let conf :=
      fmin (signal_sum (title_matches title) (body_match_count body)
              (short_body body) (little_text body)) 1 in
    {| isSoft404 := (0.5 <=? conf)%float;
       confidence := conf;
       reasons := reasons_of body title |}.
Proof.
  unfold checkSoft404; simpl (_ =? _)%Z; cbv iota; simpl negb; cbv iota.
  set (a0 := {| score := 0; why := [] |}).
  set (a1 := match title with
             | Some t => if truthy t then title_loop TITLE_ERROR_PATTERNS t a0 else a0
             | None => a0
             end).
  assert (Ha1 : a1 = if title_matches title
                     then bump 0.4 ("Title matches error pattern: " +:+ dquote
                                      +:+ default EmptyString title +:+ dquote) a0
                     else a0).
  { subst a1. destruct title as [[|c t]|]; [done| |done].
    simpl truthy; cbv iota. apply title_loop_exists. }
  rewrite body_loop_count; cbv zeta.
  change (List.length (List.filter (fun p => test p (toLowerCase body)) BODY_ERROR_PATTERNS))
    with (body_match_count body).
  change (JS.length body <? MIN_CONTENT_LENGTH)%nat with (short_body body).
  change (trim (collapse_whitespace (strip_tags body))) with (text_content body).
  change (JS.length (text_content body) <? 100)%nat with (little_text body).
  rewrite Nat.add_0_l. simpl (0 =? 0)%nat. rewrite andb_true_l.
  rewrite Ha1. unfold signal_sum, reasons_of, plus_if, when, SOFT_404_THRESHOLD.
  destruct (title_matches title), (0 <? body_match_count body)%nat,
    (short_body body), (little_text body); reflexivity.
Qed.

(** Conditional additions and the sum with zero terms agree on every
    reachable combination of signals. *)
Lemma signal_sum_zero_terms tm n sh lt :
  (n <= 14)%nat → signal_sum tm n sh lt = signal_sum0 tm n sh lt.
Proof.
  intros Hn.
  do 15 (destruct n as [|n]; [destruct tm, sh, lt; vm_compute; reflexivity|]).
  lia.
Qed.

(** Rounding never moves a score across the threshold: the flag computed on
    binary64 floats is the flag of the exact decimal score. *)
Lemma flag_exact tm n sh lt :
  (n <= 14)%nat →
  (0.5 <=? fmin (signal_sum tm n sh lt) 1)%float = (5 <=? signal_tenths tm n sh lt)%Z.
Proof.
  intros Hn.
  do 15 (destruct n as [|n]; [destruct tm, sh, lt; vm_compute; reflexivity|]).
  lia.
Qed.

(** C1. [checkSoft404] returns [isSoft404 = false], confidence 0 and no
    reasons whenever the status code is not exactly 200 (a literal 404
    included).  On status 200 its confidence is [min(s, 1)], where [s] adds
    0.4 when the title matches a title pattern, [min(0.3 + 0.1 * n, 0.5)] when
    [n >= 1] body patterns match the case-folded body, 0.2 when the body has
    fewer than 500 code units and 0.3 when the tag-stripped,
    whitespace-collapsed (and trimmed) text has fewer than 100; the page is
    flagged exactly when the confidence is at least 0.5. *)
Theorem checkSoft404_spec (body : string) (title : option string) (statusCode : Z) :
  checkSoft404 body title statusCode =
    if (statusCode =? 200)%Z
    then
      let s := signal_sum (title_matches title) (body_match_count body)
                 (short_body body) (little_text body) in
      let conf := fmin s 1 in
      {| isSoft404 := (0.5 <=? conf)%float;
         confidence := conf;
         reasons := reasons_of body title |}
    else {| isSoft404 := false; confidence := 0; reasons := [] |}.
Proof.
  destruct (statusCode =? 200)%Z eqn:E.
  - apply Z.eqb_eq in E; subst statusCode. apply checkSoft404_unfold.
  - unfold checkSoft404. rewrite E.
    destruct (statusCode =? 404)%Z; reflexivity.
Qed.

(** The flag of [checkSoft404] is the exact-decimal comparison
    [score >= 0.5]. *)
Lemma isSoft404_exact body title :
  isSoft404 (checkSoft404 body title 200) =
    (5 <=? signal_tenths (title_matches title) (body_match_count body)
             (short_body body) (little_text body))%Z.
Proof.
  rewrite checkSoft404_unfold; cbv zeta; simpl isSoft404.
  apply flag_exact, body_match_count_le.
Qed.

Example soft404_error_page :
  checkSoft404 "Sorry, this page could not be found." (Some "404 Error") 200 =
    {| isSoft404 := true; confidence := 1;
       reasons := ["Title matches error pattern: " +:+ dquote +:+ "404 Error" +:+ dquote;
                   "Body contains error indicator";
                   "Short content length: 36 chars";
                   "Very little text content: 36 chars"] |}.
Proof. vm_compute. reflexivity. Qed.

Example soft404_real_404 :
  checkSoft404 "Sorry, this page could not be found." (Some "404 Error") 404 =
    {| isSoft404 := false; confidence := 0; reasons := [] |}.
Proof. reflexivity. Qed.

End CheckSoft404.

(** ** Properties of [calculateSimilarity] and [titlesMatch] *)

Section Similarity.

Implicit Types (m : gmap string nat) (X Y : gmultiset string) (g : string).

Lemma represents_empty : represents ∅ ∅.
Proof. intros g. unfold get_count. by rewrite lookup_empty, multiplicity_empty. Qed.

Lemma get_count_insert m g h n :
  get_count (<[g := n]> m) h = if decide (g = h) then n else get_count m h.
Proof.
  unfold get_count. rewrite lookup_insert. by case_decide.
Qed.

Lemma represents_incr m X g :
  represents m X → represents (<[g := (get_count m g + 1)%nat]> m) ({[+ g +]} ⊎ X).
Proof.
  intros HX h. rewrite get_count_insert, multiplicity_disj_union.
  case_decide as E.
  - subst h. rewrite multiplicity_singleton_eq, HX. lia.
  - rewrite multiplicity_singleton_ne by done. rewrite HX. lia.
Qed.

Lemma represents_decr m X g :
  represents m X → represents (<[g := (get_count m g - 1)%nat]> m) (X ∖ {[+ g +]}).
Proof.
  intros HX h. rewrite get_count_insert, multiplicity_difference.
  case_decide as E.
  - subst h. rewrite multiplicity_singleton_eq, HX. lia.
  - rewrite multiplicity_singleton_ne by done. rewrite HX. lia.
Qed.

(** The first loop builds the multiset of the bigrams it is given. *)
Lemma count_bigrams_represents gs m X :
  represents m X → represents (count_bigrams gs m) (list_to_set_disj gs ⊎ X).
Proof.
  revert m X; induction gs as [|g gs IH]; intros m X HX; simpl.
  - by rewrite (left_id_L ∅ (⊎)).
  - replace ({[+ g +]} ⊎ list_to_set_disj gs ⊎ X)
      with (list_to_set_disj gs ⊎ ({[+ g +]} ⊎ X)) by multiset_solver.
    apply IH, represents_incr, HX.
Qed.

(** The second loop counts the multiset intersection. *)
Lemma intersect_bigrams_size gs m X n :
  represents m X →
  intersect_bigrams gs m n = (n + size (X ∩ list_to_set_disj gs))%nat.
Proof.
  revert m X n; induction gs as [|g gs IH]; intros m X n HX; simpl.
  - replace (X ∩ ∅) with (∅ : gmultiset string) by multiset_solver.
    rewrite gmultiset_size_empty. lia.
  - destruct (0 <? get_count m g)%nat eqn:E.
    + apply Nat.ltb_lt in E. rewrite HX in E.
      rewrite (IH _ (X ∖ {[+ g +]})) by (by apply represents_decr).
      replace (X ∩ ({[+ g +]} ⊎ list_to_set_disj gs))
        with ({[+ g +]} ⊎ (X ∖ {[+ g +]}) ∩ list_to_set_disj gs).
      * rewrite gmultiset_size_disj_union, gmultiset_size_singleton. lia.
      * apply gmultiset_eq; intros h.
        rewrite multiplicity_disj_union, !multiplicity_intersection,
          multiplicity_disj_union, multiplicity_difference.
        destruct (decide (h = g)) as [->|Hne].
        -- rewrite multiplicity_singleton_eq. lia.
        -- rewrite multiplicity_singleton_ne by done. lia.
    + apply Nat.ltb_ge in E. rewrite HX in E.
      rewrite (IH _ X) by done. do 2 f_equal.
      apply gmultiset_eq; intros h.
      rewrite !multiplicity_intersection, multiplicity_disj_union.
      destruct (decide (h = g)) as [->|Hne].
      * rewrite multiplicity_singleton_eq. lia.
      * rewrite multiplicity_singleton_ne by done. lia.
Qed.

(** [calculateSimilarity] is the Dice coefficient over bigram multisets. *)
Lemma calculateSimilarity_dice s1 s2 :
  calculateSimilarity s1 s2 = dice s1 s2.
Proof.
  unfold calculateSimilarity, dice.
  destruct (String.eqb s1 s2); [done|].
  destruct ((JS.length s1 <? 2)%nat || (JS.length s2 <? 2)%nat); [done|].
  cbv zeta.
  rewrite (intersect_bigrams_size _ _ (bag s1)).
  - done.
  - unfold bag. replace (list_to_set_disj (bigrams s1) : gmultiset string)
      with (list_to_set_disj (bigrams s1) ⊎ (∅ : gmultiset string)) by multiset_solver.
    apply count_bigrams_represents, represents_empty.
Qed.

Lemma dice_sym a b : dice a b = dice b a.
Proof.
  unfold dice. rewrite (String.eqb_sym a b), (orb_comm (JS.length a <? 2)%nat).
  rewrite (comm_L (∩) (bag a)), (Nat.add_comm (JS.length a)). done.
Qed.

End Similarity.

Section TitlesMatch.

Lemma startsWith_app s p :
  startsWith s p = true ↔ ∃ r, s = p +:+ r.
Proof.
  revert s; induction p as [|a p IH]; intros s; simpl.
  - destruct s; simpl; (split; [by eexists|done]).
  - destruct s as [|b s]; simpl.
    + split; [done|]. intros [r Hr]. discriminate.
    + rewrite andb_true_iff, IH. split.
      * intros [E [r ->]]. apply Ascii.eqb_eq in E as ->. eauto.
      * intros [r Hr]. injection Hr as -> ->. split; [apply Ascii.eqb_refl|eauto].
Qed.

(** [includes s p] holds exactly when [p] occurs in [s] as a substring. *)
Lemma includes_substring s p :
  includes s p = true ↔ ∃ l r, s = l +:+ p +:+ r.
Proof.
  induction s as [|c s IH]; cbn [includes]; rewrite orb_true_iff, startsWith_app.
  - split.
    + intros [[r Hr]|?]; [|done]. exists EmptyString, r. done.
    + intros [l [r Hr]]. left. destruct l; [eauto|discriminate].
  - rewrite IH. split.
    + intros [[r Hr]|[l [r Hr]]].
      * exists EmptyString, r. done.
      * exists (String c l), r. simpl. by rewrite Hr.
    + intros [l [r Hr]]. destruct l as [|c' l]; simpl in Hr.
      * left; eauto.
      * right. injection Hr as -> Hs. eauto.
Qed.

Lemma titlesMatch_rule src dst :
  titlesMatch src dst = match_rule normalize src dst.
Proof.
  unfold titlesMatch, match_rule.
  destruct (absent src && absent dst); [done|].
  destruct (absent src || absent dst) eqn:E; [done|].
  apply orb_false_iff in E as [E1 E2].
  destruct src as [s|], dst as [d|]; try done.
  cbv zeta; simpl default. rewrite calculateSimilarity_dice.
  destruct (String.eqb (normalize s) (normalize d)); [done|].
  rewrite orb_false_l.
  destruct (includes (normalize d) (normalize s) || includes (normalize s) (normalize d)); done.
Qed.

(** C2 (amended). [titlesMatch] is true when both titles are absent or empty,
    false when exactly one is, and otherwise true exactly when the normalized
    titles are equal, or one contains the other, or their Dice coefficient
    [2 * |shared bigrams| / (len a + len b - 2)] over bigram multisets exceeds
    0.8 (similarity 1 for identical strings, else 0 below two characters).
    Normalization lowercases, collapses whitespace, strips the characters
    that are neither word characters [A-Za-z0-9_] nor whitespace, and trims:
    the underscore is kept. *)
Theorem titlesMatch_spec (src dst : option string) :
  titlesMatch src dst =
    if absent src && absent dst then true
    else if absent src || absent dst then false
    else
      let a := normalize (default EmptyString src) in
      let b := normalize (default EmptyString dst) in
      String.eqb a b || includes b a || includes a b || (0.8 <? dice a b)%float.
Proof. apply titlesMatch_rule. Qed.

(** C2 as stated fails: with alphanumeric-only normalization the titles
    [a_b] and [ab] would be equal, but the code keeps the underscore and
    finds no match. *)
Lemma titlesMatch_underscore_counterexample :
  titlesMatch (Some "a_b") (Some "ab") = false ∧
  spec_titlesMatch (Some "a_b") (Some "ab") = true.
Proof. split; vm_compute; reflexivity. Qed.

(** C9. [titlesMatch] is symmetric, and so is [calculateSimilarity], although
    only its first argument is turned into a bigram map. *)
Theorem titlesMatch_symmetric :
  (∀ a b : option string, titlesMatch a b = titlesMatch b a) ∧
  (∀ s1 s2 : string, calculateSimilarity s1 s2 = calculateSimilarity s2 s1).
Proof.
  split.
  - intros a b. rewrite !titlesMatch_rule. unfold match_rule.
    rewrite (andb_comm (absent a)), (orb_comm (absent a)).
    destruct (absent b && absent a); [done|].
    destruct (absent b || absent a); [done|].
    cbv zeta.
    rewrite (String.eqb_sym (normalize (default EmptyString a))), (dice_sym (normalize (default EmptyString a))).
    rewrite <- !orb_assoc. f_equal.
    rewrite !orb_assoc. f_equal. apply orb_comm.
  - intros s1 s2. rewrite !calculateSimilarity_dice. apply dice_sym.
Qed.

Example titles_containment :
  titlesMatch (Some "About Us") (Some "About Us | MySite") = true.
Proof. vm_compute. reflexivity. Qed.

Example titles_differ :
  titlesMatch (Some "Contact") (Some "Home") = false.
Proof. vm_compute. reflexivity. Qed.

Example similarity_repeated_bigrams :
  calculateSimilarity "aaaa" "aab" = calculateSimilarity "aab" "aaaa".
Proof. vm_compute. reflexivity. Qed.

End TitlesMatch.

(** ** Further properties of the classifier *)

Section Classifier.

Lemma checkSoft404_not_200 body title statusCode :
  statusCode ≠ 200%Z →
  checkSoft404 body title statusCode
    = {| isSoft404 := false; confidence := 0; reasons := [] |}.
Proof.
  intros Hne. unfold checkSoft404.
  destruct (statusCode =? 404)%Z; [done|].
  destruct (Z.eqb_spec statusCode 200); done.
Qed.

Lemma signal_bounds tm n sh lt :
  (n <= 14)%nat →
  (0 <=? fmin (signal_sum tm n sh lt) 1)%float = true ∧
  (fmin (signal_sum tm n sh lt) 1 <=? 1)%float = true.
Proof.
  intros Hn.
  do 15 (destruct n as [|n]; [destruct tm, sh, lt; vm_compute; done|]).
  lia.
Qed.

(** The confidence is a number between 0 and 1, whatever the page. *)
Theorem confidence_bounds (body : string) (title : option string) (statusCode : Z) :
  (0 <=? confidence (checkSoft404 body title statusCode))%float = true ∧
  (confidence (checkSoft404 body title statusCode) <=? 1)%float = true.
Proof.
  destruct (Z.eq_dec statusCode 200%Z) as [->|Hne].
  - rewrite checkSoft404_unfold; cbv zeta; simpl confidence.
    apply signal_bounds, body_match_count_le.
  - rewrite checkSoft404_not_200 by done. done.
Qed.

Lemma signal_positive tm n sh lt :
  (n <= 14)%nat →
  (0 <? fmin (signal_sum tm n sh lt) 1)%float = tm || (0 <? n)%nat || sh || lt.
Proof.
  intros Hn.
  do 15 (destruct n as [|n]; [destruct tm, sh, lt; vm_compute; done|]).
  lia.
Qed.

(** The confidence is positive exactly when a reason is reported. *)
Theorem confidence_positive_iff_reasons (body : string) (title : option string)
    (statusCode : Z) :
  (0 <? confidence (checkSoft404 body title statusCode))%float
    = match reasons (checkSoft404 body title statusCode) with
      | [] => false
      | _ :: _ => true
      end.
Proof.
  destruct (Z.eq_dec statusCode 200%Z) as [->|Hne].
  - rewrite checkSoft404_unfold; cbv zeta; simpl confidence; simpl reasons.
    rewrite signal_positive by apply body_match_count_le.
    unfold reasons_of, when.
    destruct (title_matches title), (0 <? body_match_count body)%nat,
      (short_body body), (little_text body); done.
  - rewrite checkSoft404_not_200 by done. done.
Qed.

(** Lengths under the string operations of the text signal. *)
Lemma length_trimStart s : (JS.length (trimStart s) <= JS.length s)%nat.
Proof.
  unfold JS.length. induction s as [|c s IH]; simpl; [done|].
  destruct (is_space c); simpl; lia.
Qed.

Lemma length_rev s : JS.length (rev s) = JS.length s.
Proof.
  unfold JS.length, rev.
  rewrite <- (string_of_list_ascii_of_string s) at 2.
  generalize (list_ascii_of_string s). intros l.
  assert (H : ∀ l', String.length (string_of_list_ascii l') = List.length l').
  { induction l' as [|a l' IH]; simpl; [done|]. by rewrite IH. }
  rewrite !H. apply List.length_rev.
Qed.

Lemma length_trim s : (JS.length (trim s) <= JS.length s)%nat.
Proof.
  unfold trim, trimEnd. rewrite length_rev.
  etrans; [apply length_trimStart|]. rewrite length_rev.
  apply length_trimStart.
Qed.

Lemma length_collapse_from b s :
  (JS.length (collapse_from b s) <= JS.length s)%nat.
Proof.
  unfold JS.length. revert b; induction s as [|c s IH]; intros b; simpl; [done|].
  pose proof (IH true). pose proof (IH false).
  destruct (is_space c); [destruct b|]; simpl; lia.
Qed.

Lemma length_strip_tags_from b s :
  (JS.length (strip_tags_from b s) <= JS.length s)%nat.
Proof.
  unfold JS.length. revert b; induction s as [|c s IH]; intros b; simpl; [done|].
  pose proof (IH true). pose proof (IH false).
  destruct b; [destruct (Ascii.eqb c ">")|destruct (Ascii.eqb c "<" && has_char ">" s)];
    simpl; lia.
Qed.

Lemma length_text_content body :
  (JS.length (text_content body) <= JS.length body)%nat.
Proof.
  unfold text_content, collapse_whitespace, strip_tags.
  etrans; [apply length_trim|].
  etrans; [apply length_collapse_from|]. apply length_strip_tags_from.
Qed.

Lemma short_signals_flag tm n :
  (n <= 14)%nat → (0.5 <=? fmin (signal_sum tm n true true) 1)%float = true.
Proof.
  intros Hn.
  do 15 (destruct n as [|n]; [destruct tm; vm_compute; done|]).
  lia.
Qed.

(** A page that answers 200 with a body of fewer than 100 code units is
    always flagged, whatever its title and wording: the two length signals
    alone reach the threshold. *)
Theorem tiny_body_flagged (body : string) (title : option string) :
  (JS.length body < 100)%nat →
  isSoft404 (checkSoft404 body title 200) = true.
Proof.
  intros Hlen. rewrite checkSoft404_unfold; cbv zeta; simpl isSoft404.
  assert (short_body body = true) as ->.
  { unfold short_body. apply Nat.ltb_lt. lia. }
  assert (little_text body = true) as ->.
  { unfold little_text. apply Nat.ltb_lt.
    pose proof (length_text_content body). lia. }
  apply short_signals_flag, body_match_count_le.
Qed.

Lemma tiny_body_flagged_witness :
  (JS.length "<h1>Welcome</h1>" < 100)%nat ∧
  isSoft404 (checkSoft404 "<h1>Welcome</h1>" (Some "Home") 200) = true.
Proof.
  split; [vm_compute; lia|].
  apply (tiny_body_flagged "<h1>Welcome</h1>" (Some "Home")). vm_compute. lia.
Defined.

(** Every title matches itself. *)
Theorem titlesMatch_reflexive (t : option string) : titlesMatch t t = true.
Proof.
  rewrite titlesMatch_rule. unfold match_rule.
  destruct (absent t); [done|]. simpl. by rewrite String.eqb_refl.
Qed.

Lemma length_bigrams_cons a s :
  List.length (bigrams (String a s)) = String.length s.
Proof.
  revert a; induction s as [|b s IH]; intros a; [done|].
  change (bigrams (String a (String b s)))
    with (String a (String b EmptyString) :: bigrams (String b s)).
  cbn [List.length String.length]. by rewrite IH.
Qed.

Lemma length_bigrams s : List.length (bigrams s) = (JS.length s - 1)%nat.
Proof.
  destruct s as [|a s]; [done|]. rewrite length_bigrams_cons.
  unfold JS.length. simpl. lia.
Qed.

Lemma size_bag s : size (bag s) = (JS.length s - 1)%nat.
Proof.
  unfold bag. rewrite <- length_bigrams.
  induction (bigrams s) as [|g gs IH]; [done|].
  rewrite list_to_set_disj_cons, gmultiset_size_disj_union, gmultiset_size_singleton.
  simpl. by rewrite IH.
Qed.

(** The number of shared bigrams counted by [calculateSimilarity] is at
    most the number of bigrams of either string, so the quotient
    [2 * shared / (len1 + len2 - 2)] never exceeds 1 in exact arithmetic. *)
Theorem shared_bigrams_bound (s1 s2 : string) :
  let shared := intersect_bigrams (bigrams s2) (count_bigrams (bigrams s1) ∅) 0 in
  (shared <= JS.length s1 - 1)%nat ∧ (shared <= JS.length s2 - 1)%nat ∧
  (2 * shared <= (JS.length s1 - 1) + (JS.length s2 - 1))%nat.
Proof.
  intros shared. subst shared.
  rewrite (intersect_bigrams_size _ _ (bag s1)).
  2:{ unfold bag. replace (list_to_set_disj (bigrams s1) : gmultiset string)
        with (list_to_set_disj (bigrams s1) ⊎ (∅ : gmultiset string)) by multiset_solver.
      apply count_bigrams_represents, represents_empty. }
  fold (bag s2). simpl.
  assert (H1 : (size (bag s1 ∩ bag s2) <= size (bag s1))%nat).
  { apply gmultiset_subseteq_size. multiset_solver. }
  assert (H2 : (size (bag s1 ∩ bag s2) <= size (bag s2))%nat).
  { apply gmultiset_subseteq_size. multiset_solver. }
  rewrite !size_bag in *. lia.
Qed.

End Classifier.

End Soft404.

(* ===================================================================== *)
(** * utils/http.ts *)
(* ===================================================================== *)

Module Http.

Import JS.

(** Result of an HTTP fetch operation ([types/index.ts]). *)
Record FetchResult : Type := {
  statusCode : Z;
  body : string;
  finalUrl : string;
  wasRedirected : bool;
  responseTimeMs : Z;
  error : option string
}.

(** Options for [fetchUrl]; an absent field takes its default. *)
Record FetchOptions : Type := {
  timeout : option Z;
  retries : option Z;
  followRedirects : option bool
}.

(** ** The network seen by one call

    What [fetch] and [response.text()] do is not under the program's
    control: an attempt either resolves with a response or throws. *)

Record Response : Type := {
  status : Z;
  url : string;       (* [response.url] *)
  text : string       (* [await response.text()] *)
}.

Record JsError : Type := {
  name : string;
  message : string
}.

Inductive outcome : Type :=
  | Resolved (r : Response)
  | Thrown (e : JsError).

(** The [n]-th attempt of a call (counted from 1) and the milliseconds it
    took ([Date.now() - startTime]). *)
Record network : Type := {
  attempt_outcome : Z → outcome;
  attempt_elapsed : Z → Z
}.

(** What a call does besides returning: the attempts it issues and the
    pauses it takes, in order. *)
Inductive event : Type :=
  | Attempt (n : Z)
  | Sleep (ms : Z).

Definition is_abort (e : JsError) : bool := String.eqb (name e) "AbortError".

(** The [while (attempt <= retries)] loop of [fetchUrl].  [attempt] and
    [lastError] are the mutable locals, [trace] the events so far (latest
    first).  [fuel] bounds the iterations; [None] means it ran out. *)
Fixpoint fetch_loop (net : network) (target : string) (timeout_ms retries_n : Z)
    (fuel : nat) (attempt : Z) (lastError : option JsError) (trace : list event)
    : option (FetchResult * list event) :=
  if (attempt <=? retries_n)%Z
  then
    match fuel with
    | O => None
    | S fuel' =>
        let attempt := (attempt + 1)%Z in
        let trace := Attempt attempt :: trace in
        match attempt_outcome net attempt with
        | Resolved response =>
            let responseTimeMs := attempt_elapsed net attempt in
            (* Check if we were redirected *)
            let finalUrl := or_else (url response) target in
            let wasRedirected := negb (String.eqb finalUrl target) in
            Some ({| statusCode := status response;
                     body := text response;
                     finalUrl := finalUrl;
                     wasRedirected := wasRedirected;
                     responseTimeMs := responseTimeMs;
                     error := None |}, List.rev trace)
        | Thrown e =>
            let lastError := Some e in
            let responseTimeMs := attempt_elapsed net attempt in
            (* Check if it's an abort error (timeout) *)
            if is_abort e
            then Some ({| statusCode := 0;
                          body := EmptyString;
                          finalUrl := target;
                          wasRedirected := false;
                          responseTimeMs := responseTimeMs;
                          error := Some ("Request timeout after " +:+ show_Z timeout_ms +:+ "ms") |},
                       List.rev trace)
            else
              (* If not the last attempt, wait a bit before retrying *)
              let trace :=
                if (attempt <=? retries_n)%Z
                then Sleep (Z.min (1000 * attempt) 3000) :: trace
                else trace in
              fetch_loop net target timeout_ms retries_n fuel' attempt lastError trace
        end
    end
  else
    Some ({| statusCode := 0;
             body := EmptyString;
             finalUrl := target;
             wasRedirected := false;
             responseTimeMs := 0;
             error := Some (or_else (from_option message EmptyString lastError) "Unknown error") |},
          List.rev trace).

(** Fetches a URL with retries, timeout, and redirect handling. *)
Definition fetchUrl (net : network) (target : string) (options : FetchOptions)
    : option (FetchResult * list event) :=
  let timeout_ms := default 10000%Z (timeout options) in
  let retries_n := default 2%Z (retries options) in
  fetch_loop net target timeout_ms retries_n (Z.to_nat (retries_n + 1)) 0 None [].

(** [if (result.error)]: the callers' test for a failed outcome. *)
Definition has_error (result : FetchResult) : bool :=
  match error result with
  | Some msg => truthy msg
  | None => false
  end.

(** Checks if a status code indicates success. *)
Definition isSuccessStatus (statusCode : Z) : bool :=
  (200 <=? statusCode)%Z && (statusCode <? 300)%Z.

(** Checks if a status code indicates a redirect. *)
Definition isRedirectStatus (statusCode : Z) : bool :=
  (300 <=? statusCode)%Z && (statusCode <? 400)%Z.

(** Checks if a status code indicates a client error. *)
Definition isClientErrorStatus (statusCode : Z) : bool :=
  (400 <=? statusCode)%Z && (statusCode <? 500)%Z.

(** Checks if a status code indicates a server error. *)
Definition isServerErrorStatus (statusCode : Z) : bool :=
  (500 <=? statusCode)%Z && (statusCode <? 600)%Z.

(** ** FlareSolverr *)

Record FlareSolverrSolution : Type := {
  sol_url : string;
  sol_status : Z;
  sol_response : string
}.

(** The parsed JSON body.  The declared type promises a [solution]; the
    value is not validated, so it can be missing at run time. *)
Record FlareSolverrResponse : Type := {
  fs_status : string;
  fs_message : string;
  fs_solution : option FlareSolverrSolution
}.

(** The POST to the FlareSolverr endpoint: [fetch] throws, or resolves with
    [response.ok], [response.status] and what [response.json()] does. *)
Inductive flare_outcome : Type :=
  | FlareThrown (e : JsError)
  | FlareResolved (ok : bool) (http_status : Z) (json : JsError + FlareSolverrResponse).

(** The body of the [try] block: [inl] is a thrown error. *)
Definition flare_try (target : string) (elapsed : Z) (o : flare_outcome)
    : JsError + FetchResult :=
  match o with
  | FlareThrown e => inl e
  | FlareResolved ok http_status json =>
      if negb ok
      then inl {| name := "Error";
                  message := "FlareSolverr HTTP error: " +:+ show_Z http_status |}
      else
        match json with
        | inl e => inl e
        | inr data =>
            if negb (String.eqb (fs_status data) "ok")
            then inr {| statusCode := 0;
                        body := EmptyString;
                        finalUrl := target;
                        wasRedirected := false;
                        responseTimeMs := elapsed;
                        error := Some ("FlareSolverr error: " +:+ fs_message data) |}
            else
              match fs_solution data with
              | None =>
                  inl {| name := "TypeError";
                         message := "Cannot read properties of undefined (reading 'url')" |}
              | Some solution =>
                  let wasRedirected := negb (String.eqb (sol_url solution) target) in
                  inr {| statusCode := sol_status solution;
                         body := sol_response solution;
                         finalUrl := sol_url solution;
                         wasRedirected := wasRedirected;
                         responseTimeMs := elapsed;
                         error := None |}
              end
        end
  end.

(** Fetches a URL using FlareSolverr (renders JavaScript). *)
Definition fetchUrlWithFlareSolverr (target : string) (elapsed : Z)
    (o : flare_outcome) : FetchResult :=
  match flare_try target elapsed o with
  | inr result => result
  | inl e =>
      {| statusCode := 0;
         body := EmptyString;
         finalUrl := target;
         wasRedirected := false;
         responseTimeMs := elapsed;
         error := Some (or_else (message e) "FlareSolverr request failed") |}
  end.

(** ** Shapes of outcomes *)

(** A failed outcome: a non-empty [error] and [statusCode] 0. *)
Definition failed (o : FetchResult) : Prop :=
  ∃ msg, error o = Some msg ∧ truthy msg = true ∧ statusCode o = 0%Z.

(** An outcome whose HTTP fields come from a response (status, final URL,
    text) to a request for [target]. *)
Definition populated_from (target : string) (st : Z) (final txt : string)
    (o : FetchResult) : Prop :=
  error o = None ∧ statusCode o = st ∧ body o = txt ∧
  finalUrl o = final ∧
  wasRedirected o = negb (String.eqb final target).

(** The exhaustion clause as the specification words it: the outcome carries
    the message of the error thrown by the last attempt [k]. *)
Definition carries_last_message (net : network) (k : nat) (o : FetchResult) : Prop :=
  ∃ e, attempt_outcome net (Z.of_nat k) = Thrown e ∧ error o = Some (message e).

(** The pause after attempt [n]. *)
Definition backoff (n : Z) : Z := Z.min (1000 * n) 3000.

(** The events of [k] attempts: the attempts 1..k with the back-off pause
    between consecutive ones. *)
Fixpoint schedule_from (n : Z) (k : nat) : list event :=
  match k with
  | O => []
  | S O => [Attempt n]
  | S k' => Attempt n :: Sleep (backoff n) :: schedule_from (n + 1) k'
  end.

Definition schedule (k : nat) : list event := schedule_from 1 k.

(** A failure that is retried: a thrown error other than an abort. *)
Definition retriable (o : outcome) : Prop :=
  ∃ e, o = Thrown e ∧ is_abort e = false.

(** The three outcomes of [fetchUrl]. *)
Definition success_result (target : string) (r : Response) (elapsed : Z) : FetchResult :=
  {| statusCode := status r;
     body := text r;
     finalUrl := or_else (url r) target;
     wasRedirected := negb (String.eqb (or_else (url r) target) target);
     responseTimeMs := elapsed;
     error := None |}.

Definition timeout_result (target : string) (timeout_ms elapsed : Z) : FetchResult :=
  {| statusCode := 0;
     body := EmptyString;
     finalUrl := target;
     wasRedirected := false;
     responseTimeMs := elapsed;
     error := Some ("Request timeout after " +:+ show_Z timeout_ms +:+ "ms") |}.

Definition exhausted_result (target : string) (lastError : option JsError) : FetchResult :=
  {| statusCode := 0;
     body := EmptyString;
     finalUrl := target;
     wasRedirected := false;
     responseTimeMs := 0;
     error := Some (or_else (from_option message EmptyString lastError) "Unknown error") |}.

Definition thrown_error (o : outcome) : option JsError :=
  match o with
  | Thrown e => Some e
  | Resolved _ => None
  end.

(** How a run of the retry loop that makes [k] further attempts after
    attempt [a] ends. *)
Definition ends_with (net : network) (target : string) (timeout_ms retries_n : Z)
    (a : Z) (lastError : option JsError) (k : nat) (res : FetchResult) : Prop :=
  (* a response *)
  ((1 <= k)%nat ∧ ∃ r, attempt_outcome net (a + Z.of_nat k) = Resolved r ∧
     res = success_result target r (attempt_elapsed net (a + Z.of_nat k)))
  (* a timeout *)
  ∨ ((1 <= k)%nat ∧ ∃ e, attempt_outcome net (a + Z.of_nat k) = Thrown e ∧
       is_abort e = true ∧
       res = timeout_result target timeout_ms (attempt_elapsed net (a + Z.of_nat k)))
  (* every allowed attempt failed *)
  ∨ (Z.of_nat k = Z.max 0 (retries_n + 1 - a) ∧
     ((1 <= k)%nat → retriable (attempt_outcome net (a + Z.of_nat k))) ∧
     res = exhausted_result target
             (if (k =? 0)%nat then lastError
              else thrown_error (attempt_outcome net (a + Z.of_nat k)))).

(** ** Properties of [fetchUrl] *)

Section FetchUrl.

Variables (net : network) (target : string) (timeout_ms retries_n : Z).

Lemma schedule_from_S n k :
  (1 <= k)%nat →
  schedule_from n (S k) = Attempt n :: Sleep (backoff n) :: schedule_from (n + 1) k.
Proof. destruct k; [lia|done]. Qed.

Lemma fetch_loop_spec fuel :
  ∀ a lastError trace,
    (retries_n + 1 - a <= Z.of_nat fuel)%Z →
    ∃ res k,
      fetch_loop net target timeout_ms retries_n fuel a lastError trace
        = Some (res, List.rev trace ++ schedule_from (a + 1) k) ∧
      (Z.of_nat k <= Z.max 0 (retries_n + 1 - a))%Z ∧
      (∀ i, (a < i < a + Z.of_nat k)%Z → retriable (attempt_outcome net i)) ∧
      ends_with net target timeout_ms retries_n a lastError k res.
Proof.
  assert (Hexit : ∀ fuel a lastError trace, (retries_n < a)%Z →
    ∃ res k,
      fetch_loop net target timeout_ms retries_n fuel a lastError trace
        = Some (res, List.rev trace ++ schedule_from (a + 1) k) ∧
      (Z.of_nat k <= Z.max 0 (retries_n + 1 - a))%Z ∧
      (∀ i, (a < i < a + Z.of_nat k)%Z → retriable (attempt_outcome net i)) ∧
      ends_with net target timeout_ms retries_n a lastError k res).
  { intros f a lastError trace Hgt.
    exists (exhausted_result target lastError), 0%nat.
    split; [|split; [lia|split; [intros; lia|]]].
    - destruct f; simpl; destruct (Z.leb_spec a retries_n); try lia;
        by rewrite app_nil_r.
    - right; right. split; [lia|]. split; [lia|done]. }
  induction fuel as [|fuel IH]; intros a lastError trace Hfuel.
  { apply Hexit. lia. }
  destruct (Z.leb_spec a retries_n) as [Hle|Hgt]; [|by apply Hexit].
  simpl. destruct (Z.leb_spec a retries_n) as [_|?]; [|lia].
  destruct (attempt_outcome net (a + 1)) as [r|e] eqn:Hout.
  - (* the attempt resolves *)
    exists (success_result target r (attempt_elapsed net (a + 1))), 1%nat.
    split; [done|split; [lia|split; [intros; lia|]]].
    left. split; [lia|]. exists r.
    replace (a + Z.of_nat 1)%Z with (a + 1)%Z by lia. done.
  - destruct (is_abort e) eqn:Habort.
    + (* timeout: terminal *)
      exists (timeout_result target timeout_ms (attempt_elapsed net (a + 1))), 1%nat.
      split; [done|split; [lia|split; [intros; lia|]]].
      right; left. split; [lia|]. exists e.
      replace (a + Z.of_nat 1)%Z with (a + 1)%Z by lia. done.
    + (* another failure: pause and go round again *)
      match goal with
      | |- context [fetch_loop _ _ _ _ _ _ _ ?tr] => set (trace' := tr)
      end.
      destruct (IH (a + 1)%Z (Some e) trace' ltac:(lia))
        as (res & k & Hrun & Hk & Hretry & Hend).
      exists res, (S k). rewrite Hrun.
      assert (Htrace : List.rev trace' ++ schedule_from (a + 1 + 1) k
                       = List.rev trace ++ schedule_from (a + 1) (S k)).
      { subst trace'. destruct (Z.leb_spec (a + 1) retries_n) as [Hmore|Hlast].
        - assert (1 <= k)%nat.
          { destruct Hend as [[? _]|[[? _]|[? _]]]; lia. }
          rewrite schedule_from_S by done. simpl.
          rewrite <- !app_assoc. done.
        - assert (k = 0)%nat as -> by lia. simpl.
          rewrite app_nil_r. done. }
      rewrite Htrace. split; [done|split; [lia|split]].
      { intros i Hi. destruct (decide (i = a + 1)%Z) as [->|Hne].
        - exists e. done.
        - apply Hretry. lia. }
      unfold ends_with.
      replace (a + Z.of_nat (S k))%Z with (a + 1 + Z.of_nat k)%Z by lia.
      destruct Hend as [[? Hr]|[[? Ht]|(Hmax & Hlast & Hres)]].
      * left. split; [lia|done].
      * right; left. split; [lia|done].
      * right; right. split; [lia|]. split.
        -- intros _. destruct k as [|k].
           ++ replace (a + 1 + Z.of_nat 0)%Z with (a + 1)%Z by lia.
              exists e. done.
           ++ apply Hlast. lia.
        -- rewrite Hres. destruct k as [|k]; [|done].
           replace (a + 1 + Z.of_nat 0)%Z with (a + 1)%Z by lia.
           rewrite Hout. done.
Qed.

End FetchUrl.

Section Outcomes.

Lemma truthy_or_else a b : truthy b = true → truthy (or_else a b) = true.
Proof. unfold or_else. destruct (truthy a) eqn:E; done. Qed.

Lemma failed_timeout target t el : failed (timeout_result target t el).
Proof. eexists. split; [done|]. done. Qed.

Lemma failed_exhausted target last : failed (exhausted_result target last).
Proof.
  eexists. split; [done|]. split; [|done]. by apply truthy_or_else.
Qed.

Lemma populated_success target r el :
  populated_from target (status r) (or_else (url r) target) (text r)
    (success_result target r el).
Proof. done. Qed.

(** [fetchUrl] always returns, whatever the network does. *)
Lemma fetchUrl_returns net target options :
  ∃ res k, fetchUrl net target options = Some (res, schedule k).
Proof.
  unfold fetchUrl; cbv zeta.
  destruct (fetch_loop_spec net target (default 10000%Z (timeout options))
              (default 2%Z (retries options))
              (Z.to_nat (default 2%Z (retries options) + 1)) 0 None [] ltac:(lia))
    as (res & k & Hrun & _).
  exists res, k. rewrite Hrun. done.
Qed.

(** C3 (amended). With [maxRetries = r], [fetchUrl] makes some number [k] of
    attempts, at most [r + 1]; consecutive attempts are separated by a pause
    of [min(1000 * attemptNumber, 3000)] ms ([schedule]); every attempt but
    the last failed with an error other than a timeout.  The call ends with
    the response of attempt [k]; or with a timeout at attempt [k], which is
    not retried and yields [statusCode] 0 and the message
    [Request timeout after <timeout>ms]; or, after all [r + 1] attempts
    failed, with [statusCode] 0 and the last error's message, replaced by
    [Unknown error] when that message is empty or no attempt was made. *)
Theorem fetchUrl_retry_policy (net : network) (target : string) (options : FetchOptions) :
  let r := default 2%Z (retries options) in
  let t := default 10000%Z (timeout options) in
  ∃ res k,
    fetchUrl net target options = Some (res, schedule k) ∧
    (Z.of_nat k <= Z.max 0 (r + 1))%Z ∧
    (∀ i, (0 < i < Z.of_nat k)%Z → retriable (attempt_outcome net i)) ∧
    ends_with net target t r 0 None k res.
Proof.
  intros r t. unfold fetchUrl; cbv zeta. fold r t.
  destruct (fetch_loop_spec net target t r (Z.to_nat (r + 1)) 0 None [] ltac:(lia))
    as (res & k & Hrun & Hk & Hretry & Hend).
  exists res, k. rewrite Hrun.
  split; [done|]. split; [by rewrite Z.sub_0_r in Hk|]. split; [|done].
  intros i Hi. apply Hretry. lia.
Qed.

(** C3 as stated fails on its last clause: when the last error has an empty
    message the outcome carries [Unknown error] instead. *)
Lemma fetchUrl_empty_message_counterexample :
  let net := {| attempt_outcome := fun _ => Thrown {| name := "Error"; message := EmptyString |};
                attempt_elapsed := fun _ => 5%Z |} in
  let options := {| timeout := None; retries := Some 1%Z; followRedirects := None |} in
  ∃ res,
    fetchUrl net "http://example.com/" options = Some (res, schedule 2) ∧
    statusCode res = 0%Z ∧
    error res = Some "Unknown error" ∧
    ¬ carries_last_message net 2 res.
Proof.
  eexists. split; [vm_compute; reflexivity|].
  split; [done|]. split; [done|].
  intros [e [He Herr]]. simpl in He, Herr.
  injection He as <-. discriminate Herr.
Qed.

(** An outcome of [fetchUrl] without an error is built from a response. *)
Lemma fetchUrl_no_error net target options res tr :
  fetchUrl net target options = Some (res, tr) →
  has_error res = false →
  ∃ r el, res = success_result target r el.
Proof.
  unfold fetchUrl; cbv zeta. intros Hrun Hok.
  destruct (fetch_loop_spec net target (default 10000%Z (timeout options))
              (default 2%Z (retries options))
              (Z.to_nat (default 2%Z (retries options) + 1)) 0 None [] ltac:(lia))
    as (res' & k & Hrun' & _ & _ & Hend).
  rewrite Hrun in Hrun'. injection Hrun' as -> _.
  destruct Hend as [[_ (r & _ & ->)]|[[_ (e & _ & _ & ->)]|(_ & _ & ->)]].
  - by eexists _, _.
  - done.
  - unfold has_error, exhausted_result in Hok. simpl in Hok.
    by rewrite truthy_or_else in Hok.
Qed.

(** C4. Every outcome of either fetch strategy is complete: it is a failure
    (a non-empty [error] and [statusCode] 0), or it has no [error] and its
    status, body, final URL and redirect flag are those of a response. *)
Theorem fetch_outcome_complete :
  (∀ net target options,
     ∃ res tr, fetchUrl net target options = Some (res, tr) ∧
       (failed res ∨
        ∃ n r, attempt_outcome net n = Resolved r ∧
          populated_from target (status r) (or_else (url r) target) (text r) res))
  ∧
  (∀ target elapsed o,
     let res := fetchUrlWithFlareSolverr target elapsed o in
     failed res ∨
     ∃ st data sol, o = FlareResolved true st (inr data) ∧
       fs_solution data = Some sol ∧
       populated_from target (sol_status sol) (sol_url sol) (sol_response sol) res).
Proof.
  split.
  - intros net target options.
    unfold fetchUrl; cbv zeta.
    destruct (fetch_loop_spec net target (default 10000%Z (timeout options))
                (default 2%Z (retries options))
                (Z.to_nat (default 2%Z (retries options) + 1)) 0 None [] ltac:(lia))
      as (res & k & Hrun & _ & _ & Hend).
    exists res, (schedule k). split; [by rewrite Hrun|].
    destruct Hend as [[_ (r & Hr & ->)]|[[_ (e & _ & _ & ->)]|(_ & _ & ->)]].
    + right. eexists _, r. split; [done|]. apply populated_success.
    + left. apply failed_timeout.
    + left. apply failed_exhausted.
  - intros target elapsed o res. subst res.
    unfold fetchUrlWithFlareSolverr, flare_try.
    destruct o as [e|ok st [e|data]].
    + left. eexists. split; [done|]. split; [|done]. by apply truthy_or_else.
    + destruct ok; simpl; left; (eexists; split; [done|]; split; [|done]);
        by apply truthy_or_else.
    + destruct ok; simpl.
      2:{ left. eexists. split; [done|]. split; [|done]. by apply truthy_or_else. }
      destruct (String.eqb (fs_status data) "ok"); simpl.
      2:{ left. eexists. split; [done|]. done. }
      destruct (fs_solution data) as [sol|] eqn:Hsol.
      * right. exists st, data, sol. done.
      * left. eexists. split; [done|]. split; [|done]. by apply truthy_or_else.
Qed.

End Outcomes.

(** ** Further properties of the fetch layer *)

Section MoreFetch.

(** The four status predicates split the codes 200..599 into classes: a
    code satisfies at most one of them, and exactly one when it lies in that
    range. *)
Theorem status_classes (statusCode : Z) :
  (if isSuccessStatus statusCode then 1 else 0)
  + (if isRedirectStatus statusCode then 1 else 0)
  + (if isClientErrorStatus statusCode then 1 else 0)
  + (if isServerErrorStatus statusCode then 1 else 0)
  = (if (200 <=? statusCode)%Z && (statusCode <? 600)%Z then 1 else 0)%nat.
Proof.
  unfold isSuccessStatus, isRedirectStatus, isClientErrorStatus, isServerErrorStatus.
  repeat match goal with
         | |- context [(?a <=? ?b)%Z] => destruct (Z.leb_spec a b)
         | |- context [(?a <? ?b)%Z] => destruct (Z.ltb_spec a b)
         end; simpl; lia.
Qed.

(** How the loop ends is determined by the first attempt that does not fail
    with a retriable error. *)
Lemma fetchUrl_stops_at net target options (k : nat) :
  (1 <= k)%nat →
  (Z.of_nat k <= default 2%Z (retries options) + 1)%Z →
  (∀ i, (0 < i < Z.of_nat k)%Z → retriable (attempt_outcome net i)) →
  ¬ retriable (attempt_outcome net (Z.of_nat k)) →
  ∃ res,
    fetchUrl net target options = Some (res, schedule k) ∧
    ends_with net target (default 10000%Z (timeout options))
      (default 2%Z (retries options)) 0 None k res.
Proof.
  intros Hk Hmax Hbefore Hstop. unfold fetchUrl; cbv zeta.
  destruct (fetch_loop_spec net target (default 10000%Z (timeout options))
              (default 2%Z (retries options))
              (Z.to_nat (default 2%Z (retries options) + 1)) 0 None [] ltac:(lia))
    as (res & k' & Hrun & Hk' & Hretry & Hend).
  assert (k' = k) as ->.
  { destruct (Nat.lt_trichotomy k' k) as [Hlt|[->|Hgt]]; [|done|].
    - exfalso. destruct Hend as [[H1 (r & Hr & _)]|[[H1 (e & He & Ha & _)]|(Hmax' & _)]].
      + destruct (Hbefore (0 + Z.of_nat k')%Z ltac:(lia)) as (e & He & _). congruence.
      + destruct (Hbefore (0 + Z.of_nat k')%Z ltac:(lia)) as (e' & He' & Ha').
        congruence.
      + lia.
    - exfalso. apply Hstop, Hretry. lia. }
  exists res. split; [by rewrite Hrun|done].
Qed.

(** The first attempt that resolves decides the call: after [k - 1]
    retriable failures, a response at attempt [k <= retries + 1] is returned
    as it is, after exactly [k] attempts. *)
Theorem fetchUrl_first_response (net : network) (target : string)
    (options : FetchOptions) (k : nat) (r : Response) :
  (1 <= k)%nat →
  (Z.of_nat k <= default 2%Z (retries options) + 1)%Z →
  (∀ i, (0 < i < Z.of_nat k)%Z → retriable (attempt_outcome net i)) →
  attempt_outcome net (Z.of_nat k) = Resolved r →
  fetchUrl net target options
    = Some (success_result target r (attempt_elapsed net (Z.of_nat k)), schedule k).
Proof.
  intros Hk Hmax Hbefore Hr.
  destruct (fetchUrl_stops_at net target options k Hk Hmax Hbefore) as (res & Hrun & Hend).
  { intros (e & He & _). congruence. }
  rewrite Hrun. do 2 f_equal.
  destruct Hend as [[_ (r' & Hr' & ->)]|[[_ (e & He & _)]|(_ & Hlast & _)]].
  - rewrite Z.add_0_l in Hr'. rewrite Hr in Hr'. by injection Hr' as <-.
  - rewrite Z.add_0_l in He. congruence.
  - destruct (Hlast Hk) as (e & He & _). rewrite Z.add_0_l in He. congruence.
Qed.

Lemma fetchUrl_first_response_witness :
  let net := {| attempt_outcome := fun i =>
                  if (i <? 3)%Z then Thrown {| name := "TypeError"; message := "fetch failed" |}
                  else Resolved {| status := 200; url := EmptyString; text := "ok" |};
                attempt_elapsed := fun _ => 4%Z |} in
  fetchUrl net "http://example.com/" {| timeout := None; retries := None; followRedirects := None |}
    = Some ({| statusCode := 200; body := "ok"; finalUrl := "http://example.com/";
               wasRedirected := false; responseTimeMs := 4; error := None |},
            [Attempt 1; Sleep 1000; Attempt 2; Sleep 2000; Attempt 3]).
Proof.
  intros net.
  apply (fetchUrl_first_response net "http://example.com/"
           {| timeout := None; retries := None; followRedirects := None |} 3
           {| status := 200; url := EmptyString; text := "ok" |}).
  - lia.
  - simpl. lia.
  - intros i Hi. exists {| name := "TypeError"; message := "fetch failed" |}.
    split; [|done]. simpl. destruct (Z.ltb_spec i 3); [done|lia].
  - reflexivity.
Defined.

(** A timeout is final: after [k - 1] retriable failures, an [AbortError]
    at attempt [k] ends the call with the timeout outcome, without a pause
    and without a further attempt. *)
Theorem fetchUrl_timeout_final (net : network) (target : string)
    (options : FetchOptions) (k : nat) (e : JsError) :
  (1 <= k)%nat →
  (Z.of_nat k <= default 2%Z (retries options) + 1)%Z →
  (∀ i, (0 < i < Z.of_nat k)%Z → retriable (attempt_outcome net i)) →
  attempt_outcome net (Z.of_nat k) = Thrown e →
  is_abort e = true →
  fetchUrl net target options
    = Some (timeout_result target (default 10000%Z (timeout options))
              (attempt_elapsed net (Z.of_nat k)), schedule k).
Proof.
  intros Hk Hmax Hbefore He Habort.
  destruct (fetchUrl_stops_at net target options k Hk Hmax Hbefore) as (res & Hrun & Hend).
  { intros (e' & He' & Ha'). congruence. }
  rewrite Hrun. do 2 f_equal.
  destruct Hend as [[_ (r' & Hr' & _)]|[[_ (e' & He' & _ & ->)]|(_ & Hlast & _)]].
  - rewrite Z.add_0_l in Hr'. congruence.
  - done.
  - destruct (Hlast Hk) as (e' & He' & Ha'). rewrite Z.add_0_l in He'. congruence.
Qed.

Lemma fetchUrl_timeout_final_witness :
  let net := {| attempt_outcome := fun _ =>
                  Thrown {| name := "AbortError"; message := "This operation was aborted" |};
                attempt_elapsed := fun _ => 5000%Z |} in
  fetchUrl net "http://example.com/"
    {| timeout := Some 5000%Z; retries := Some 2%Z; followRedirects := None |}
    = Some ({| statusCode := 0; body := EmptyString; finalUrl := "http://example.com/";
               wasRedirected := false; responseTimeMs := 5000;
               error := Some "Request timeout after 5000ms" |},
            [Attempt 1]).
Proof.
  intros net.
  apply (fetchUrl_timeout_final net "http://example.com/"
           {| timeout := Some 5000%Z; retries := Some 2%Z; followRedirects := None |} 1
           {| name := "AbortError"; message := "This operation was aborted" |}).
  - lia.
  - simpl. lia.
  - intros i Hi. lia.
  - reflexivity.
  - reflexivity.
Defined.

(** When every attempt fails with a retriable error, the call makes all
    [retries + 1] attempts (none for negative [retries]) and fails. *)
Theorem fetchUrl_exhausts (net : network) (target : string) (options : FetchOptions) :
  (∀ i, retriable (attempt_outcome net i)) →
  ∃ res,
    fetchUrl net target options
      = Some (res, schedule (Z.to_nat (default 2%Z (retries options) + 1))) ∧
    statusCode res = 0%Z ∧ has_error res = true.
Proof.
  intros Hall. unfold fetchUrl; cbv zeta.
  destruct (fetch_loop_spec net target (default 10000%Z (timeout options))
              (default 2%Z (retries options))
              (Z.to_nat (default 2%Z (retries options) + 1)) 0 None [] ltac:(lia))
    as (res & k & Hrun & Hk & _ & Hend).
  exists res.
  destruct Hend as [[_ (r & Hr & _)]|[[_ (e & He & Ha & _)]|(Hmax & _ & ->)]].
  - destruct (Hall (0 + Z.of_nat k)%Z) as (e & He & _). congruence.
  - destruct (Hall (0 + Z.of_nat k)%Z) as (e' & He' & Ha'). congruence.
  - rewrite Hrun. replace (Z.to_nat (default 2%Z (retries options) + 1)) with k by lia.
    split; [done|]. split; [done|].
    unfold has_error, exhausted_result; simpl. by apply truthy_or_else.
Qed.

Lemma fetchUrl_exhausts_witness :
  let net := {| attempt_outcome := fun _ =>
                  Thrown {| name := "TypeError"; message := "fetch failed" |};
                attempt_elapsed := fun _ => 1%Z |} in
  ∃ res,
    fetchUrl net "http://example.com/"
      {| timeout := None; retries := Some 2%Z; followRedirects := None |}
      = Some (res, [Attempt 1; Sleep 1000; Attempt 2; Sleep 2000; Attempt 3]) ∧
    statusCode res = 0%Z ∧ has_error res = true.
Proof.
  intros net.
  apply (fetchUrl_exhausts net "http://example.com/"
           {| timeout := None; retries := Some 2%Z; followRedirects := None |}).
  intros i. exists {| name := "TypeError"; message := "fetch failed" |}. done.
Defined.

(** For both strategies the redirect flag of an outcome says exactly
    whether its final URL differs from the requested one. *)
Theorem wasRedirected_iff_moved :
  (∀ net target options res tr,
     fetchUrl net target options = Some (res, tr) →
     wasRedirected res = negb (String.eqb (finalUrl res) target))
  ∧
  (∀ target elapsed o,
     wasRedirected (fetchUrlWithFlareSolverr target elapsed o)
       = negb (String.eqb (finalUrl (fetchUrlWithFlareSolverr target elapsed o)) target)).
Proof.
  split.
  - intros net target options res tr. unfold fetchUrl; cbv zeta. intros Hrun.
    destruct (fetch_loop_spec net target (default 10000%Z (timeout options))
                (default 2%Z (retries options))
                (Z.to_nat (default 2%Z (retries options) + 1)) 0 None [] ltac:(lia))
      as (res' & k & Hrun' & _ & _ & Hend).
    rewrite Hrun in Hrun'. injection Hrun' as -> _.
    destruct Hend as [[_ (r & _ & ->)]|[[_ (e & _ & _ & ->)]|(_ & _ & ->)]]; simpl;
      by rewrite ?String.eqb_refl.
  - intros target elapsed o. unfold fetchUrlWithFlareSolverr, flare_try.
    destruct o as [e|ok st [e|data]]; simpl; rewrite ?String.eqb_refl; try done.
    + destruct ok; simpl; by rewrite String.eqb_refl.
    + destruct ok; simpl; [|by rewrite String.eqb_refl].
      destruct (String.eqb (fs_status data) "ok"); simpl; [|by rewrite String.eqb_refl].
      destruct (fs_solution data); simpl; by rewrite ?String.eqb_refl.
Qed.

End MoreFetch.

End Http.

(* ===================================================================== *)
(** * The platform [URL] class *)
(* ===================================================================== *)

(** [URL] is provided by the runtime (WHATWG URL Standard), not by the
    sources.  The module models the records of http(s) URLs

      [http(s)://hostname[:port]/path[?query][#fragment]]

    and what the sources do with them: the [hash] and [pathname] setters,
    [searchParams.sort()] with the application/x-www-form-urlencoded parser
    and serializer behind it, and the getters [href], [pathname], [search]
    and [hostname].

    [parse] is a reference constructor for strings that already are in the
    serialized form above: it reads the serialization of a well-formed
    record back as that record ([parse_href]).  The canonicalizations of the
    platform's parser (scheme and host case, default ports, percent-encoding,
    dot segments, credentials, other schemes) are not modelled.  Where a
    property depends on what the constructor does with an arbitrary string,
    the constructor is a parameter of the definition ([new_URL],
    [resolve]). *)

Module Url.

Import JS.

Inductive protocol : Type := Http | Https.

Record URL : Type := {
  scheme : protocol;
  hostname : string;
  port : option string;
  pathname : string;          (* starts with [/] *)
  query : option string;      (* without the leading [?]; [None] is null *)
  fragment : option string    (* without the leading [#]; [None] is null *)
}.

(** Split at the first occurrence of [c]: the text before it, and the text
    after it when [c] occurs. *)
Fixpoint split_at (c : ascii) (s : string) : string * option string :=
  match s with
  | EmptyString => (EmptyString, None)
  | String a s' =>
      if Ascii.eqb a c then (EmptyString, Some s')
      else let '(l, r) := split_at c s' in (String a l, r)
  end.

(** [s.split(c)] *)
Fixpoint split_on (c : ascii) (s : string) : list string :=
  match s with
  | EmptyString => [EmptyString]
  | String a s' =>
      if Ascii.eqb a c then EmptyString :: split_on c s'
      else match split_on c s' with
           | [] => [String a EmptyString]
           | seg :: segs => String a seg :: segs
           end
  end.

Fixpoint join (sep : string) (segs : list string) : string :=
  match segs with
  | [] => EmptyString
  | [seg] => seg
  | seg :: segs' => seg +:+ sep +:+ join sep segs'
  end.

(** The rest of [s] after the prefix [p], when [s] starts with [p]. *)
Fixpoint strip_prefix (p s : string) : option string :=
  match p, s with
  | EmptyString, _ => Some s
  | String _ _, EmptyString => None
  | String a p', String b s' =>
      if Ascii.eqb a b then strip_prefix p' s' else None
  end.

Definition parse_scheme (s : string) : option (protocol * string) :=
  match strip_prefix "http://" s with
  | Some rest => Some (Http, rest)
  | None =>
      match strip_prefix "https://" s with
      | Some rest => Some (Https, rest)
      | None => None
      end
  end.

Definition scheme_text (p : protocol) : string :=
  match p with Http => "http://" | Https => "https://" end.

(** The reference constructor: [new URL(s)] for a string in serialized
    form, [None] for any other string. *)
Definition parse (s : string) : option URL :=
  let '(before, frag) := split_at "#" s in
  let '(base, q) := split_at "?" before in
  match parse_scheme base with
  | None => None
  | Some (proto, rest) =>
      let '(authority, path) := split_at "/" rest in
      let '(host, prt) := split_at ":" authority in
      if negb (truthy host) || has_char "@" authority || has_char "[" authority
      then None
      else Some {| scheme := proto;
                   hostname := host;
                   port := prt;
                   pathname := String "/" (default EmptyString path);
                   query := q;
                   fragment := frag |}
  end.

Definition with_prefix (c : string) (o : option string) : string :=
  match o with
  | Some s => c +:+ s
  | None => EmptyString
  end.

(** The [href] getter: the URL serializer. *)
Definition href (u : URL) : string :=
  scheme_text (scheme u) +:+ hostname u +:+ with_prefix ":" (port u)
    +:+ pathname u +:+ with_prefix "?" (query u) +:+ with_prefix "#" (fragment u).

(** The [search] getter: empty for a null or empty query. *)
Definition search (u : URL) : string :=
  match query u with
  | Some q => if truthy q then "?" +:+ q else EmptyString
  | None => EmptyString
  end.

(** [u.hash = '']: an empty value removes the fragment. *)
Definition clear_hash (u : URL) : URL :=
  {| scheme := scheme u; hostname := hostname u; port := port u;
     pathname := pathname u; query := query u; fragment := None |}.

(** [u.pathname = p] for a path [p] that starts with [/]. *)
Definition set_pathname (p : string) (u : URL) : URL :=
  {| scheme := scheme u; hostname := hostname u; port := port u;
     pathname := p; query := query u; fragment := fragment u |}.

Section Form.

Local Open Scope N_scope.

(** ** The query as a list of name-value pairs

    [searchParams] holds the pairs that the application/x-www-form-urlencoded
    parser (URL Standard, section 5.1) reads from the query, and [sort()]
    writes them back with the serializer of section 5.2.  Names and values
    are strings of scalar values, here lists of code points; bytes are the
    numbers below 256. *)

(** The UTF-8 encoder (Encoding Standard, section 9.1.2). *)
Definition utf8_encode_one (c : N) : list N :=
  if c <=? 0x7F then [c]
  else if c <=? 0x7FF then [0xC0 + c / 64; 0x80 + c mod 64]
  else if c <=? 0xFFFF then [0xE0 + c / 4096; 0x80 + (c / 64) mod 64; 0x80 + c mod 64]
  else [0xF0 + c / 262144; 0x80 + (c / 4096) mod 64; 0x80 + (c / 64) mod 64;
        0x80 + c mod 64].

Definition utf8_encode (l : list N) : list N := List.flat_map utf8_encode_one l.

(** The UTF-8 decoder (Encoding Standard, section 9.1.1), errors replaced
    by U+FFFD.  What a byte does when no sequence is pending: *)
Inductive utf8_lead : Type :=
  | Emit (c : N)
  | Await (cp : N) (needed : nat) (lower upper : N)
  | Invalid.

Definition utf8_start (b : N) : utf8_lead :=
  if b <=? 0x7F then Emit b
  else if (0xC2 <=? b) && (b <=? 0xDF) then Await (b mod 32) 1 0x80 0xBF
  else if (0xE0 <=? b) && (b <=? 0xEF)
  then Await (b mod 16) 2 (if b =? 0xE0 then 0xA0 else 0x80)
                          (if b =? 0xED then 0x9F else 0xBF)
  else if (0xF0 <=? b) && (b <=? 0xF4)
  then Await (b mod 8) 3 (if b =? 0xF0 then 0x90 else 0x80)
                         (if b =? 0xF4 then 0x8F else 0xBF)
  else Invalid.

(** The decoder with its state: the code point read so far, the number of
    bytes the pending sequence still needs, and the bounds of the next
    byte. *)
Fixpoint utf8_decode_from (cp : N) (needed : nat) (lower upper : N) (bs : list N)
    : list N :=
  match bs with
  | [] => match needed with O => [] | S _ => [0xFFFD] end
  | b :: bs' =>
      let start :=
        match utf8_start b with
        | Emit c => c :: utf8_decode_from 0 0 0x80 0xBF bs'
        | Await cp' n lo up => utf8_decode_from cp' n lo up bs'
        | Invalid => 0xFFFD :: utf8_decode_from 0 0 0x80 0xBF bs'
        end in
      match needed with
      | O => start
      | S n =>
          if (lower <=? b) && (b <=? upper)
          then
            let cp' := cp * 64 + b mod 64 in
            match n with
            | O => cp' :: utf8_decode_from 0 0 0x80 0xBF bs'
            | S _ => utf8_decode_from cp' n 0x80 0xBF bs'
            end
          else (* an error, and the byte is read again *)
            0xFFFD :: start
      end
  end.

Definition utf8_decode (bs : list N) : list N := utf8_decode_from 0 0 0x80 0xBF bs.

(** The value of a hexadecimal digit. *)
Definition hex_value (c : ascii) : option N :=
  let n := N_of_ascii c in
  if (48 <=? n) && (n <=? 57) then Some (n - 48)
  else if (65 <=? n) && (n <=? 70) then Some (n - 55)
  else if (97 <=? n) && (n <=? 102) then Some (n - 87)
  else None.

(** Percent-decoding of the UTF-8 encoding of [s]. *)
Fixpoint percent_decode (s : string) : list N :=
  match s with
  | EmptyString => []
  | String c s' =>
      let plain := utf8_encode_one (N_of_ascii c) ++ percent_decode s' in
      if Ascii.eqb c "%"
      then match s' with
           | String h1 (String h2 s'') =>
               match hex_value h1, hex_value h2 with
               | Some a, Some b => (16 * a + b) :: percent_decode s''
               | _, _ => plain
               end
           | _ => plain
           end
      else plain
  end.

Fixpoint plus_to_space (s : string) : string :=
  match s with
  | EmptyString => EmptyString
  | String c s' => String (if Ascii.eqb c "+" then " "%char else c) (plus_to_space s')
  end.

(** A name or a value as the parser reads it. *)
Definition form_decode (s : string) : list N :=
  utf8_decode (percent_decode (plus_to_space s)).

(** The name-value pairs of a query string: the non-empty [&]-separated
    sequences, each split at its first [=]. *)
Definition pair_of (seg : string) : list N * list N :=
  let '(n, v) := split_at "=" seg in
  (form_decode n, form_decode (default EmptyString v)).

Definition parse_query (q : string) : list (list N * list N) :=
  List.map pair_of (List.filter truthy (split_on "&" q)).

(** The bytes the serializer leaves as they are: ASCII alphanumerics, [*],
    [-], [.] and [_]. *)
Definition form_safe (b : N) : bool :=
  ((48 <=? b) && (b <=? 57)) || ((65 <=? b) && (b <=? 90))
  || ((97 <=? b) && (b <=? 122))
  || (b =? 42) || (b =? 45) || (b =? 46) || (b =? 95).

Definition hex_digit (d : N) : ascii :=
  ascii_of_N (if d <? 10 then 48 + d else 55 + d).

Definition form_encode_byte (b : N) : string :=
  if b =? 32 then "+"
  else if form_safe b then String (ascii_of_N b) EmptyString
  else String "%" (String (hex_digit (b / 16)) (String (hex_digit (b mod 16)) EmptyString)).

Fixpoint form_encode_bytes (bs : list N) : string :=
  match bs with
  | [] => EmptyString
  | b :: bs' => form_encode_byte b +:+ form_encode_bytes bs'
  end.

(** A name or a value as the serializer writes it. *)
Definition form_encode (l : list N) : string := form_encode_bytes (utf8_encode l).

Definition segment_of (nv : list N * list N) : string :=
  form_encode nv.1 +:+ "=" +:+ form_encode nv.2.

Definition serialize_query (l : list (list N * list N)) : string :=
  join "&" (List.map segment_of l).

(** The UTF-16 code units of a code point: names are compared as
    JavaScript strings. *)
Definition utf16 (c : N) : list N :=
  if c <? 0x10000 then [c]
  else [0xD800 + (c - 0x10000) / 1024; 0xDC00 + (c - 0x10000) mod 1024].

Fixpoint units_leb (a b : list N) : bool :=
  match a, b with
  | [], _ => true
  | _ :: _, [] => false
  | x :: a', y :: b' =>
      if x <? y then true else if y <? x then false else units_leb a' b'
  end.

Definition name_leb (n m : list N) : bool :=
  units_leb (List.flat_map utf16 n) (List.flat_map utf16 m).

(** Stable sort by name, names compared by code units. *)
Fixpoint insert_pair (x : list N * list N) (l : list (list N * list N))
    : list (list N * list N) :=
  match l with
  | [] => [x]
  | y :: l' =>
      if name_leb x.1 y.1 then x :: l
      else y :: insert_pair x l'
  end.

Fixpoint sort_pairs (l : list (list N * list N)) : list (list N * list N) :=
  match l with
  | [] => []
  | x :: l' => insert_pair x (sort_pairs l')
  end.

End Form.

(** [u.searchParams.sort()]: sort the pairs and write the query back; an
    empty list makes the query null. *)
Definition sort_search_params (u : URL) : URL :=
  let l := sort_pairs (parse_query (default EmptyString (query u))) in
  {| scheme := scheme u; hostname := hostname u; port := port u;
     pathname := pathname u;
     query := match l with [] => None | _ => Some (serialize_query l) end;
     fragment := fragment u |}.

(** ** Well-formed records *)

Definition no (c : ascii) (s : string) : Prop := has_char c s = false.

Definition no_opt (c : ascii) (o : option string) : Prop :=
  match o with Some s => no c s | None => True end.

(** The records the constructor produces: every component is free of the
    delimiters that end it. *)
Record wf (u : URL) : Prop := {
  wf_host : truthy (hostname u) = true;
  wf_host_colon : no ":" (hostname u);
  wf_host_slash : no "/" (hostname u);
  wf_host_quest : no "?" (hostname u);
  wf_host_hash : no "#" (hostname u);
  wf_host_at : no "@" (hostname u);
  wf_host_bracket : no "[" (hostname u);
  wf_port_slash : no_opt "/" (port u);
  wf_port_quest : no_opt "?" (port u);
  wf_port_hash : no_opt "#" (port u);
  wf_port_at : no_opt "@" (port u);
  wf_port_bracket : no_opt "[" (port u);
  wf_path_root : ∃ rest, pathname u = String "/" rest;
  wf_path_quest : no "?" (pathname u);
  wf_path_hash : no "#" (pathname u);
  wf_query_hash : no_opt "#" (query u)
}.

(** What one application of [normalizeUrl] does to the path. *)
Definition strip_slash (p : string) : string :=
  if negb (String.eqb p "/") && endsWith p "/" then drop_last p else p.


(** The steps of [normalizeUrl] on a parsed URL. *)
Definition normalized (u : URL) : URL :=
  sort_search_params (set_pathname (strip_slash (pathname u)) (clear_hash u)).

(** ** String lemmas *)

Section Strings.

Implicit Types (s l p : string) (c a : ascii).

Local Arguments String.append : simpl nomatch.

Lemma append_nil_r s : s +:+ EmptyString = s.
Proof. induction s as [|a s IH]; simpl; [done|by rewrite IH]. Qed.

Lemma append_assoc s1 s2 s3 : (s1 +:+ s2) +:+ s3 = s1 +:+ (s2 +:+ s3).
Proof. induction s1 as [|a s1 IH]; simpl; [done|by rewrite IH]. Qed.

Lemma no_nil c : no c EmptyString.
Proof. done. Qed.

Lemma no_cons c a s : no c (String a s) ↔ a ≠ c ∧ no c s.
Proof.
  unfold no; simpl. rewrite orb_false_iff. split.
  - intros [E ?]. split; [|done]. intros ->. by rewrite Ascii.eqb_refl in E.
  - intros [E ?]. split; [|done]. by apply Ascii.eqb_neq.
Qed.

Lemma no_app c l (r : string) : no c (l +:+ r) ↔ no c l ∧ no c r.
Proof.
  induction l as [|a l IH]; simpl.
  - split; [by intros; split|by intros [_ ?]].
  - rewrite !no_cons, IH. tauto.
Qed.

Lemma split_at_spec c s l (r : option string) :
  split_at c s = (l, r) → s = l +:+ with_prefix (String c EmptyString) r ∧ no c l.
Proof.
  revert l r; induction s as [|a s IH]; intros l r; simpl.
  - intros [= <- <-]. done.
  - destruct (Ascii.eqb_spec a c) as [->|Hne].
    + intros [= <- <-]. done.
    + destruct (split_at c s) as [l' r'] eqn:E. intros [= <- <-].
      destruct (IH l' r' eq_refl) as [-> ?]. split; [done|].
      by apply no_cons.
Qed.

Lemma split_at_no c s : no c s → split_at c s = (s, None).
Proof.
  induction s as [|a s IH]; simpl; [done|].
  intros [Hne Hs]%no_cons. apply Ascii.eqb_neq in Hne as ->.
  by rewrite IH.
Qed.

Lemma split_at_app c l (r : string) :
  no c l → split_at c (l +:+ r) = (l +:+ (split_at c r).1, (split_at c r).2).
Proof.
  induction l as [|a l IH]; simpl.
  - intros _. by destruct (split_at c r).
  - intros [Hne Hl]%no_cons. apply Ascii.eqb_neq in Hne as ->.
    rewrite IH by done. done.
Qed.

Lemma split_at_prefix c o :
  split_at c (with_prefix (String c EmptyString) o) = (EmptyString, o).
Proof. destruct o; simpl; [|done]. by rewrite Ascii.eqb_refl. Qed.

Lemma strip_prefix_spec p s (r : string) : strip_prefix p s = Some r → s = p +:+ r.
Proof.
  revert s; induction p as [|a p IH]; intros s; simpl.
  - by intros [= ->].
  - destruct s as [|b s]; [done|].
    destruct (Ascii.eqb_spec a b) as [->|]; [|done].
    intros ->%IH. done.
Qed.

Lemma no_drop_last c s : no c s → no c (drop_last s).
Proof.
  induction s as [|a s IH]; [done|].
  intros [Hne Hs]%no_cons. simpl. destruct s as [|b s]; [done|].
  apply no_cons. split; [done|]. by apply IH.
Qed.

Lemma no_with_prefix c d (o : option string) :
  no c (with_prefix (String d EmptyString) o) → no_opt c o.
Proof.
  destruct o as [x|]; simpl; [|done].
  by intros [_ ?]%no_cons.
Qed.

Lemma no_default c (o : option string) :
  no_opt c o → no c (default EmptyString o).
Proof. by destruct o. Qed.

Lemma no_truthy c s : has_char c s = true → truthy s = true.
Proof. by destruct s. Qed.

End Strings.

(** ** The constructor and the serializer *)

Section RoundTrip.

Local Arguments String.append : simpl nomatch.

Lemma parse_scheme_spec s proto rest :
  parse_scheme s = Some (proto, rest) → s = scheme_text proto +:+ rest.
Proof.
  unfold parse_scheme.
  destruct (strip_prefix "http://" s) as [r|] eqn:E1.
  - intros [= <- <-]. by apply strip_prefix_spec.
  - destruct (strip_prefix "https://" s) as [r|] eqn:E2; [|done].
    intros [= <- <-]. by apply strip_prefix_spec.
Qed.

Lemma parse_scheme_text proto rest :
  parse_scheme (scheme_text proto +:+ rest) = Some (proto, rest).
Proof. destruct proto; reflexivity. Qed.

Lemma no_scheme_text c proto rest :
  no c (scheme_text proto +:+ rest) → no c rest.
Proof. intros [_ ?]%no_app. done. Qed.

(** The constructor only produces well-formed records. *)
Lemma parse_wf s u : parse s = Some u → wf u.
Proof.
  unfold parse.
  destruct (split_at "#" s) as [before frag] eqn:E1.
  destruct (split_at "?" before) as [base q] eqn:E2.
  destruct (parse_scheme base) as [[proto rest]|] eqn:E3; [|done].
  destruct (split_at "/" rest) as [authority path] eqn:E4.
  destruct (split_at ":" authority) as [host prt] eqn:E5.
  destruct (truthy host) eqn:Hhost; [|done]. simpl negb. rewrite orb_false_l.
  destruct (has_char "@" authority) eqn:Hat; [done|].
  destruct (has_char "[" authority) eqn:Hbr; [done|].
  intros [= <-].
  apply split_at_spec in E1 as [-> Hb_hash].
  apply split_at_spec in E2 as [-> Hbase_q].
  apply parse_scheme_spec in E3 as ->.
  apply split_at_spec in E4 as [-> Hauth_slash].
  apply split_at_spec in E5 as [-> Hhost_colon].
  apply no_app in Hb_hash as [Hbase_hash Hq_hash%no_with_prefix].
  apply no_scheme_text in Hbase_hash, Hbase_q.
  apply no_app in Hbase_hash as [Hauth_hash Hpath_hash%no_with_prefix].
  apply no_app in Hbase_q as [Hauth_q Hpath_q%no_with_prefix].
  apply no_app in Hauth_slash as [? ?%no_with_prefix].
  apply no_app in Hauth_hash as [? ?%no_with_prefix].
  apply no_app in Hauth_q as [? ?%no_with_prefix].
  apply (no_app "@") in Hat as [? ?%no_with_prefix].
  apply (no_app "[") in Hbr as [? ?%no_with_prefix].
  split; simpl; try done.
  - by eexists.
  - apply no_cons. split; [done|]. by apply no_default.
  - apply no_cons. split; [done|]. by apply no_default.
Qed.

Lemma split_at_with_prefix c (o : option string) (l : string) :
  no c l →
  split_at c (l +:+ with_prefix (String c EmptyString) o) = (l, o).
Proof.
  intros Hl. rewrite split_at_app by done.
  rewrite split_at_prefix. simpl. by rewrite append_nil_r.
Qed.

Lemma no_opt_with_prefix c d (o : option string) :
  d ≠ c → no_opt c o → no c (with_prefix (String d EmptyString) o).
Proof.
  intros Hne Ho. destruct o as [x|]; simpl; [|done].
  apply no_cons. done.
Qed.

(** Parsing the serialization of a well-formed record gives the record
    back. *)
Lemma parse_href u : wf u → parse (href u) = Some u.
Proof.
  intros [Hhost Hh1 Hh2 Hh3 Hh4 Hh5 Hh6 Hp1 Hp2 Hp3 Hp4 Hp5 [rest Hrest] Hpq Hph Hqh].
  destruct u as [proto host prt path q frag]; simpl in *. subst path.
  unfold parse, href; cbn [scheme hostname port pathname query fragment].
  (* the fragment *)
  replace (scheme_text proto +:+ host +:+ with_prefix ":" prt +:+ String "/" rest
             +:+ with_prefix "?" q +:+ with_prefix "#" frag)
    with ((scheme_text proto +:+ host +:+ with_prefix ":" prt +:+ String "/" rest
             +:+ with_prefix "?" q) +:+ with_prefix "#" frag)
    by (by rewrite !append_assoc).
  rewrite split_at_with_prefix.
  2:{ rewrite !no_app. split_and!; try done.
      - by destruct proto.
      - by apply no_opt_with_prefix.
      - by apply no_opt_with_prefix. }
  (* the query *)
  replace (scheme_text proto +:+ host +:+ with_prefix ":" prt +:+ String "/" rest
             +:+ with_prefix "?" q)
    with ((scheme_text proto +:+ host +:+ with_prefix ":" prt +:+ String "/" rest)
             +:+ with_prefix "?" q)
    by (by rewrite !append_assoc).
  rewrite split_at_with_prefix.
  2:{ rewrite !no_app. split_and!; try done.
      - by destruct proto.
      - by apply no_opt_with_prefix. }
  rewrite parse_scheme_text.
  (* the authority *)
  replace (host +:+ with_prefix ":" prt +:+ String "/" rest)
    with ((host +:+ with_prefix ":" prt) +:+ with_prefix "/" (Some rest))
    by (by rewrite !append_assoc).
  rewrite split_at_with_prefix.
  2:{ rewrite no_app. split; [done|]. by apply no_opt_with_prefix. }
  rewrite split_at_with_prefix by done.
  rewrite Hhost. simpl negb. rewrite orb_false_l.
  assert (has_char "@" (host +:+ with_prefix ":" prt) = false) as ->.
  { apply no_app. split; [done|]. by apply no_opt_with_prefix. }
  assert (has_char "[" (host +:+ with_prefix ":" prt) = false) as ->.
  { apply no_app. split; [done|]. by apply no_opt_with_prefix. }
  done.
Qed.


End RoundTrip.

(** ** Query strings *)

(** Scalar values: the code points that are not surrogates. *)
Definition scalar (c : N) : Prop :=
  (c < 0xD800 ∨ (0xE000 ≤ c ∧ c < 0x110000))%N.

Definition param_scalar (nv : list N * list N) : Prop :=
  Forall scalar nv.1 ∧ Forall scalar nv.2.

(** Adjacent names are in order. *)
Fixpoint sorted_pairs (l : list (list N * list N)) : Prop :=
  match l with
  | [] => True
  | x :: l' =>
      match l' with
      | [] => True
      | y :: _ => name_leb x.1 y.1 = true
      end ∧ sorted_pairs l'
  end.

(** What the decoder still accepts when [needed] bytes of a sequence are
    missing: every completion is a scalar value. *)
Fixpoint completes (needed : nat) (cp lower upper : N) : Prop :=
  match needed with
  | O => True
  | S n =>
      ∀ b, (lower ≤ b ∧ b ≤ upper)%N →
        match n with
        | O => scalar (cp * 64 + b mod 64)
        | S _ => completes n (cp * 64 + b mod 64) 0x80 0xBF
        end
  end.

Section Utf8.

Local Open Scope N_scope.

Local Ltac Zify.zify_post_hook ::= Z.to_euclidean_division_equations.

Local Ltac cases :=
  repeat match goal with
         | |- context [N.leb ?a ?b] => destruct (N.leb_spec a b); cbn [andb orb]
         | |- context [N.ltb ?a ?b] => destruct (N.ltb_spec a b); cbn [andb orb]
         | |- context [N.eqb ?a ?b] => destruct (N.eqb_spec a b); cbn [andb orb]
         | H : context [N.leb ?a ?b] |- _ => destruct (N.leb_spec a b); cbn [andb orb] in H
         | H : context [N.eqb ?a ?b] |- _ => destruct (N.eqb_spec a b); cbn [andb orb] in H
         end.

Lemma utf8_start_completes b cp n lo up :
  utf8_start b = Await cp n lo up → completes n cp lo up.
Proof.
  unfold utf8_start. cases; intros [= <- <- <- <-]; cbn [completes]; unfold scalar;
    intros; lia.
Qed.

(** The decoder only produces scalar values. *)
Lemma utf8_decode_from_scalar bs : ∀ cp needed lower upper,
  completes needed cp lower upper →
  Forall scalar (utf8_decode_from cp needed lower upper bs).
Proof.
  assert (Hrep : scalar 0xFFFD) by (unfold scalar; lia).
  induction bs as [|b bs IH]; intros cp needed lower upper Hst.
  - destruct needed; cbn [utf8_decode_from]; by repeat constructor.
  - cbn [utf8_decode_from].
    assert (Hstart : Forall scalar
              match utf8_start b with
              | Emit c => c :: utf8_decode_from 0 0 0x80 0xBF bs
              | Await cp' n lo up => utf8_decode_from cp' n lo up bs
              | Invalid => 0xFFFD :: utf8_decode_from 0 0 0x80 0xBF bs
              end).
    { destruct (utf8_start b) as [c|cp' n lo up|] eqn:E.
      - constructor; [|by apply IH].
        revert E. unfold utf8_start. cases; intros [= <-]; unfold scalar; lia.
      - apply IH. by apply utf8_start_completes in E.
      - constructor; [done|by apply IH]. }
    destruct needed as [|n]; [done|].
    destruct ((lower <=? b) && (b <=? upper)) eqn:Hin.
    + apply andb_true_iff in Hin as [H1%N.leb_le H2%N.leb_le].
      specialize (Hst b (conj H1 H2)).
      destruct n as [|n]; [constructor; [done|by apply IH]|].
      by apply IH.
    + by constructor.
Qed.

Lemma utf8_decode_scalar bs : Forall scalar (utf8_decode bs).
Proof. by apply utf8_decode_from_scalar. Qed.

Lemma utf8_start_ascii b : b ≤ 0x7F → utf8_start b = Emit b.
Proof. unfold utf8_start. intros ?%N.leb_le. by rewrite H. Qed.

Lemma utf8_start_two b :
  0xC2 ≤ b ≤ 0xDF → utf8_start b = Await (b mod 32) 1 0x80 0xBF.
Proof.
  unfold utf8_start. intros [H1 H2].
  destruct (N.leb_spec b 0x7F); [lia|].
  apply N.leb_le in H1, H2. by rewrite H1, H2.
Qed.

Lemma utf8_start_three b :
  0xE0 ≤ b ≤ 0xEF →
  utf8_start b = Await (b mod 16) 2 (if b =? 0xE0 then 0xA0 else 0x80)
                                    (if b =? 0xED then 0x9F else 0xBF).
Proof.
  unfold utf8_start. intros [H1 H2].
  destruct (N.leb_spec b 0x7F); [lia|].
  destruct (N.leb_spec b 0xDF); [lia|]. rewrite andb_false_r.
  apply N.leb_le in H1, H2. by rewrite H1, H2.
Qed.

Lemma utf8_start_four b :
  0xF0 ≤ b ≤ 0xF4 →
  utf8_start b = Await (b mod 8) 3 (if b =? 0xF0 then 0x90 else 0x80)
                                   (if b =? 0xF4 then 0x8F else 0xBF).
Proof.
  unfold utf8_start. intros [H1 H2].
  destruct (N.leb_spec b 0x7F); [lia|].
  destruct (N.leb_spec b 0xDF); [lia|]. rewrite andb_false_r.
  destruct (N.leb_spec b 0xEF); [lia|]. rewrite andb_false_r.
  apply N.leb_le in H1, H2. by rewrite H1, H2.
Qed.

Lemma in_range lo b up : lo ≤ b ≤ up → (lo <=? b) && (b <=? up) = true.
Proof. intros [?%N.leb_le ?%N.leb_le]. by apply andb_true_iff. Qed.

(** Decoding the encoding of a scalar value gives it back. *)
Lemma utf8_decode_encode_one c bs :
  scalar c →
  utf8_decode (utf8_encode_one c ++ bs) = c :: utf8_decode bs.
Proof.
  unfold scalar, utf8_decode, utf8_encode_one. intros Hc.
  destruct (N.leb_spec c 0x7F); [|destruct (N.leb_spec c 0x7FF); [|destruct (N.leb_spec c 0xFFFF)]];
    cbn [app utf8_decode_from].
  - by rewrite utf8_start_ascii.
  - rewrite utf8_start_two by lia.
    rewrite in_range by lia. f_equal. lia.
  - rewrite utf8_start_three by lia.
    assert (Hsecond : (if 0xE0 + c / 4096 =? 0xE0 then 0xA0 else 0x80) ≤ 0x80 + (c / 64) mod 64
                      ∧ 0x80 + (c / 64) mod 64 ≤ (if 0xE0 + c / 4096 =? 0xED then 0x9F else 0xBF)).
    { destruct (N.eqb_spec (0xE0 + c / 4096) 0xE0), (N.eqb_spec (0xE0 + c / 4096) 0xED); lia. }
    rewrite in_range by done. cbn [utf8_decode_from].
    rewrite in_range by lia. f_equal. lia.
  - rewrite utf8_start_four by lia.
    assert (Hsecond : (if 0xF0 + c / 262144 =? 0xF0 then 0x90 else 0x80)
                        ≤ 0x80 + (c / 4096) mod 64
                      ∧ 0x80 + (c / 4096) mod 64
                        ≤ (if 0xF0 + c / 262144 =? 0xF4 then 0x8F else 0xBF)).
    { destruct (N.eqb_spec (0xF0 + c / 262144) 0xF0), (N.eqb_spec (0xF0 + c / 262144) 0xF4); lia. }
    rewrite in_range by done. cbn [utf8_decode_from].
    rewrite in_range by lia. cbn [utf8_decode_from].
    rewrite in_range by lia. f_equal. lia.
Qed.

Lemma utf8_decode_encode l : Forall scalar l → utf8_decode (utf8_encode l) = l.
Proof.
  induction 1 as [|c l Hc Hl IH]; [done|].
  cbn [utf8_encode List.flat_map]. rewrite utf8_decode_encode_one by done.
  f_equal. exact IH.
Qed.

(** The encoder produces bytes. *)
Lemma utf8_encode_bytes l :
  Forall scalar l → Forall (λ b, b < 256) (utf8_encode l).
Proof.
  induction 1 as [|c l Hc Hl IH]; [constructor|].
  cbn [utf8_encode List.flat_map]. apply Forall_app. split; [|done].
  unfold scalar in Hc. unfold utf8_encode_one.
  destruct (N.leb_spec c 0x7F); [|destruct (N.leb_spec c 0x7FF); [|destruct (N.leb_spec c 0xFFFF)]];
    repeat constructor; lia.
Qed.

End Utf8.

Section Query.

Local Arguments String.append : simpl nomatch.

Implicit Types (c d : ascii) (s q : string) (l : list (list N * list N)).

Lemma split_on_nonempty c s : split_on c s ≠ [].
Proof.
  destruct s as [|a s]; simpl; [done|].
  destruct (Ascii.eqb a c); [done|]. by destruct (split_on c s).
Qed.

Lemma split_on_no c s : no c s → split_on c s = [s].
Proof.
  induction s as [|a s IH]; simpl; [done|].
  intros [Hne Hs]%no_cons. apply Ascii.eqb_neq in Hne as ->.
  by rewrite IH.
Qed.

Lemma split_on_app c (l r : string) :
  no c l → split_on c (l +:+ String c r) = l :: split_on c r.
Proof.
  induction l as [|a l IH]; simpl.
  - intros _. by rewrite Ascii.eqb_refl.
  - intros [Hne Hl]%no_cons. apply Ascii.eqb_neq in Hne as ->.
    by rewrite IH.
Qed.

Lemma split_on_join c (segs : list string) :
  segs ≠ [] → Forall (no c) segs →
  split_on c (join (String c EmptyString) segs) = segs.
Proof.
  induction segs as [|seg segs IH]; [done|]. intros _ Hall.
  inversion Hall as [|? ? Hseg Hsegs]; subst.
  destruct segs as [|seg' segs].
  - simpl. by apply split_on_no.
  - change (join (String c EmptyString) (seg :: seg' :: segs))
      with (seg +:+ String c (join (String c EmptyString) (seg' :: segs))).
    rewrite split_on_app by done. f_equal. by apply IH.
Qed.

(** *** Percent-encoding *)

(** One byte, written by the serializer and read by the parser. *)
Lemma percent_decode_byte (a : ascii) s :
  percent_decode (plus_to_space (form_encode_byte (N_of_ascii a) +:+ s))
    = N_of_ascii a :: percent_decode (plus_to_space s).
Proof. destruct a as [[] [] [] [] [] [] [] []]; reflexivity. Qed.

Lemma byte_ascii (b : N) : (b < 256)%N → N_of_ascii (ascii_of_N b) = b.
Proof. apply N_ascii_embedding. Qed.

Lemma percent_decode_bytes (bs : list N) s :
  Forall (λ b, (b < 256)%N) bs →
  percent_decode (plus_to_space (form_encode_bytes bs +:+ s))
    = bs ++ percent_decode (plus_to_space s).
Proof.
  induction 1 as [|b bs Hb Hbs IH]; [done|].
  cbn [form_encode_bytes]. rewrite append_assoc.
  rewrite <- (byte_ascii b Hb) at 1. rewrite percent_decode_byte.
  rewrite byte_ascii by done. by rewrite IH.
Qed.

(** What the parser reads from an encoded name or value is the name or
    value. *)
Lemma form_decode_encode (n : list N) :
  Forall scalar n →
  form_decode (form_encode n) = n.
Proof.
  intros Hn. unfold form_decode, form_encode.
  rewrite <- (append_nil_r (form_encode_bytes (utf8_encode n))).
  rewrite percent_decode_bytes by by apply utf8_encode_bytes.
  cbn [plus_to_space percent_decode]. rewrite app_nil_r.
  by apply utf8_decode_encode.
Qed.

(** The serializer writes no delimiter of the query. *)
Lemma form_encode_byte_no (a : ascii) :
  no "=" (form_encode_byte (N_of_ascii a)) ∧ no "&" (form_encode_byte (N_of_ascii a))
  ∧ no "#" (form_encode_byte (N_of_ascii a)).
Proof. destruct a as [[] [] [] [] [] [] [] []]; repeat split; reflexivity. Qed.

Definition delimiter (c : ascii) : Prop := c = "="%char ∨ c = "&"%char ∨ c = "#"%char.

Lemma form_encode_no c (n : list N) :
  delimiter c → Forall scalar n → no c (form_encode n).
Proof.
  intros Hc Hn. unfold form_encode.
  induction (utf8_encode_bytes n Hn) as [|b bs Hb _ IH]; [done|].
  cbn [form_encode_bytes]. apply no_app. split; [|done].
  rewrite <- (byte_ascii b Hb).
  destruct (form_encode_byte_no (ascii_of_N b)) as (? & ? & ?).
  by destruct Hc as [->|[->| ->]].
Qed.

(** *** Parser and serializer *)

Lemma pair_of_segment nv : param_scalar nv → pair_of (segment_of nv) = nv.
Proof.
  destruct nv as [n v]. intros [Hn Hv]. unfold pair_of, segment_of; cbn [fst snd] in *.
  replace (form_encode n +:+ "=" +:+ form_encode v)
    with (form_encode n +:+ with_prefix "=" (Some (form_encode v))) by done.
  rewrite split_at_with_prefix by (apply form_encode_no; [by left|done]).
  cbn [default id]. rewrite !form_decode_encode by done. done.
Qed.

Lemma truthy_segment nv : truthy (segment_of nv) = true.
Proof. unfold segment_of. by destruct (form_encode nv.1). Qed.

Lemma no_segment c nv :
  c = "&"%char ∨ c = "#"%char → param_scalar nv → no c (segment_of nv).
Proof.
  intros Hc [Hn Hv]. unfold segment_of.
  assert (delimiter c) by (destruct Hc; [right; by left|right; by right]).
  apply no_app. split; [by apply form_encode_no|].
  apply no_cons. split; [by destruct Hc as [-> | ->]|by apply form_encode_no].
Qed.

(** Parsing a serialized list of pairs gives the list back. *)
Lemma parse_serialize_query l :
  Forall param_scalar l → parse_query (serialize_query l) = l.
Proof.
  intros Hl. unfold parse_query, serialize_query.
  destruct l as [|x l]; [done|].
  rewrite split_on_join.
  - generalize (x :: l) Hl. clear. intros l Hl.
    induction Hl as [|y l Hy Hl IH]; [done|].
    cbn [List.map List.filter]. rewrite truthy_segment.
    cbn [List.map]. rewrite pair_of_segment by done.
    by rewrite IH.
  - done.
  - generalize (x :: l) Hl. clear. intros l Hl.
    induction Hl; constructor; [apply no_segment; [by left|done]|done].
Qed.

(** The parser reads strings of scalar values. *)
Lemma parse_query_scalar q : Forall param_scalar (parse_query q).
Proof.
  unfold parse_query.
  induction (List.filter truthy (split_on "&" q)) as [|seg segs IH]; [constructor|].
  cbn [List.map]. constructor; [|done].
  unfold pair_of. destruct (split_at "=" seg) as [n v].
  split; apply utf8_decode_scalar.
Qed.

Lemma serialize_query_no l :
  Forall param_scalar l → no "#" (serialize_query l).
Proof.
  intros Hl. unfold serialize_query.
  induction Hl as [|nv l Hnv Hl IH]; [done|].
  assert (Hseg : no "#" (segment_of nv)) by (apply no_segment; [by right|done]).
  destruct l as [|y l]; [done|].
  change (join "&" (List.map segment_of (nv :: y :: l)))
    with (segment_of nv +:+ String "&" (join "&" (List.map segment_of (y :: l)))).
  apply no_app. split; [done|]. apply no_cons. split; [done|done].
Qed.

(** *** Sorting *)

Lemma units_leb_total (a b : list N) : units_leb a b = true ∨ units_leb b a = true.
Proof.
  revert b; induction a as [|x a IH]; intros [|y b]; cbn [units_leb]; auto.
  destruct (N.ltb_spec x y); [by left|].
  destruct (N.ltb_spec y x); [by right|]. apply IH.
Qed.

Lemma name_leb_total (n m : list N) : name_leb n m = true ∨ name_leb m n = true.
Proof. apply units_leb_total. Qed.

Lemma insert_pair_Forall (P : list N * list N → Prop) x l :
  P x → Forall P l → Forall P (insert_pair x l).
Proof.
  intros Hx Hl. induction Hl as [|y l Hy Hl IH]; simpl.
  - by repeat constructor.
  - destruct (name_leb x.1 y.1); by repeat constructor.
Qed.

Lemma sort_pairs_Forall (P : list N * list N → Prop) l :
  Forall P l → Forall P (sort_pairs l).
Proof.
  induction 1; simpl; [done|]. by apply insert_pair_Forall.
Qed.

Lemma insert_pair_nonempty x l : insert_pair x l ≠ [].
Proof. destruct l as [|y l]; simpl; [done|]. by destruct (name_leb x.1 y.1). Qed.

Lemma sort_pairs_nil l : sort_pairs l = [] → l = [].
Proof.
  destruct l as [|x l]; [done|]. simpl. intros E.
  by apply insert_pair_nonempty in E.
Qed.

Lemma insert_pair_sorted x l : sorted_pairs l → sorted_pairs (insert_pair x l).
Proof.
  induction l as [|y l IH]; simpl; [done|].
  intros [Hy Hl]. destruct (name_leb x.1 y.1) eqn:E.
  - simpl. done.
  - specialize (IH Hl). simpl. split; [|done].
    destruct l as [|z l]; simpl.
    + destruct (name_leb_total x.1 y.1); congruence.
    + destruct (name_leb x.1 z.1); [|done].
      destruct (name_leb_total x.1 y.1); congruence.
Qed.

Lemma sort_pairs_sorted l : sorted_pairs (sort_pairs l).
Proof.
  induction l as [|x l IH]; simpl; [done|]. by apply insert_pair_sorted.
Qed.

(** Sorting leaves a sorted list as it is. *)
Lemma sort_pairs_id l : sorted_pairs l → sort_pairs l = l.
Proof.
  induction l as [|x l IH]; simpl; [done|].
  intros [Hx Hl]. rewrite IH by done.
  destruct l as [|y l]; simpl; [done|]. by rewrite Hx.
Qed.

Lemma sort_pairs_idem l : sort_pairs (sort_pairs l) = sort_pairs l.
Proof. apply sort_pairs_id, sort_pairs_sorted. Qed.

End Query.

(** ** The steps of [normalizeUrl] *)

Section Normalized.

Local Arguments String.append : simpl nomatch.

Implicit Types (s p l : string) (u : URL).








Lemma strip_slash_root rest :
  ∃ rest', strip_slash (String "/" rest) = String "/" rest'.
Proof.
  unfold strip_slash.
  destruct (negb (String.eqb (String "/" rest) "/") && endsWith (String "/" rest) "/") eqn:E;
    [|by eexists].
  destruct rest as [|a rest]; [done|].
  cbn [drop_last]. by eexists.
Qed.

Lemma strip_slash_no c s : no c s → no c (strip_slash s).
Proof.
  unfold strip_slash. intros Hs.
  destruct (negb (String.eqb s "/") && endsWith s "/"); [|done].
  by apply no_drop_last.
Qed.

Lemma sort_search_params_wf u : wf u → wf (sort_search_params u).
Proof.
  intros []. split; try done. cbn [sort_search_params query].
  destruct (sort_pairs (parse_query (default EmptyString (query u)))) as [|x l] eqn:E; [done|].
  rewrite <- E. cbn [no_opt]. apply serialize_query_no.
  apply sort_pairs_Forall, parse_query_scalar.
Qed.



Lemma normalized_wf u : wf u → wf (normalized u).
Proof.
  intros Hu. apply sort_search_params_wf.
  destruct Hu as [? ? ? ? ? ? ? ? ? ? ? ? [rest Hrest] ? ? ?].
  split; cbn [set_pathname clear_hash scheme hostname port pathname query fragment];
    try done.
  - rewrite Hrest. apply strip_slash_root.
  - by apply strip_slash_no.
  - by apply strip_slash_no.
Qed.


End Normalized.

End Url.

(* ===================================================================== *)
(** * utils/html-parser.ts *)
(* ===================================================================== *)

Module HtmlParser.

Import JS.

(** Parsed HTML data from a page ([types/index.ts]). *)
Record ParsedPage : Type := {
  title : option string;
  links : list string;
  bodyText : string;
  contentLength : nat
}.

(** Extracts the path from a URL. *)
Definition getUrlPath (url : string) : string :=
  match Url.parse url with
  | Some parsed => Url.pathname parsed +:+ Url.search parsed
  | None => url
  end.


(** Gets the domain from a URL. *)
Definition getDomain (url : string) : string :=
  match Url.parse url with
  | Some parsed => Url.hostname parsed
  | None => "unknown"
  end.

(** [host.replace(/^www\./, '')] *)
Definition strip_www (host : string) : string :=
  default host (Url.strip_prefix "www." host).

(** Checks if a URL is internal (same domain as base). *)
Definition isInternalLink (url baseUrl : string) : bool :=
  match Url.parse url, Url.parse baseUrl with
  | Some link, Some base =>
      String.eqb (strip_www (Url.hostname link)) (strip_www (Url.hostname base))
  | _, _ => false
  end.

(** [text.trim() || null] *)
Definition text_or_null (text : string) : option string :=
  let t := trim text in if truthy t then Some t else None.

(** What the cheerio library extracts from a document: the text of the
    first [title] element, and the text of [body] once [script], [style] and
    [noscript] elements are removed. *)
Record cheerio : Type := {
  title_text : string → string;
  body_text : string → string
}.

(** Extracts just the title from HTML. *)
Definition extractTitle (c : cheerio) (html : string) : option string :=
  text_or_null (title_text c html).

(** Extracts body text for soft 404 detection. *)
Definition extractBodyText (c : cheerio) (html : string) : string :=
  trim (collapse_whitespace (body_text c html)).

(** [s.replace(/\/$/, '')] *)
Definition strip_trailing_slash (s : string) : string :=
  if endsWith s "/" then drop_last s else s.

(** Joins a path with a base URL.  [resolve path base] is the platform's
    [new URL(path, base).href], [None] when it throws. *)
Definition joinUrl (resolve : string → string → option string)
    (baseUrl path : string) : string :=
  match resolve path baseUrl with
  | Some href => href
  | None =>
      strip_trailing_slash baseUrl
        +:+ (if startsWith path "/" then EmptyString else "/") +:+ path
  end.

(** Normalizes a link to an absolute URL.  [resolve href base] is the
    platform's [new URL(href, base)], [None] when it throws. *)
Definition normalizeLink (resolve : string → string → option Url.URL)
    (href baseUrl : string) : option string :=
  (* Skip non-http links *)
  if startsWith href "javascript:" || startsWith href "mailto:"
     || startsWith href "tel:" || startsWith href "data:" || startsWith href "#"
  then None
  else
    match resolve href baseUrl with
    | Some url =>
        (* Remove hash fragments *)
        let url := Url.clear_hash url in
        (* Normalize trailing slashes (remove from non-root paths) *)
        let url :=
          if negb (String.eqb (Url.pathname url) "/") && endsWith (Url.pathname url) "/"
          then Url.set_pathname (drop_last (Url.pathname url)) url
          else url in
        Some (Url.href url)
    | None => None
    end.

(** ** Properties of the URL helpers *)

Section UrlHelpers.

Local Arguments String.append : simpl nomatch.

(** Being internal is a partial equivalence on URL strings: symmetric and
    transitive, and false as soon as one side fails to parse. *)
Theorem isInternalLink_per :
  (∀ a b, isInternalLink a b = isInternalLink b a) ∧
  (∀ a b c, isInternalLink a b = true → isInternalLink b c = true →
            isInternalLink a c = true) ∧
  (∀ a b, Url.parse a = None → isInternalLink a b = false ∧ isInternalLink b a = false).
Proof.
  unfold isInternalLink. split_and!.
  - intros a b. destruct (Url.parse a), (Url.parse b); try done. apply String.eqb_sym.
  - intros a b c.
    destruct (Url.parse a), (Url.parse b), (Url.parse c); try done.
    intros ->%String.eqb_eq ->%String.eqb_eq. apply String.eqb_refl.
  - intros a b ->. split; [done|]. by destruct (Url.parse b).
Qed.

(** One leading [www.] does not matter, a second one does: when the host
    of [a] is [www.] followed by the host of [b], the two are internal to
    each other exactly when the host of [b] does not start with [www.]
    itself.  The prefix is removed once from each side. *)
Theorem isInternalLink_www (a b : string) (ua ub : Url.URL) :
  Url.parse a = Some ua → Url.parse b = Some ub →
  Url.hostname ua = "www." +:+ Url.hostname ub →
  isInternalLink a b = negb (startsWith (Url.hostname ub) "www.").
Proof.
  intros Ha Hb Hwww. unfold isInternalLink. rewrite Ha, Hb.
  unfold strip_www at 1. rewrite Hwww.
  change (Url.strip_prefix "www." ("www." +:+ Url.hostname ub)) with (Some (Url.hostname ub)).
  cbn [default id]. unfold strip_www.
  destruct (Url.hostname ub) as [|c1 [|c2 [|c3 [|c4 rest]]]] eqn:Eh;
    cbn [Url.strip_prefix startsWith default id];
    repeat match goal with
           | |- context [Ascii.eqb ?x ?y] =>
               destruct (Ascii.eqb_spec x y); subst; cbn [default id andb negb]
           end;
    try apply String.eqb_refl.
  replace (startsWith rest EmptyString) with true by (by destruct rest).
  apply String.eqb_neq. intros E. apply (f_equal String.length) in E. simpl in E. lia.
Qed.

Lemma isInternalLink_www_witness :
  isInternalLink "https://www.example.com/a?b=1" "http://example.com:8080/" = true ∧
  isInternalLink "https://www.www.example.com/" "http://www.example.com/" = false.
Proof.
  split.
  - refine (isInternalLink_www "https://www.example.com/a?b=1" "http://example.com:8080/"
              {| Url.scheme := Url.Https; Url.hostname := "www.example.com";
                 Url.port := None; Url.pathname := "/a"; Url.query := Some "b=1";
                 Url.fragment := None |}
              {| Url.scheme := Url.Http; Url.hostname := "example.com";
                 Url.port := Some "8080"; Url.pathname := "/"; Url.query := None;
                 Url.fragment := None |} _ _ _); reflexivity.
  - refine (isInternalLink_www "https://www.www.example.com/" "http://www.example.com/"
              {| Url.scheme := Url.Https; Url.hostname := "www.www.example.com";
                 Url.port := None; Url.pathname := "/"; Url.query := None;
                 Url.fragment := None |}
              {| Url.scheme := Url.Http; Url.hostname := "www.example.com";
                 Url.port := None; Url.pathname := "/"; Url.query := None;
                 Url.fragment := None |} _ _ _); reflexivity.
Defined.



(** A link kept by [normalizeLink] parses again to the resolved URL without
    its fragment and without one trailing slash of its path. *)
Theorem normalizeLink_shape (resolve : string → string → option Url.URL)
    (href baseUrl link : string) (url : Url.URL) :
  resolve href baseUrl = Some url → Url.wf url →
  normalizeLink resolve href baseUrl = Some link →
  Url.parse link
    = Some (Url.set_pathname (Url.strip_slash (Url.pathname url)) (Url.clear_hash url)).
Proof.
  intros Hres Hwf. unfold normalizeLink. rewrite Hres.
  destruct (startsWith href "javascript:" || startsWith href "mailto:"
            || startsWith href "tel:" || startsWith href "data:" || startsWith href "#");
    [done|].
  cbv zeta. intros [= <-].
  assert (Hwf' : Url.wf (Url.set_pathname (Url.strip_slash (Url.pathname url))
                           (Url.clear_hash url))).
  { destruct Hwf as [? ? ? ? ? ? ? ? ? ? ? ? [rest Hrest] ? ? ?].
    split; cbn [Url.set_pathname Url.clear_hash Url.scheme Url.hostname Url.port
                Url.pathname Url.query Url.fragment]; try done.
    - rewrite Hrest. apply Url.strip_slash_root.
    - by apply Url.strip_slash_no.
    - by apply Url.strip_slash_no. }
  rewrite <- (Url.parse_href _ Hwf'). f_equal.
  unfold Url.strip_slash.
  change (Url.pathname (Url.clear_hash url)) with (Url.pathname url).
  destruct (negb (String.eqb (Url.pathname url) "/") && endsWith (Url.pathname url) "/");
    [done|].
  by destruct url.
Qed.

Lemma normalizeLink_shape_witness :
  let resolve := fun (href base : string) =>
    Some {| Url.scheme := Url.Http; Url.hostname := "s.com"; Url.port := None;
            Url.pathname := "/docs/"; Url.query := None; Url.fragment := Some "top" |} in
  Url.parse "http://s.com/docs"
    = Some {| Url.scheme := Url.Http; Url.hostname := "s.com"; Url.port := None;
              Url.pathname := "/docs"; Url.query := None; Url.fragment := None |}.
Proof.
  intros resolve.
  refine (normalizeLink_shape resolve "docs/#top" "http://s.com/" "http://s.com/docs"
            {| Url.scheme := Url.Http; Url.hostname := "s.com"; Url.port := None;
               Url.pathname := "/docs/"; Url.query := None; Url.fragment := Some "top" |}
            _ _ _).
  - reflexivity.
  - split; simpl; try done. by eexists.
  - reflexivity.
Defined.

End UrlHelpers.

End HtmlParser.

(* ===================================================================== *)
(** * crawler.ts *)
(* ===================================================================== *)

Module Crawler.

Import JS.

(** Normalizes a URL for comparison. *)
Definition normalizeUrl (url : string) : string :=
  match Url.parse url with
  | Some parsed =>
      (* Remove hash *)
      let parsed := Url.clear_hash parsed in
      (* Remove trailing slash (except for root) *)
      let parsed :=
        if negb (String.eqb (Url.pathname parsed) "/") && endsWith (Url.pathname parsed) "/"
        then Url.set_pathname (drop_last (Url.pathname parsed)) parsed
        else parsed in
      (* Sort query parameters *)
      let parsed := Url.sort_search_params parsed in
      Url.href parsed
  | None => (* catch *) url
  end.

(** The completion of a block of code: the value it returns, or an
    exception that leaves it. *)
Inductive completion (A : Type) : Type :=
  | Returns (a : A)
  | Throws.

Arguments Returns {A} a.
Arguments Throws {A}.

(** [try { body } catch { handler }] *)
Definition try_catch {A : Type} (body handler : completion A) : completion A :=
  match body with
  | Returns a => Returns a
  | Throws => handler
  end.

(** [normalizeUrl] over any platform: [new_URL] is the constructor of the
    platform's [URL] class, [None] when it throws, and the [try] block is
    written out. *)
Definition normalizeUrl_on (new_URL : string → option Url.URL) (url : string)
    : completion string :=
  try_catch
    (match new_URL url with
     | None => Throws
     | Some parsed =>
         (* Remove hash *)
         let parsed := Url.clear_hash parsed in
         (* Remove trailing slash (except for root) *)
         let parsed :=
           if negb (String.eqb (Url.pathname parsed) "/")
              && endsWith (Url.pathname parsed) "/"
           then Url.set_pathname (drop_last (Url.pathname parsed)) parsed
           else parsed in
         (* Sort query parameters *)
         let parsed := Url.sort_search_params parsed in
         Returns (Url.href parsed)
     end)
    (* catch *) (Returns url).


(** The round trip of the platform at a record: the record is one of an
    http(s) URL, and the constructor reads the serialization of its normal
    form as that normal form (URL Standard: parsing the output of the
    serializer gives the URL back). *)
Definition reparsed (new_URL : string → option Url.URL) (parsed : Url.URL) : Prop :=
  Url.wf parsed ∧
  new_URL (Url.href (Url.normalized parsed)) = Some (Url.normalized parsed).

(** ** The crawl *)

(** A crawled URL with metadata ([types/index.ts]). *)
Record CrawledUrl : Type := {
  url : string;
  path : string;
  title : option string;
  statusCode : Z;
  depth : nat;
  discoveredFrom : option string
}.

Inductive RendererType : Type := Static | Flaresolverr.

(** Configuration options for the crawler.  [excludePatterns] holds the
    patterns as compiled by [new RegExp(p, 'i')]. *)
Record CrawlerConfig : Type := {
  sourceUrl : string;
  maxDepth : nat;
  concurrency : nat;
  timeout : Z;
  delay : Z;
  excludePatterns : list regex;
  renderer : RendererType;
  flaresolverrUrl : option string
}.

(** An entry of the BFS queue. *)
Record QueueItem : Type := {
  q_url : string;
  q_depth : nat;
  q_discoveredFrom : option string
}.

(** What lies outside the program: how the network answers the [n]-th call
    of [crawlUrl] for a URL, and what the HTML parser extracts from a body
    ([parseHtml], built on the cheerio library). *)
Record world : Type := {
  direct : nat → string → Http.network;
  rendered : nat → string → Http.flare_outcome;
  rendered_elapsed : nat → string → Z;
  parseHtml : string → string → HtmlParser.ParsedPage
}.

(** The observable steps of a crawl: [visited.add(u)] and the start of a
    fetch of [u]. *)
Inductive event : Type :=
  | Visit (u : string)
  | Fetch (u : string).

(** Checks if a URL should be excluded based on patterns. *)
Definition shouldExclude (url : string) (patterns : list regex) : bool :=
  existsb (fun pattern => test pattern url) patterns.

(** Crawls a single URL and extracts links.  [n] numbers the call; [None]
    only if the retry loop of [fetchUrl] ran out of fuel. *)
Definition crawlUrl (w : world) (n : nat) (target : string) (d : nat)
    (from : option string) (config : CrawlerConfig)
    : option (CrawledUrl * list string) :=
  (* Choose fetcher based on renderer config *)
  let fetched :=
    match renderer config, flaresolverrUrl config with
    | Flaresolverr, Some endpoint =>
        if truthy endpoint
        then Some (Http.fetchUrlWithFlareSolverr target (rendered_elapsed w n target)
                     (rendered w n target))
        else fst <$> Http.fetchUrl (direct w n target) target
                       {| Http.timeout := Some (timeout config);
                          Http.retries := Some 2%Z;
                          Http.followRedirects := None |}
    | _, _ =>
        fst <$> Http.fetchUrl (direct w n target) target
                  {| Http.timeout := Some (timeout config);
                     Http.retries := Some 2%Z;
                     Http.followRedirects := None |}
    end in
  match fetched with
  | None => None
  | Some result =>
      if Http.has_error result
      then Some ({| url := target;
                    path := HtmlParser.getUrlPath target;
                    title := None;
                    statusCode := Http.statusCode result;
                    depth := d;
                    discoveredFrom := from |}, [])
      else
        (* Parse HTML to extract title and links *)
        let parsed := parseHtml w (Http.body result) target in
        (* Filter links to only internal ones that match the source domain *)
        let sourceDomain := HtmlParser.getDomain (sourceUrl config) in
        let internalLinks :=
          List.filter
            (fun link =>
               String.eqb (HtmlParser.strip_www (HtmlParser.getDomain link))
                          (HtmlParser.strip_www sourceDomain))
            (HtmlParser.links parsed) in
        Some ({| url := Http.finalUrl result;
                 path := HtmlParser.getUrlPath (Http.finalUrl result);
                 title := HtmlParser.title parsed;
                 statusCode := Http.statusCode result;
                 depth := d;
                 discoveredFrom := from |}, internalLinks)
  end.

(** The mutable locals of [crawl], with the events so far (latest first)
    and the number of [crawlUrl] calls made. *)
Record state : Type := {
  queue : list QueueItem;
  visited : gset string;
  crawledUrls : list CrawledUrl;
  skippedDueToDepth : nat;
  skippedDueToExclude : nat;
  successfulCrawls : nat;
  failedCrawls : nat;
  trace : list event;
  calls : nat
}.

Definition initial (config : CrawlerConfig) : state :=
  {| queue := [{| q_url := normalizeUrl (sourceUrl config);
                  q_depth := 0; q_discoveredFrom := None |}];
     visited := ∅;
     crawledUrls := [];
     skippedDueToDepth := 0;
     skippedDueToExclude := 0;
     successfulCrawls := 0;
     failedCrawls := 0;
     trace := [];
     calls := 0 |}.

(** [batch.filter(item => ...)]: the callback runs on the items in order and
    updates [visited] and the skip counters as it goes. *)
Fixpoint filter_batch (config : CrawlerConfig) (batch : list QueueItem) (st : state)
    : list QueueItem * state :=
  match batch with
  | [] => ([], st)
  | item :: batch' =>
      let normalizedUrl := normalizeUrl (q_url item) in
      if decide (normalizedUrl ∈ visited st)
      then filter_batch config batch' st
      else if (maxDepth config <? q_depth item)%nat
      then filter_batch config batch'
             {| queue := queue st; visited := visited st;
                crawledUrls := crawledUrls st;
                skippedDueToDepth := S (skippedDueToDepth st);
                skippedDueToExclude := skippedDueToExclude st;
                successfulCrawls := successfulCrawls st;
                failedCrawls := failedCrawls st;
                trace := trace st; calls := calls st |}
      else if shouldExclude normalizedUrl (excludePatterns config)
      then filter_batch config batch'
             {| queue := queue st; visited := visited st;
                crawledUrls := crawledUrls st;
                skippedDueToDepth := skippedDueToDepth st;
                skippedDueToExclude := S (skippedDueToExclude st);
                successfulCrawls := successfulCrawls st;
                failedCrawls := failedCrawls st;
                trace := trace st; calls := calls st |}
      else
        let '(kept, st') :=
          filter_batch config batch'
            {| queue := queue st; visited := {[normalizedUrl]} ∪ visited st;
               crawledUrls := crawledUrls st;
               skippedDueToDepth := skippedDueToDepth st;
               skippedDueToExclude := skippedDueToExclude st;
               successfulCrawls := successfulCrawls st;
               failedCrawls := failedCrawls st;
               trace := Visit normalizedUrl :: trace st; calls := calls st |} in
        (item :: kept, st')
  end.

(** [Promise.all(toProcess.map(item => limiter(() => crawlUrl(...))))]: the
    results come back in the order of [toProcess]. *)
Fixpoint crawl_all (w : world) (config : CrawlerConfig) (n : nat)
    (items : list QueueItem) : option (list (CrawledUrl * list string)) :=
  match items with
  | [] => Some []
  | item :: items' =>
      match crawlUrl w n (q_url item) (q_depth item) (q_discoveredFrom item) config with
      | None => None
      | Some r =>
          match crawl_all w config (S n) items' with
          | None => None
          | Some rs => Some (r :: rs)
          end
      end
  end.

(** [for (const link of result.links)]: add discovered links to the queue. *)
Fixpoint enqueue_links (links : list string) (parent : CrawledUrl)
    (seen : gset string) (q : list QueueItem) : list QueueItem :=
  match links with
  | [] => q
  | link :: links' =>
      let normalizedLink := normalizeUrl link in
      if decide (normalizedLink ∈ seen)
      then enqueue_links links' parent seen q
      else enqueue_links links' parent seen
             (q ++ [{| q_url := normalizedLink;
                       q_depth := depth parent + 1;
                       q_discoveredFrom := Some (url parent) |}])
  end.

(** [for (const result of results)]: record the page and its links. *)
Fixpoint process_results (results : list (CrawledUrl * list string)) (st : state)
    : state :=
  match results with
  | [] => st
  | (crawledUrl, found) :: results' =>
      let ok := Http.isSuccessStatus (statusCode crawledUrl) in
      process_results results'
        {| queue := enqueue_links found crawledUrl (visited st) (queue st);
           visited := visited st;
           crawledUrls := crawledUrls st ++ [crawledUrl];
           skippedDueToDepth := skippedDueToDepth st;
           skippedDueToExclude := skippedDueToExclude st;
           successfulCrawls := if ok then S (successfulCrawls st) else successfulCrawls st;
           failedCrawls := if ok then failedCrawls st else S (failedCrawls st);
           trace := trace st; calls := calls st |}
  end.

(** One iteration of [while (queue.length > 0)]. *)
Definition round (w : world) (config : CrawlerConfig) (st : state) : option state :=
  (* Take a batch from the queue *)
  let batchSize := Nat.min (List.length (queue st)) (concurrency config * 2) in
  let batch := take batchSize (queue st) in
  let st := {| queue := drop batchSize (queue st); visited := visited st;
               crawledUrls := crawledUrls st;
               skippedDueToDepth := skippedDueToDepth st;
               skippedDueToExclude := skippedDueToExclude st;
               successfulCrawls := successfulCrawls st;
               failedCrawls := failedCrawls st;
               trace := trace st; calls := calls st |} in
  (* Filter out already visited URLs and apply depth limit *)
  let '(toProcess, st) := filter_batch config batch st in
  match toProcess with
  | [] => Some st
  | _ =>
      (* Process batch in parallel *)
      match crawl_all w config (calls st) toProcess with
      | None => None
      | Some results =>
          Some (process_results results
            {| queue := queue st; visited := visited st;
               crawledUrls := crawledUrls st;
               skippedDueToDepth := skippedDueToDepth st;
               skippedDueToExclude := skippedDueToExclude st;
               successfulCrawls := successfulCrawls st;
               failedCrawls := failedCrawls st;
               trace := List.rev (List.map (fun item => Fetch (q_url item)) toProcess)
                          ++ trace st;
               calls := calls st + List.length toProcess |})
      end
  end.

(** The loop: [None] when [fuel] rounds do not empty the queue. *)
Fixpoint crawl_loop (w : world) (config : CrawlerConfig) (fuel : nat) (st : state)
    : option state :=
  match queue st with
  | [] => Some st
  | _ :: _ =>
      match fuel with
      | O => None
      | S fuel' =>
          match round w config st with
          | None => None
          | Some st' => crawl_loop w config fuel' st'
          end
      end
  end.

(** Statistics from the crawl operation. *)
Record CrawlStats : Type := {
  totalUrls : nat;
  stat_successfulCrawls : nat;
  stat_failedCrawls : nat;
  stat_skippedDueToDepth : nat;
  stat_skippedDueToExclude : nat
}.

(** Output from the crawler command, with the events of the run in order. *)
Record CrawlerOutput : Type := {
  out_sourceUrl : string;
  urls : list CrawledUrl;
  stats : CrawlStats;
  out_visited : gset string;
  out_events : list event
}.

(** Crawls a website starting from the source URL. *)
Definition crawl (w : world) (fuel : nat) (config : CrawlerConfig)
    : option CrawlerOutput :=
  match crawl_loop w config fuel (initial config) with
  | None => None
  | Some st =>
      Some {| out_sourceUrl := sourceUrl config;
              urls := crawledUrls st;
              stats := {| totalUrls := List.length (crawledUrls st);
                          stat_successfulCrawls := successfulCrawls st;
                          stat_failedCrawls := failedCrawls st;
                          stat_skippedDueToDepth := skippedDueToDepth st;
                          stat_skippedDueToExclude := skippedDueToExclude st |};
              out_visited := visited st;
              out_events := List.rev (trace st) |}
  end.

(** ** Invariants of the crawl *)

(** A record or queue entry at depth [d] discovered from [from] is justified
    by [records]: it is the seed at depth 0, or some record with URL [from]
    has depth [d - 1]. *)
Definition depth_ok (records : list CrawledUrl) (d : nat) (from : option string) : Prop :=
  match from with
  | None => d = 0%nat
  | Some parent => ∃ r, r ∈ records ∧ url r = parent ∧ d = (depth r + 1)%nat
  end.

(** Every record is justified by the records before it. *)
Definition depth_chain (records : list CrawledUrl) : Prop :=
  ∀ before r after, records = before ++ r :: after →
    depth_ok before (depth r) (discoveredFrom r).

Definition visits (tr : list event) : list string :=
  omap (fun e => match e with Visit u => Some u | Fetch _ => None end) tr.

Definition fetches (tr : list event) : list string :=
  omap (fun e => match e with Fetch u => Some u | Visit _ => None end) tr.

(** Events in order, starting from the visited set [seen]: a [Visit] adds a
    URL that is not yet in the set, a [Fetch] is of a URL whose normal form
    is in it. *)
Fixpoint ordered (seen : gset string) (tr : list event) : Prop :=
  match tr with
  | [] => True
  | Visit u :: tr' => (u ∉ seen) ∧ ordered ({[u]} ∪ seen) tr'
  | Fetch u :: tr' => (normalizeUrl u ∈ seen) ∧ ordered seen tr'
  end.

(** Every fetch comes after the visit of its normalized URL. *)
Definition fetch_after_visit (tr : list event) : Prop :=
  ∀ before u after, tr = before ++ Fetch u :: after →
    normalizeUrl u ∈ visits before.

(** The invariant of the [while] loop. *)
Record inv (st : state) : Prop := {
  inv_chain : depth_chain (crawledUrls st);
  inv_queue : Forall (fun item => depth_ok (crawledUrls st) (q_depth item) (q_discoveredFrom item))
                (queue st);
  inv_ordered : ordered ∅ (List.rev (trace st));
  inv_visited : visited st = list_to_set (visits (List.rev (trace st)));
  inv_fetches : List.map normalizeUrl (fetches (List.rev (trace st)))
                = visits (List.rev (trace st))
}.

(** A three-page site for concrete runs: the root links to [/a] (twice, once
    with a trailing slash) and to another domain, [/a] links to [/b] and back
    to the root; [/b] is excluded by pattern. *)
Definition example_body (u : string) : string :=
  if String.eqb u "http://s.com/" then "root"
  else if String.eqb u "http://s.com/a" then "a"
  else "b".

Definition example_links (body : string) : list string :=
  if String.eqb body "root"
  then ["http://s.com/a"; "http://s.com/a/"; "http://other.com/x"]
  else if String.eqb body "a" then ["http://s.com/b"; "http://s.com/#top"]
  else [].

Definition example_world : world :=
  {| direct := fun _ u =>
       {| Http.attempt_outcome := fun _ =>
            Http.Resolved {| Http.status := 200; Http.url := u;
                             Http.text := example_body u |};
          Http.attempt_elapsed := fun _ => 7%Z |};
     rendered := fun _ _ =>
       Http.FlareThrown {| Http.name := "Error"; Http.message := "down" |};
     rendered_elapsed := fun _ _ => 0%Z;
     parseHtml := fun body _ =>
       {| HtmlParser.title := Some body;
          HtmlParser.links := example_links body;
          HtmlParser.bodyText := body;
          HtmlParser.contentLength := JS.length body |} |}.

Definition example_config : CrawlerConfig :=
  {| sourceUrl := "http://s.com/"; maxDepth := 5; concurrency := 2;
     timeout := 1000; delay := 0; excludePatterns := [lit "/b"];
     renderer := Static; flaresolverrUrl := None |}.

(** What the loop keeps besides [inv]: records respect the depth limit, no
    fetched URL matches an exclusion pattern, and the counters count the
    records. *)
Record inv_limits (config : CrawlerConfig) (st : state) : Prop := {
  lim_depth : Forall (fun r => (depth r <= maxDepth config)%nat) (crawledUrls st);
  lim_exclude : Forall (fun u => shouldExclude (normalizeUrl u) (excludePatterns config) = false)
                  (fetches (List.rev (trace st)));
  lim_counters : (successfulCrawls st + failedCrawls st = List.length (crawledUrls st))%nat;
  lim_fetches : List.length (crawledUrls st) = List.length (fetches (List.rev (trace st)))
}.

(** ** Properties of [normalizeUrl] *)

Section NormalizeUrl.

(** On a parseable URL the function serializes the normalized record. *)
Lemma normalizeUrl_parsed url parsed :
  Url.parse url = Some parsed →
  normalizeUrl url = Url.href (Url.normalized parsed).
Proof.
  intros E. unfold normalizeUrl. rewrite E. cbv zeta.
  unfold Url.normalized, Url.strip_slash.
  change (Url.pathname (Url.clear_hash parsed)) with (Url.pathname parsed).
  destruct (negb (String.eqb (Url.pathname parsed) "/") && endsWith (Url.pathname parsed) "/");
    [done|].
  by destruct parsed.
Qed.

Lemma normalizeUrl_reparse url parsed :
  Url.parse url = Some parsed →
  Url.parse (normalizeUrl url) = Some (Url.normalized parsed).
Proof.
  intros E. rewrite (normalizeUrl_parsed _ _ E).
  apply Url.parse_href, Url.normalized_wf, (Url.parse_wf _ _ E).
Qed.

(** The same over any platform. *)
Lemma normalizeUrl_on_parsed new_URL url parsed :
  new_URL url = Some parsed →
  normalizeUrl_on new_URL url = Returns (Url.href (Url.normalized parsed)).
Proof.
  intros E. unfold normalizeUrl_on. rewrite E. cbv zeta. cbn [try_catch].
  unfold Url.normalized, Url.strip_slash.
  change (Url.pathname (Url.clear_hash parsed)) with (Url.pathname parsed).
  destruct (negb (String.eqb (Url.pathname parsed) "/") && endsWith (Url.pathname parsed) "/");
    [done|].
  by destruct parsed.
Qed.

Lemma normalizeUrl_on_thrown new_URL url :
  new_URL url = None → normalizeUrl_on new_URL url = Returns url.
Proof. intros E. unfold normalizeUrl_on. by rewrite E. Qed.

(** The function that the crawl applies is the value of [normalizeUrl_on]
    with the reference constructor. *)
Lemma normalizeUrl_on_reference url :
  normalizeUrl_on Url.parse url = Returns (normalizeUrl url).
Proof.
  destruct (Url.parse url) as [parsed|] eqn:E.
  - by rewrite (normalizeUrl_on_parsed _ _ _ E), (normalizeUrl_parsed _ _ E).
  - rewrite (normalizeUrl_on_thrown _ _ E). unfold normalizeUrl. by rewrite E.
Qed.

(** The reference constructor satisfies the round trip at every record it
    produces. *)
Lemma parse_reparsed url parsed : Url.parse url = Some parsed → reparsed Url.parse parsed.
Proof.
  intros E. pose proof (Url.parse_wf _ _ E) as Hwf. split; [done|].
  by apply Url.parse_href, Url.normalized_wf.
Qed.




(** C10. No exception leaves [normalizeUrl]: on every string, and whatever
    the constructor of the platform does with it, the function returns a
    value; when the constructor throws, the [catch] branch returns the
    argument unchanged. *)
Theorem normalizeUrl_unparseable (new_URL : string → option Url.URL) (url : string) :
  ∃ result,
    normalizeUrl_on new_URL url = Returns result ∧
    (new_URL url = None → result = url).
Proof.
  destruct (new_URL url) as [parsed|] eqn:E.
  - exists (Url.href (Url.normalized parsed)).
    split; [by apply normalizeUrl_on_parsed|done].
  - exists url. split; [by apply normalizeUrl_on_thrown|done].
Qed.

Lemma normalizeUrl_unparseable_witness :
  Url.parse "  not a url /a/#x" = None ∧
  normalizeUrl_on Url.parse "  not a url /a/#x" = Returns "  not a url /a/#x".
Proof.
  split; [reflexivity|].
  destruct (normalizeUrl_unparseable Url.parse "  not a url /a/#x") as (result & -> & Hres).
  f_equal. apply Hres. reflexivity.
Defined.

Example normalizeUrl_example :
  normalizeUrl "https://a.com:8080/x/y/?b=2&a=1&&c#frag" = "https://a.com:8080/x/y?a=1&b=2&c=".
Proof. vm_compute. reflexivity. Qed.

End NormalizeUrl.

(** ** Properties of [crawl] *)

Section Crawl.

Variables (w : world) (config : CrawlerConfig).

Implicit Types (st : state) (tr : list event) (seen : gset string)
  (records : list CrawledUrl).

Lemma depth_ok_mono records records' d from :
  depth_ok records d from → depth_ok (records ++ records') d from.
Proof.
  destruct from as [parent|]; simpl; [|done].
  intros (r & Hr & ? & ?). exists r. split; [|done].
  apply elem_of_app. by left.
Qed.

Lemma depth_chain_snoc records r :
  depth_chain records → depth_ok records (depth r) (discoveredFrom r) →
  depth_chain (records ++ [r]).
Proof.
  intros Hchain Hr before x after E.
  destruct after as [|y after _] using rev_ind.
  - apply app_inj_tail in E as [<- <-]. done.
  - rewrite app_comm_cons, app_assoc in E.
    apply app_inj_tail in E as [-> _]. by eapply Hchain.
Qed.

Lemma visits_app tr1 tr2 : visits (tr1 ++ tr2) = visits tr1 ++ visits tr2.
Proof. apply omap_app. Qed.

Lemma fetches_app tr1 tr2 : fetches (tr1 ++ tr2) = fetches tr1 ++ fetches tr2.
Proof. apply omap_app. Qed.

Lemma visits_Visit us : visits (List.map Visit us) = us.
Proof. induction us as [|u us IH]; simpl; [done|]. by rewrite IH. Qed.

Lemma visits_Fetch us : visits (List.map Fetch us) = [].
Proof. induction us as [|u us IH]; simpl; done. Qed.

Lemma fetches_Visit us : fetches (List.map Visit us) = [].
Proof. induction us as [|u us IH]; simpl; done. Qed.

Lemma fetches_Fetch us : fetches (List.map Fetch us) = us.
Proof. induction us as [|u us IH]; simpl; [done|]. by rewrite IH. Qed.

Lemma ordered_app seen tr1 tr2 :
  ordered seen (tr1 ++ tr2) ↔
  ordered seen tr1 ∧ ordered (list_to_set (visits tr1) ∪ seen) tr2.
Proof.
  revert seen; induction tr1 as [|[u|u] tr1 IH]; intros seen; simpl.
  - rewrite (left_id_L ∅ (∪)). tauto.
  - rewrite IH.
    replace (list_to_set (visits tr1) ∪ ({[u]} ∪ seen))
      with ({[u]} ∪ list_to_set (visits tr1) ∪ seen)
      by (by rewrite (assoc_L (∪)), (comm_L (∪) _ {[u]})).
    tauto.
  - rewrite IH. tauto.
Qed.

Lemma ordered_visits seen us :
  ordered seen (List.map Visit us) ↔ NoDup us ∧ ∀ u, u ∈ us → u ∉ seen.
Proof.
  revert seen; induction us as [|u us IH]; intros seen; simpl.
  - split; [|done]. intros _. split; [constructor|]. intros u Hu. by apply elem_of_nil in Hu.
  - split.
    + intros [Hu (Hnd & Hfresh)%IH]. split.
      * apply list.NoDup_cons. split; [|done].
        intros Hin. apply Hfresh in Hin. apply Hin, elem_of_union. left.
        by apply elem_of_singleton.
      * intros v [->|Hv]%elem_of_cons; [done|]. apply Hfresh in Hv.
        intros Hs. apply Hv, elem_of_union. by right.
    + intros [[Hu Hnd]%list.NoDup_cons Hfresh]. split; [apply Hfresh; left|].
      apply IH. split; [done|].
      intros v Hv [->%elem_of_singleton|Hs]%elem_of_union; [done|].
      by apply (Hfresh v); [right|].
Qed.

Lemma ordered_fetches seen us :
  ordered seen (List.map Fetch us) ↔ ∀ u, u ∈ us → normalizeUrl u ∈ seen.
Proof.
  induction us as [|u us IH]; simpl.
  - split; [|done]. intros _ u Hu. by apply elem_of_nil in Hu.
  - rewrite IH. split.
    + intros [Hu Hus] v [->|Hv]%elem_of_cons; auto.
    + intros H. split; [apply H; left|]. intros v Hv. apply H. by right.
Qed.

(** From the recursive invariant to its two readings. *)
Lemma ordered_NoDup seen tr :
  ordered seen tr → NoDup (visits tr) ∧ ∀ u, u ∈ visits tr → u ∉ seen.
Proof.
  revert seen; induction tr as [|[u|u] tr IH]; intros seen; simpl.
  - intros _. split; [constructor|]. intros u Hu. by apply elem_of_nil in Hu.
  - intros [Hu Htr]. destruct (IH _ Htr) as [Hnd Hfresh].
    split.
    + apply list.NoDup_cons. split; [|done]. intros Hin. apply Hfresh in Hin.
      apply Hin, elem_of_union. left. by apply elem_of_singleton.
    + intros v [->|Hv]%elem_of_cons; [done|]. apply Hfresh in Hv.
      intros Hs. apply Hv, elem_of_union. by right.
  - intros [_ Htr]. by apply IH.
Qed.

Lemma ordered_fetch_after_visit seen tr before u after :
  ordered seen tr → tr = before ++ Fetch u :: after →
  normalizeUrl u ∈ seen ∨ normalizeUrl u ∈ visits before.
Proof.
  intros Htr ->. apply ordered_app in Htr as [_ [Hu _]].
  apply elem_of_union in Hu as [Hu|Hu]; [|by left].
  right. by apply elem_of_list_to_set in Hu.
Qed.

(** What the filter callback does to the state: it visits the normalized
    URLs of the items it keeps, which were not visited before and are
    pairwise different, and touches nothing else the invariant mentions. *)
Lemma filter_batch_spec batch :
  ∀ st kept st',
    filter_batch config batch st = (kept, st') →
    let vs := List.map (fun item => normalizeUrl (q_url item)) kept in
    trace st' = List.rev (List.map Visit vs) ++ trace st ∧
    visited st' = list_to_set vs ∪ visited st ∧
    NoDup vs ∧
    (∀ u, u ∈ vs → u ∉ visited st) ∧
    crawledUrls st' = crawledUrls st ∧
    queue st' = queue st ∧
    calls st' = calls st ∧
    (∀ item, item ∈ kept → item ∈ batch).
Proof.
  induction batch as [|item batch IH]; intros st kept st'; simpl.
  - intros [= <- <-]. simpl. rewrite (left_id_L ∅ (∪)).
    split_and!; try done;
      first [apply NoDup_nil_2 | intros x Hx; by apply elem_of_nil in Hx].
  - destruct (decide (normalizeUrl (q_url item) ∈ visited st)) as [Hin|Hfresh].
    { intros E. destruct (IH _ _ _ E) as (?&?&?&?&?&?&?&Hsub).
      split_and!; try done. intros i Hi. right. by apply Hsub. }
    destruct (maxDepth config <? q_depth item)%nat.
    { intros E. destruct (IH _ _ _ E) as (?&?&?&?&?&?&?&Hsub).
      split_and!; try done. intros i Hi. right. by apply Hsub. }
    destruct (shouldExclude (normalizeUrl (q_url item)) (excludePatterns config)).
    { intros E. destruct (IH _ _ _ E) as (?&?&?&?&?&?&?&Hsub).
      split_and!; try done. intros i Hi. right. by apply Hsub. }
    match goal with
    | |- context [filter_batch config batch ?st0] =>
        destruct (filter_batch config batch st0) as [kept0 st0'] eqn:E
    end.
    intros [= <- <-].
    destruct (IH _ _ _ E) as (Htr & Hvis & Hnd & Hnew & Hrec & Hq & Hcalls & Hsub).
    simpl in Htr, Hvis, Hnew, Hrec, Hq, Hcalls. simpl.
    split_and!; try done.
    + rewrite Htr, <- app_assoc. done.
    + rewrite Hvis, (assoc_L (∪)), (comm_L (∪) _ {[_]}). done.
    + apply list.NoDup_cons. split; [|done]. intros Hin.
      apply Hnew in Hin. apply Hin, elem_of_union. left. by apply elem_of_singleton.
    + intros u [->|Hu]%elem_of_cons; [done|]. apply Hnew in Hu.
      intros Hs. apply Hu, elem_of_union. by right.
    + intros i [->|Hi]%elem_of_cons; [left|right; by apply Hsub].
Qed.

(** A record carries the depth and the parent of the queue entry it was
    crawled for. *)
Lemma crawlUrl_spec n target d from r found :
  crawlUrl w n target d from config = Some (r, found) →
  depth r = d ∧ discoveredFrom r = from.
Proof.
  unfold crawlUrl. cbv zeta.
  match goal with |- context [match ?f with Some _ => _ | None => None end] =>
    destruct f as [result|] end; [|done].
  destruct (Http.has_error result); by intros [= <- <-].
Qed.

Lemma crawl_all_spec items :
  ∀ n results,
    crawl_all w config n items = Some results →
    Forall2 (fun item r => depth r.1 = q_depth item ∧
                           discoveredFrom r.1 = q_discoveredFrom item) items results.
Proof.
  induction items as [|item items IH]; intros n results; simpl.
  - intros [= <-]. constructor.
  - destruct (crawlUrl w n (q_url item) (q_depth item) (q_discoveredFrom item) config)
      as [[r found]|] eqn:E; [|done].
    destruct (crawl_all w config (S n) items) as [rs|] eqn:Ers; [|done].
    intros [= <-]. constructor; [|by eapply IH].
    by apply crawlUrl_spec in E.
Qed.

Lemma enqueue_links_spec found parent seen records :
  parent ∈ records →
  ∀ q, Forall (fun item => depth_ok records (q_depth item) (q_discoveredFrom item)) q →
       Forall (fun item => depth_ok records (q_depth item) (q_discoveredFrom item))
         (enqueue_links found parent seen q).
Proof.
  intros Hparent. induction found as [|link found IH]; intros q Hq; simpl; [done|].
  destruct (decide (normalizeUrl link ∈ seen)); [by apply IH|].
  apply IH. apply Forall_app. split; [done|].
  constructor; [|constructor]. simpl. by exists parent.
Qed.

Lemma process_results_spec results :
  ∀ st,
    depth_chain (crawledUrls st) →
    Forall (fun item => depth_ok (crawledUrls st) (q_depth item) (q_discoveredFrom item))
      (queue st) →
    Forall (fun r => depth_ok (crawledUrls st) (depth r.1) (discoveredFrom r.1)) results →
    let st' := process_results results st in
    depth_chain (crawledUrls st') ∧
    Forall (fun item => depth_ok (crawledUrls st') (q_depth item) (q_discoveredFrom item))
      (queue st') ∧
    trace st' = trace st ∧ visited st' = visited st.
Proof.
  induction results as [|[r found] results IH]; intros st Hchain Hq Hres; simpl; [done|].
  inversion Hres as [|? ? Hr Hrest]; subst. simpl in Hr.
  match goal with |- context [process_results results ?st0] =>
    destruct (IH st0) as (? & ? & Htr & Hvis)
  end; simpl.
  - by apply depth_chain_snoc.
  - apply enqueue_links_spec.
    + apply elem_of_app. right. by left.
    + eapply List.Forall_impl; [|exact Hq]. intros item. apply depth_ok_mono.
  - eapply List.Forall_impl; [|exact Hrest]. intros x. apply depth_ok_mono.
  - split_and!; done.
Qed.

Lemma inv_initial : inv (initial config).
Proof.
  split; simpl.
  - intros before r after E. by destruct before.
  - by repeat constructor.
  - done.
  - done.
  - done.
Qed.

(** The events a round adds: the visits of the kept items, then their
    fetches. *)
Lemma round_events st (us : list string) :
  ordered ∅ (List.rev (trace st)) →
  visited st = list_to_set (visits (List.rev (trace st))) →
  List.map normalizeUrl (fetches (List.rev (trace st))) = visits (List.rev (trace st)) →
  NoDup (List.map normalizeUrl us) →
  (∀ u, u ∈ List.map normalizeUrl us → u ∉ visited st) →
  let tr := List.rev (trace st) ++ List.map Visit (List.map normalizeUrl us)
              ++ List.map Fetch us in
  ordered ∅ tr ∧
  list_to_set (List.map normalizeUrl us) ∪ visited st = list_to_set (visits tr) ∧
  List.map normalizeUrl (fetches tr) = visits tr.
Proof.
  intros Hord Hvis Hfetch Hnd Hnew tr. subst tr.
  rewrite !visits_app, !fetches_app, visits_Visit, visits_Fetch, fetches_Visit,
    fetches_Fetch, app_nil_r. simpl.
  split_and!.
  - apply ordered_app. split; [done|].
    rewrite (right_id_L ∅ (∪)), <- Hvis.
    apply ordered_app. split.
    + by apply ordered_visits.
    + apply ordered_fetches. intros u Hu. rewrite visits_Visit.
      apply elem_of_union. left. apply elem_of_list_to_set.
      apply list_elem_of_fmap. by exists u.
  - rewrite list_to_set_app_L, <- Hvis. apply (comm_L (∪)).
  - rewrite List.map_app, Hfetch. done.
Qed.

(** One round of the loop keeps the invariant. *)
Lemma round_inv st st' : inv st → round w config st = Some st' → inv st'.
Proof.
  intros [Hchain Hq Hord Hvis Hfetch]. unfold round. cbv zeta.
  set (n := Nat.min (List.length (queue st)) (concurrency config * 2)).
  match goal with |- context [filter_batch config _ ?st0] =>
    destruct (filter_batch config (take n (queue st)) st0) as [kept st1] eqn:E
  end.
  destruct (filter_batch_spec _ _ _ _ E)
    as (Htr & Hvis1 & Hnd & Hnew & Hrec & Hq1 & Hcalls & Hsub).
  simpl in Htr, Hvis1, Hnew, Hrec, Hq1, Hcalls.
  remember (List.map q_url kept) as us eqn:Hus.
  assert (Hvs : List.map (fun item => normalizeUrl (q_url item)) kept
                = List.map normalizeUrl us).
  { subst us. by rewrite List.map_map. }
  rewrite Hvs in Htr, Hvis1, Hnd, Hnew.
  destruct (round_events st us Hord Hvis Hfetch Hnd Hnew) as (Hord' & Hvis' & Hfetch').
  assert (Hq' : Forall (fun item => depth_ok (crawledUrls st1) (q_depth item)
                                      (q_discoveredFrom item)) (queue st1)).
  { rewrite Hrec, Hq1. by apply Forall_drop. }
  assert (Hkept : Forall (fun item => depth_ok (crawledUrls st) (q_depth item)
                                        (q_discoveredFrom item)) kept).
  { apply list.Forall_forall. intros item Hitem.
    pose proof (Forall_take _ n (queue st) Hq) as Hbatch.
    rewrite list.Forall_forall in Hbatch. by apply Hbatch, Hsub. }
  destruct kept as [|item kept'] eqn:Ekept.
  - (* nothing to process: [continue] *)
    intros [= <-]. subst us. simpl in Htr, Hvis1.
    rewrite (left_id_L ∅ (∪)) in Hvis1. split.
    + rewrite Hrec. exact Hchain.
    + exact Hq'.
    + rewrite Htr. exact Hord.
    + rewrite Htr, Hvis1. exact Hvis.
    + rewrite Htr. exact Hfetch.
  - rewrite <- Ekept in *. clear Ekept.
    destruct (crawl_all w config (calls st1) kept) as [results|] eqn:Eall; [|done].
    intros [= <-].
    apply crawl_all_spec in Eall.
    match goal with |- inv (process_results results ?st0) =>
      destruct (process_results_spec results st0) as (Hc & Hqq & Htr2 & Hvis2)
    end; simpl.
    + by rewrite Hrec.
    + done.
    + rewrite Hrec. clear -Eall Hkept.
      induction Eall as [|item r items rs [Hd Hf] _ IH]; [constructor|].
      inversion Hkept; subst. constructor; [|by apply IH].
      by rewrite Hd, Hf.
    + simpl in Htr2, Hvis2.
      assert (Hev : List.rev (trace (process_results results
                {| queue := queue st1; visited := visited st1;
                   crawledUrls := crawledUrls st1;
                   skippedDueToDepth := skippedDueToDepth st1;
                   skippedDueToExclude := skippedDueToExclude st1;
                   successfulCrawls := successfulCrawls st1;
                   failedCrawls := failedCrawls st1;
                   trace := List.rev (List.map (fun item => Fetch (q_url item)) kept)
                              ++ trace st1;
                   calls := (calls st1 + List.length kept)%nat |}))
              = List.rev (trace st) ++ List.map Visit (List.map normalizeUrl us)
                  ++ List.map Fetch us).
      { rewrite Htr2, Htr. rewrite !List.rev_app_distr, !List.rev_involutive.
        subst us. rewrite !List.map_map, <- app_assoc. done. }
      split; [done|done| | |].
      * by rewrite Hev.
      * rewrite Hev, Hvis2, Hvis1. done.
      * by rewrite Hev.
Qed.

Lemma crawl_loop_inv fuel :
  ∀ st st', inv st → crawl_loop w config fuel st = Some st' → inv st'.
Proof.
  induction fuel as [|fuel IH]; intros st st' Hinv; simpl.
  - destruct (queue st); [by intros [= <-]|done].
  - destruct (queue st) eqn:Eq; [by intros [= <-]|].
    destruct (round w config st) as [st1|] eqn:E; [|done].
    apply IH. by eapply round_inv.
Qed.

(** A finished crawl leaves the queue empty. *)
Lemma crawl_loop_done fuel :
  ∀ st st', crawl_loop w config fuel st = Some st' → queue st' = [].
Proof.
  induction fuel as [|fuel IH]; intros st st'; simpl.
  - destruct (queue st) eqn:Eq; [|done]. by intros [= <-].
  - destruct (queue st) eqn:Eq; [by intros [= <-]|].
    destruct (round w config st) as [st1|]; [|done]. apply IH.
Qed.

End Crawl.

(** C5. In the output of every crawl, each record is the seed at depth 0 or
    has the depth of an earlier record, its discovering parent, plus one.
    The visited set holds exactly the URLs added by [visited.add]; no URL is
    added twice; every fetch starts after the visit of its normalized URL,
    and each visited URL is fetched exactly once. *)
Theorem crawl_invariants (w : world) (fuel : nat) (config : CrawlerConfig)
    (out : CrawlerOutput) :
  crawl w fuel config = Some out →
  depth_chain (urls out) ∧
  NoDup (visits (out_events out)) ∧
  (∀ u, u ∈ out_visited out ↔ u ∈ visits (out_events out)) ∧
  fetch_after_visit (out_events out) ∧
  List.map normalizeUrl (fetches (out_events out)) = visits (out_events out).
Proof.
  unfold crawl.
  destruct (crawl_loop w config fuel (initial config)) as [st|] eqn:E; [|done].
  intros [= <-]. simpl.
  destruct (crawl_loop_inv w config fuel _ _ (inv_initial config) E)
    as [Hchain _ Hord Hvis Hfetch].
  split_and!.
  - done.
  - by apply ordered_NoDup in Hord as [? _].
  - intros u. rewrite Hvis. apply elem_of_list_to_set.
  - intros before u after Hsplit.
    destruct (ordered_fetch_after_visit _ _ _ _ _ Hord Hsplit) as [Hin|Hin]; [|done].
    by apply elem_of_empty in Hin.
  - done.
Qed.

Lemma crawl_invariants_witness :
  ∃ out,
    crawl example_world 10 example_config = Some out ∧
    List.map depth (urls out) = [0; 1]%nat ∧
    depth_chain (urls out) ∧
    NoDup (visits (out_events out)) ∧
    (∀ u, u ∈ out_visited out ↔ u ∈ visits (out_events out)) ∧
    fetch_after_visit (out_events out) ∧
    List.map normalizeUrl (fetches (out_events out)) = visits (out_events out).
Proof.
  eexists. split; [vm_compute; reflexivity|].
  split; [reflexivity|].
  apply (crawl_invariants example_world 10 example_config).
  vm_compute. reflexivity.
Defined.

(** ** Limits and statistics of the crawl *)

Section Limits.

Variables (w : world) (config : CrawlerConfig).

Lemma filter_batch_kept batch :
  ∀ st kept st',
    filter_batch config batch st = (kept, st') →
    Forall (fun item => (q_depth item <= maxDepth config)%nat ∧
                        shouldExclude (normalizeUrl (q_url item)) (excludePatterns config)
                          = false) kept ∧
    successfulCrawls st' = successfulCrawls st ∧
    failedCrawls st' = failedCrawls st.
Proof.
  induction batch as [|item batch IH]; intros st kept st'; simpl.
  - by intros [= <- <-].
  - destruct (decide (normalizeUrl (q_url item) ∈ visited st)); [apply IH|].
    destruct (Nat.ltb_spec (maxDepth config) (q_depth item)).
    { intros E. by destruct (IH _ _ _ E) as (? & ? & ?). }
    destruct (shouldExclude (normalizeUrl (q_url item)) (excludePatterns config)) eqn:Hex.
    { intros E. by destruct (IH _ _ _ E) as (? & ? & ?). }
    match goal with
    | |- context [filter_batch config batch ?st0] =>
        destruct (filter_batch config batch st0) as [kept0 st0'] eqn:E
    end.
    intros [= <- <-]. destruct (IH _ _ _ E) as (? & ? & ?).
    split; [|done]. constructor; [|done]. split; [lia|done].
Qed.

Lemma process_results_records results :
  ∀ st,
    let st' := process_results results st in
    crawledUrls st' = crawledUrls st ++ List.map fst results ∧
    (successfulCrawls st' + failedCrawls st'
       = successfulCrawls st + failedCrawls st + List.length results)%nat ∧
    trace st' = trace st.
Proof.
  induction results as [|[r found] results IH]; intros st; simpl.
  - rewrite app_nil_r. split_and!; [done|lia|done].
  - match goal with |- context [process_results results ?st0] =>
      destruct (IH st0) as (Hrec & Hcnt & Htr)
    end.
    simpl in Hrec, Hcnt, Htr. rewrite Hrec, Htr, <- app_assoc.
    split_and!; [done| |done].
    rewrite Hcnt. destruct (Http.isSuccessStatus (statusCode r)); lia.
Qed.

Lemma crawl_all_length items :
  ∀ n results, crawl_all w config n items = Some results →
               List.length results = List.length items.
Proof.
  intros n results H. apply crawl_all_spec in H.
  induction H; simpl; [done|]. by f_equal.
Qed.

Lemma inv_limits_initial : inv_limits config (initial config).
Proof. split; simpl; done. Qed.

Lemma round_limits st st' :
  inv_limits config st → round w config st = Some st' → inv_limits config st'.
Proof.
  intros [Hdepth Hexcl Hcnt Hlen]. unfold round. cbv zeta.
  set (n := Nat.min (List.length (queue st)) (concurrency config * 2)).
  match goal with |- context [filter_batch config _ ?st0] =>
    destruct (filter_batch config (take n (queue st)) st0) as [kept st1] eqn:E
  end.
  destruct (filter_batch_spec config _ _ _ _ E)
    as (Htr & _ & _ & _ & Hrec & _ & _ & _).
  destruct (filter_batch_kept _ _ _ _ E) as (Hkept & Hs & Hf).
  simpl in Htr, Hrec, Hs, Hf.
  assert (Hfetch1 : fetches (List.rev (trace st1)) = fetches (List.rev (trace st))).
  { rewrite Htr, List.rev_app_distr, List.rev_involutive, fetches_app, fetches_Visit.
    apply app_nil_r. }
  remember kept as toProcess eqn:Ekept in |- *.
  destruct toProcess as [|item rest].
  - intros [= <-]. split.
    + by rewrite Hrec.
    + by rewrite Hfetch1.
    + by rewrite Hs, Hf, Hrec.
    + by rewrite Hrec, Hfetch1.
  - rewrite Ekept. clear Ekept item rest.
    destruct (crawl_all w config (calls st1) kept) as [results|] eqn:Eall; [|done].
    intros [= <-].
    pose proof (crawl_all_length _ _ _ Eall) as Hlenr.
    apply (crawl_all_spec w config) in Eall.
    match goal with |- inv_limits _ (process_results results ?st0) =>
      destruct (process_results_records results st0) as (Hrec2 & Hcnt2 & Htr2)
    end.
    simpl in Hrec2, Hcnt2, Htr2.
    assert (Hfetch2 : fetches (List.rev (List.rev (List.map (fun item => Fetch (q_url item)) kept)
                                          ++ trace st1))
                      = fetches (List.rev (trace st)) ++ List.map q_url kept).
    { rewrite List.rev_app_distr, List.rev_involutive, fetches_app, Hfetch1.
      rewrite <- (List.map_map q_url Fetch), fetches_Fetch. done. }
    split.
    + rewrite Hrec2, Hrec. apply Forall_app. split; [done|].
      clear -Eall Hkept.
      induction Eall as [|item r items rs [Hd _] _ IH]; [constructor|].
      inversion Hkept as [|? ? [Hle _] Hrest]; subst.
      constructor; [simpl; lia|by apply IH].
    + rewrite Htr2, Hfetch2. apply Forall_app. split; [done|].
      clear -Hkept. induction Hkept as [|item items [_ Hex] _ IH]; [constructor|].
      by constructor.
    + rewrite Hcnt2, Hrec2, Hrec, Hs, Hf, length_app, length_map. lia.
    + rewrite Hrec2, Htr2, Hfetch2, Hrec, !length_app, !length_map. lia.
Qed.

Lemma crawl_loop_limits fuel :
  ∀ st st', inv_limits config st → crawl_loop w config fuel st = Some st' →
            inv_limits config st'.
Proof.
  induction fuel as [|fuel IH]; intros st st' Hinv; simpl.
  - destruct (queue st); [by intros [= <-]|done].
  - destruct (queue st) eqn:Eq; [by intros [= <-]|].
    destruct (round w config st) as [st1|] eqn:E; [|done].
    apply IH. by eapply round_limits.
Qed.

End Limits.

(** No record lies deeper than [maxDepth], and no URL whose normal form
    matches an exclusion pattern is ever fetched. *)
Theorem crawl_respects_limits (w : world) (fuel : nat) (config : CrawlerConfig)
    (out : CrawlerOutput) :
  crawl w fuel config = Some out →
  Forall (fun r => (depth r <= maxDepth config)%nat) (urls out) ∧
  Forall (fun u => shouldExclude (normalizeUrl u) (excludePatterns config) = false)
    (fetches (out_events out)).
Proof.
  unfold crawl.
  destruct (crawl_loop w config fuel (initial config)) as [st|] eqn:E; [|done].
  intros [= <-]. simpl.
  by destruct (crawl_loop_limits w config fuel _ _ (inv_limits_initial config) E).
Qed.

Lemma crawl_respects_limits_witness :
  ∃ out,
    crawl example_world 10 example_config = Some out ∧
    fetches (out_events out) = ["http://s.com/"; "http://s.com/a"] ∧
    Forall (fun r => (depth r <= 5)%nat) (urls out) ∧
    Forall (fun u => shouldExclude (normalizeUrl u) [lit "/b"] = false)
      (fetches (out_events out)).
Proof.
  eexists. split; [vm_compute; reflexivity|]. split; [reflexivity|].
  apply (crawl_respects_limits example_world 10 example_config).
  vm_compute. reflexivity.
Defined.

(** The statistics of a crawl agree with its output: [totalUrls] is the
    number of records, of fetches and of visited URLs, and splits into the
    successful and the failed crawls. *)
Theorem crawl_stats_consistent (w : world) (fuel : nat) (config : CrawlerConfig)
    (out : CrawlerOutput) :
  crawl w fuel config = Some out →
  totalUrls (stats out) = List.length (urls out) ∧
  totalUrls (stats out)
    = (stat_successfulCrawls (stats out) + stat_failedCrawls (stats out))%nat ∧
  totalUrls (stats out) = List.length (fetches (out_events out)) ∧
  totalUrls (stats out) = size (out_visited out).
Proof.
  unfold crawl.
  destruct (crawl_loop w config fuel (initial config)) as [st|] eqn:E; [|done].
  intros [= <-]. simpl.
  destruct (crawl_loop_limits w config fuel _ _ (inv_limits_initial config) E)
    as [_ _ Hcnt Hlen].
  destruct (crawl_loop_inv w config fuel _ _ (inv_initial config) E)
    as [_ _ Hord Hvis Hfetch].
  split_and!; [done|lia|done|].
  rewrite Hvis, size_list_to_set by (by apply ordered_NoDup in Hord as [? _]).
  rewrite <- Hfetch, length_map. done.
Qed.

Lemma crawl_stats_consistent_witness :
  ∃ out,
    crawl example_world 10 example_config = Some out ∧
    totalUrls (stats out) = 2%nat ∧
    totalUrls (stats out) = List.length (urls out) ∧
    totalUrls (stats out)
      = (stat_successfulCrawls (stats out) + stat_failedCrawls (stats out))%nat ∧
    totalUrls (stats out) = List.length (fetches (out_events out)) ∧
    totalUrls (stats out) = size (out_visited out).
Proof.
  eexists. split; [vm_compute; reflexivity|]. split; [reflexivity|].
  apply (crawl_stats_consistent example_world 10 example_config).
  vm_compute. reflexivity.
Defined.

(** ** What normalization guarantees *)

Section Canonical.

Local Arguments String.append : simpl nomatch.

Variable new_URL : string → option Url.URL.



Lemma sorted_query_of_normalized parsed :
  Url.sorted_pairs
    (Url.parse_query (default EmptyString (Url.query (Url.normalized parsed)))).
Proof.
  unfold Url.normalized, Url.sort_search_params.
  cbn [Url.query Url.set_pathname Url.clear_hash].
  set (l := Url.sort_pairs (Url.parse_query (default EmptyString (Url.query parsed)))).
  assert (Hl : Url.sorted_pairs l) by apply Url.sort_pairs_sorted.
  assert (Hok : Forall Url.param_scalar l)
    by apply Url.sort_pairs_Forall, Url.parse_query_scalar.
  destruct l as [|x l]; [done|].
  change (Url.sorted_pairs (Url.parse_query (Url.serialize_query (x :: l)))).
  by rewrite Url.parse_serialize_query.
Qed.

(** The normal form of a URL that the platform parses is the serialization
    of a record with the same scheme, host and port, without fragment, with
    the original path less one trailing slash, and with a query that reads
    as a list of parameters sorted by name. *)
Theorem normalizeUrl_canonical (u : string) (parsed : Url.URL) :
  new_URL u = Some parsed →
  ∃ q,
    normalizeUrl_on new_URL u = Returns (Url.href q) ∧
    Url.scheme q = Url.scheme parsed ∧ Url.hostname q = Url.hostname parsed ∧
    Url.port q = Url.port parsed ∧
    Url.fragment q = None ∧
    Url.pathname q = Url.strip_slash (Url.pathname parsed) ∧
    Url.sorted_pairs (Url.parse_query (default EmptyString (Url.query q))) ∧
    Url.parse_query (default EmptyString (Url.query q))
      = Url.sort_pairs (Url.parse_query (default EmptyString (Url.query parsed))).
Proof.
  intros Hparse. exists (Url.normalized parsed).
  split; [by apply normalizeUrl_on_parsed|].
  split_and!; try done; [apply sorted_query_of_normalized|].
  unfold Url.normalized, Url.sort_search_params.
  cbn [Url.query Url.set_pathname Url.clear_hash].
  set (l := Url.sort_pairs (Url.parse_query (default EmptyString (Url.query parsed)))).
  assert (Hok : Forall Url.param_scalar l)
    by apply Url.sort_pairs_Forall, Url.parse_query_scalar.
  destruct l as [|x l]; [done|].
  change (Url.parse_query (Url.serialize_query (x :: l)) = x :: l).
  by apply Url.parse_serialize_query.
Qed.

End Canonical.


Lemma normalizeUrl_canonical_witness :
  ∃ q,
    normalizeUrl_on Url.parse "https://a.com:8080/x/y/?b=2&a=%7e&a=1+1#frag"
      = Returns (Url.href q) ∧
    Url.scheme q = Url.Https ∧ Url.hostname q = "a.com" ∧
    Url.port q = Some "8080" ∧
    Url.fragment q = None ∧
    Url.pathname q = "/x/y" ∧
    Url.sorted_pairs (Url.parse_query (default EmptyString (Url.query q))) ∧
    Url.parse_query (default EmptyString (Url.query q))
      = Url.sort_pairs (Url.parse_query "b=2&a=%7e&a=1+1").
Proof.
  refine (normalizeUrl_canonical Url.parse "https://a.com:8080/x/y/?b=2&a=%7e&a=1+1#frag"
            {| Url.scheme := Url.Https; Url.hostname := "a.com"; Url.port := Some "8080";
               Url.pathname := "/x/y/"; Url.query := Some "b=2&a=%7e&a=1+1";
               Url.fragment := Some "frag" |} _).
  reflexivity.
Defined.

Example normalizeUrl_reencodes :
  normalizeUrl_on Url.parse "https://a.com:8080/x/y/?b=2&a=%7e&a=1+1#frag"
    = Returns "https://a.com:8080/x/y?a=%7E&a=1+1&b=2".
Proof. vm_compute. reflexivity. Qed.

(** ** The failure policy of [crawlUrl] *)

(** With the static renderer, a page whose every fetch attempt fails -- by
    a timeout or by any other error -- is still recorded: under the
    requested URL, with status code 0, no title and no links, at the depth
    and with the parent of its queue entry. *)
Theorem crawlUrl_failure_recorded (w : world) (n : nat) (target : string) (d : nat)
    (from : option string) (config : CrawlerConfig) :
  renderer config = Static →
  (∀ i, ∃ e, Http.attempt_outcome (direct w n target) i = Http.Thrown e) →
  crawlUrl w n target d from config
    = Some ({| url := target;
               path := HtmlParser.getUrlPath target;
               title := None;
               statusCode := 0;
               depth := d;
               discoveredFrom := from |}, []).
Proof.
  intros Hstatic Hall. unfold crawlUrl. rewrite Hstatic. cbv zeta.
  unfold Http.fetchUrl; cbv zeta. simpl default.
  destruct (Http.fetch_loop_spec (direct w n target) target (timeout config) 2
              (Z.to_nat (2 + 1)) 0 None [] ltac:(lia))
    as (res & k & Hrun & _ & _ & Hend).
  rewrite Hrun. simpl.
  destruct Hend as [[_ (r & Hr & _)]|[[_ (e & He & Ha & ->)]|(_ & _ & ->)]].
  - destruct (Hall (0 + Z.of_nat k)%Z) as (e & He). congruence.
  - done.
  - assert (Http.has_error (Http.exhausted_result target
              (if (k =? 0)%nat then None
               else Http.thrown_error (Http.attempt_outcome (direct w n target)
                                         (0 + Z.of_nat k)))) = true) as ->.
    { unfold Http.has_error; simpl. by apply Http.truthy_or_else. }
    done.
Qed.

Lemma crawlUrl_failure_recorded_witness :
  let w := {| direct := fun _ _ =>
                {| Http.attempt_outcome := fun i =>
                     if (i =? 1)%Z
                     then Http.Thrown {| Http.name := "TypeError";
                                         Http.message := "fetch failed" |}
                     else Http.Thrown {| Http.name := "AbortError";
                                         Http.message := "This operation was aborted" |};
                   Http.attempt_elapsed := fun _ => 3%Z |};
              rendered := rendered example_world;
              rendered_elapsed := rendered_elapsed example_world;
              parseHtml := parseHtml example_world |} in
  crawlUrl w 0 "http://s.com/gone?x=1" 2 (Some "http://s.com/") example_config
    = Some ({| url := "http://s.com/gone?x=1"; path := "/gone?x=1"; title := None;
               statusCode := 0; depth := 2;
               discoveredFrom := Some "http://s.com/" |}, []).
Proof.
  intros w.
  refine (crawlUrl_failure_recorded w 0 "http://s.com/gone?x=1" 2 (Some "http://s.com/")
            example_config _ _).
  - reflexivity.
  - intros i. simpl. destruct (i =? 1)%Z; eexists; reflexivity.
Defined.

End Crawler.

(* ===================================================================== *)
(** * validator.ts *)
(* ===================================================================== *)

Module Validator.

Import JS.

Inductive Status : Type := Ok | Warning | Error.

Inductive IssueType : Type :=
  | not_found | soft_404 | server_error | title_mismatch | redirect
  | timeout_issue | error_issue.

(** The [details] objects the validator attaches. *)
Inductive Details : Type :=
  | NoDetails
  | RedirectDetails (finalUrl : string)
  | Soft404Details (reasons : list string)
  | TitleDetails (sourceTitle destinationTitle : string).

(** Issue found during validation. *)
Record ValidationIssue : Type := {
  type : IssueType;
  message : string;
  details : Details
}.

(** Result of validating a single URL. *)
Record ValidationResult : Type := {
  sourcePath : string;
  sourceTitle : option string;
  destinationUrl : string;
  destinationStatusCode : option Z;
  destinationTitle : option string;
  status : Status;
  issues : list ValidationIssue;
  responseTimeMs : option Z
}.

Inductive RedirectHandling : Type := RedirectsOk | RedirectsWarning.

(** Configuration options for the validator, with the [redirectHandling]
    field that the [validate] command of [index.ts] fills in. *)
Record ValidatorConfig : Type := {
  inputPath : string;
  cfg_destinationUrl : string;
  concurrency : nat;
  timeout : Z;
  outputPath : string;
  verbose : bool;
  redirectHandling : RedirectHandling
}.

(** What lies outside the program: URL resolution, the network's answer to
    the request for a URL, the wall-clock time the fetch took, and the HTML
    library. *)
Record world : Type := {
  resolve : string → string → option string;
  net : string → Http.network;
  elapsed : string → Z;
  dom : HtmlParser.cheerio
}.

(** The mutable locals [issues] and [status]. *)
Definition verdict : Type := (list ValidationIssue * Status)%type.

Definition push (i : ValidationIssue) (s : Status) (v : verdict) : verdict :=
  (v.1 ++ [i], s).

Definition is_error (s : Status) : bool :=
  match s with Error => true | _ => false end.

(** [status === 'ok' ? 'warning' : status] *)
Definition warn (s : Status) : Status :=
  match s with Ok => Warning | _ => s end.

(** The checks of [validateUrl] on a response; [None] when a [URL]
    constructor throws. *)
Definition check_response (w : world) (path : string) (srcTitle : option string)
    (destUrl : string) (time : Z) (result : Http.FetchResult)
    : option ValidationResult :=
  let v : verdict := ([], Ok) in
  (* Check for 404 *)
  let v :=
    if (Http.statusCode result =? 404)%Z
    then push {| type := not_found; message := "404 Not Found"; details := NoDetails |}
           Error v
    else v in
  (* Check for server errors *)
  let v :=
    if Http.isServerErrorStatus (Http.statusCode result)
    then push {| type := server_error;
                 message := "Server error: " +:+ show_Z (Http.statusCode result);
                 details := NoDetails |} Error v
    else v in
  (* Check for redirects *)
  let redirected : option verdict :=
    if Http.wasRedirected result
    then
      match Url.parse destUrl, Url.parse (Http.finalUrl result) with
      | Some originalUrl, Some finalUrl =>
          (* Only warn if redirected to a different path *)
          if negb (String.eqb (Url.pathname originalUrl) (Url.pathname finalUrl))
          then Some (push {| type := redirect;
                             message := "Redirected to: " +:+ Url.pathname finalUrl;
                             details := RedirectDetails (Http.finalUrl result) |}
                       (warn v.2) v)
          else Some v
      | _, _ => None
      end
    else Some v in
  match redirected with
  | None => None
  | Some v =>
      (* Extract destination title *)
      let destTitle := HtmlParser.extractTitle (dom w) (Http.body result) in
      let bodyText := HtmlParser.extractBodyText (dom w) (Http.body result) in
      (* Check for soft 404 *)
      let v :=
        if Http.isSuccessStatus (Http.statusCode result)
        then
          let soft404Check := Soft404.checkSoft404 bodyText destTitle (Http.statusCode result) in
          if Soft404.isSoft404 soft404Check
          then push {| type := soft_404;
                       message := "Soft 404 detected ("
                         +:+ show_Z (Math_round (Soft404.confidence soft404Check * 100))
                         +:+ "% confidence)";
                       details := Soft404Details (Soft404.reasons soft404Check) |} Error v
          else v
        else v in
      (* Check title mismatch (only if both have titles and not already an error) *)
      let v :=
        if negb (Soft404.absent srcTitle) && negb (Soft404.absent destTitle)
           && negb (is_error v.2)
        then
          if negb (Soft404.titlesMatch srcTitle destTitle)
          then push {| type := title_mismatch;
                       message := "Title mismatch: "
                         +:+ dquote +:+ default EmptyString srcTitle +:+ dquote
                         +:+ " vs "
                         +:+ dquote +:+ default EmptyString destTitle +:+ dquote;
                       details := TitleDetails (default EmptyString srcTitle)
                                    (default EmptyString destTitle) |} (warn v.2) v
          else v
        else v in
      Some {| sourcePath := path;
              sourceTitle := srcTitle;
              destinationUrl := destUrl;
              destinationStatusCode := Some (Http.statusCode result);
              destinationTitle := destTitle;
              status := v.2;
              issues := v.1;
              responseTimeMs := Some time |}
  end.

(** Validates a single URL on the destination.  [None] when the call throws
    (or the retry loop of [fetchUrl] ran out of fuel, which it never does). *)
Definition validateUrl (w : world) (path : string) (srcTitle : option string)
    (destinationUrl : string) (timeout_ms : Z) : option ValidationResult :=
  let destUrl := HtmlParser.joinUrl (resolve w) destinationUrl path in
  match Http.fetchUrl (net w destUrl) destUrl
          {| Http.timeout := Some timeout_ms;
             Http.retries := Some 1%Z;
             Http.followRedirects := Some true |} with
  | None => None
  | Some (result, _) =>
      let time := elapsed w destUrl in
      (* Handle fetch errors *)
      if Http.has_error result
      then Some {| sourcePath := path;
                   sourceTitle := srcTitle;
                   destinationUrl := destUrl;
                   destinationStatusCode := None;
                   destinationTitle := None;
                   status := Error;
                   issues := [{| type := error_issue;
                                 message := default EmptyString (Http.error result);
                                 details := NoDetails |}];
                   responseTimeMs := Some time |}
      else check_response w path srcTitle destUrl time result
  end.

(** The call [validate] makes for each crawled URL: of the configuration
    only [destinationUrl] and [timeout] are passed on. *)
Definition validate_one (w : world) (config : ValidatorConfig)
    (crawledUrl : Crawler.CrawledUrl) : option ValidationResult :=
  validateUrl w (Crawler.path crawledUrl) (Crawler.title crawledUrl)
    (cfg_destinationUrl config) (timeout config).

(** Two configurations that differ at most in the redirect-handling flag. *)
Definition same_but_redirects (c1 c2 : ValidatorConfig) : Prop :=
  inputPath c1 = inputPath c2 ∧ cfg_destinationUrl c1 = cfg_destinationUrl c2 ∧
  concurrency c1 = concurrency c2 ∧ timeout c1 = timeout c2 ∧
  outputPath c1 = outputPath c2 ∧ verbose c1 = verbose c2.

(** The rules that force the status [error] on a response. *)
Definition error_rules (w : world) (result : Http.FetchResult) : bool :=
  (Http.statusCode result =? 404)%Z
  || Http.isServerErrorStatus (Http.statusCode result)
  || (Http.isSuccessStatus (Http.statusCode result)
      && Soft404.isSoft404
           (Soft404.checkSoft404 (HtmlParser.extractBodyText (dom w) (Http.body result))
              (HtmlParser.extractTitle (dom w) (Http.body result))
              (Http.statusCode result))).

(** A destination for concrete runs: [/x] answers 200 after a redirect to
    [/moved]. *)
Definition example_world : world :=
  {| resolve := fun path base => Some (base +:+ path);
     net := fun _ =>
       {| Http.attempt_outcome := fun _ =>
            Http.Resolved {| Http.status := 200;
                             Http.url := "https://new.example.com/moved";
                             Http.text := "page" |};
          Http.attempt_elapsed := fun _ => 12%Z |};
     elapsed := fun _ => 15%Z;
     dom := {| HtmlParser.title_text := fun _ => "Foo - Bar";
               HtmlParser.body_text := fun _ =>
                 "A long enough body text so that the page does not look empty, "
                 +:+ "with more than one hundred characters of perfectly ordinary content in it." |} |}.

Definition example_config (flag : RedirectHandling) : ValidatorConfig :=
  {| inputPath := "crawl.json";
     cfg_destinationUrl := "https://new.example.com";
     concurrency := 5; timeout := 10000;
     outputPath := "report.json"; verbose := false;
     redirectHandling := flag |}.

Definition example_page : Crawler.CrawledUrl :=
  {| Crawler.url := "https://old.example.com/x"; Crawler.path := "/x";
     Crawler.title := Some "Foo"; Crawler.statusCode := 200;
     Crawler.depth := 1; Crawler.discoveredFrom := Some "https://old.example.com/" |}.

(** ** The report *)

(** Summary statistics for the validation report. *)
Record ValidationSummary : Type := {
  totalUrls : nat;
  okUrls : nat;
  warningUrls : nat;
  errorUrls : nat;
  soft404Count : nat;
  notFoundCount : nat;
  serverErrorCount : nat;
  titleMismatchCount : nat;
  redirectCount : nat;
  durationMs : Z
}.

(** [switch (issue.type)] inside [calculateSummary]. *)
Definition count_issue (s : ValidationSummary) (i : ValidationIssue) : ValidationSummary :=
  match type i with
  | soft_404 =>
      {| totalUrls := totalUrls s; okUrls := okUrls s; warningUrls := warningUrls s;
         errorUrls := errorUrls s; soft404Count := S (soft404Count s);
         notFoundCount := notFoundCount s; serverErrorCount := serverErrorCount s;
         titleMismatchCount := titleMismatchCount s; redirectCount := redirectCount s;
         durationMs := durationMs s |}
  | not_found =>
      {| totalUrls := totalUrls s; okUrls := okUrls s; warningUrls := warningUrls s;
         errorUrls := errorUrls s; soft404Count := soft404Count s;
         notFoundCount := S (notFoundCount s); serverErrorCount := serverErrorCount s;
         titleMismatchCount := titleMismatchCount s; redirectCount := redirectCount s;
         durationMs := durationMs s |}
  | server_error =>
      {| totalUrls := totalUrls s; okUrls := okUrls s; warningUrls := warningUrls s;
         errorUrls := errorUrls s; soft404Count := soft404Count s;
         notFoundCount := notFoundCount s; serverErrorCount := S (serverErrorCount s);
         titleMismatchCount := titleMismatchCount s; redirectCount := redirectCount s;
         durationMs := durationMs s |}
  | title_mismatch =>
      {| totalUrls := totalUrls s; okUrls := okUrls s; warningUrls := warningUrls s;
         errorUrls := errorUrls s; soft404Count := soft404Count s;
         notFoundCount := notFoundCount s; serverErrorCount := serverErrorCount s;
         titleMismatchCount := S (titleMismatchCount s); redirectCount := redirectCount s;
         durationMs := durationMs s |}
  | redirect =>
      {| totalUrls := totalUrls s; okUrls := okUrls s; warningUrls := warningUrls s;
         errorUrls := errorUrls s; soft404Count := soft404Count s;
         notFoundCount := notFoundCount s; serverErrorCount := serverErrorCount s;
         titleMismatchCount := titleMismatchCount s; redirectCount := S (redirectCount s);
         durationMs := durationMs s |}
  | timeout_issue | error_issue => s
  end.

(** [switch (result.status)] inside [calculateSummary]. *)
Definition count_status (s : ValidationSummary) (st : Status) : ValidationSummary :=
  match st with
  | Ok =>
      {| totalUrls := totalUrls s; okUrls := S (okUrls s); warningUrls := warningUrls s;
         errorUrls := errorUrls s; soft404Count := soft404Count s;
         notFoundCount := notFoundCount s; serverErrorCount := serverErrorCount s;
         titleMismatchCount := titleMismatchCount s; redirectCount := redirectCount s;
         durationMs := durationMs s |}
  | Warning =>
      {| totalUrls := totalUrls s; okUrls := okUrls s; warningUrls := S (warningUrls s);
         errorUrls := errorUrls s; soft404Count := soft404Count s;
         notFoundCount := notFoundCount s; serverErrorCount := serverErrorCount s;
         titleMismatchCount := titleMismatchCount s; redirectCount := redirectCount s;
         durationMs := durationMs s |}
  | Error =>
      {| totalUrls := totalUrls s; okUrls := okUrls s; warningUrls := warningUrls s;
         errorUrls := S (errorUrls s); soft404Count := soft404Count s;
         notFoundCount := notFoundCount s; serverErrorCount := serverErrorCount s;
         titleMismatchCount := titleMismatchCount s; redirectCount := redirectCount s;
         durationMs := durationMs s |}
  end.

(** [for (const result of results)] *)
Definition count_result (s : ValidationSummary) (r : ValidationResult) : ValidationSummary :=
  List.fold_left count_issue (issues r) (count_status s (status r)).

(** Calculates summary statistics from results. *)
Definition calculateSummary (results : list ValidationResult) (duration : Z)
    : ValidationSummary :=
  List.fold_left count_result results
    {| totalUrls := List.length results; okUrls := 0; warningUrls := 0; errorUrls := 0;
       soft404Count := 0; notFoundCount := 0; serverErrorCount := 0;
       titleMismatchCount := 0; redirectCount := 0; durationMs := duration |}.

(** [const order = { error: 0, warning: 1, ok: 2 }] *)
Definition order (s : Status) : nat :=
  match s with Error => 0 | Warning => 1 | Ok => 2 end.

(** [results.sort((a, b) => order[a.status] - order[b.status])]: the sort
    of the platform is stable, so equal statuses keep their relative order. *)
Fixpoint insert_result (x : ValidationResult) (l : list ValidationResult)
    : list ValidationResult :=
  match l with
  | [] => [x]
  | y :: l' =>
      if (order (status x) <=? order (status y))%nat then x :: l
      else y :: insert_result x l'
  end.

Fixpoint sort_results (l : list ValidationResult) : list ValidationResult :=
  match l with
  | [] => []
  | x :: l' => insert_result x (sort_results l')
  end.

Definition with_status (s : Status) (l : list ValidationResult) : list ValidationResult :=
  List.filter (fun r => (order (status r) =? order s)%nat) l.

(** The severity an issue of a given type stands for. *)
Definition severity (t : IssueType) : Status :=
  match t with
  | redirect | title_mismatch => Warning
  | _ => Error
  end.

(** The worst severity in a list of issue types; [ok] when it is empty. *)
Fixpoint worst (ts : list IssueType) : Status :=
  match ts with
  | [] => Ok
  | t :: ts' =>
      match severity t, worst ts' with
      | Error, _ | _, Error => Error
      | _, _ => Warning
      end
  end.

(** The place of an issue type in the order of the checks. *)
Definition rank (t : IssueType) : nat :=
  match t with
  | error_issue => 0
  | not_found => 1
  | server_error => 2
  | redirect => 3
  | soft_404 => 4
  | title_mismatch => 5
  | timeout_issue => 6
  end.

Fixpoint increasing (l : list nat) : bool :=
  match l with
  | [] => true
  | x :: l' =>
      match l' with
      | [] => true
      | y :: _ => (x <? y)%nat
      end && increasing l'
  end.

Definition has_type (t : IssueType) (r : ValidationResult) : bool :=
  existsb (fun i => (rank (type i) =? rank t)%nat) (issues r).

(** A destination that answers every request with a disguised error page. *)
Definition example_soft404_world : world :=
  {| resolve := fun path base => Some (base +:+ path);
     net := fun u =>
       {| Http.attempt_outcome := fun _ =>
            Http.Resolved {| Http.status := 200; Http.url := u;
                             Http.text := "sorry" |};
          Http.attempt_elapsed := fun _ => 9%Z |};
     elapsed := fun _ => 11%Z;
     dom := {| HtmlParser.title_text := fun _ => "Page not found";
               HtmlParser.body_text := fun _ => "Sorry, this page could not be found." |} |}.

(** ** Properties of [validateUrl] *)

Section ValidateUrl.

Variable w : world.

(** Status and issues agree: [ok] exactly when no issue was pushed. *)
Definition consistent (v : verdict) : Prop := v.2 = Ok ↔ v.1 = [].

Lemma consistent_start : consistent ([], Ok).
Proof. done. Qed.

Lemma consistent_push_error i v : consistent (push i Error v).
Proof.
  unfold consistent, push; simpl. split; [done|].
  intros E. by destruct (v.1).
Qed.

Lemma consistent_push_warn i v : consistent (push i (warn v.2) v).
Proof.
  unfold consistent, push; simpl. split.
  - by destruct (v.2).
  - intros E. by destruct (v.1).
Qed.

Lemma check_response_consistent path srcTitle destUrl time result r :
  check_response w path srcTitle destUrl time result = Some r →
  status r = Ok ↔ issues r = [].
Proof.
  unfold check_response. cbv zeta.
  set (v0 := ([], Ok) : verdict).
  set (v1 := if (Http.statusCode result =? 404)%Z then _ else v0).
  assert (H1 : consistent v1).
  { subst v1. destruct (Http.statusCode result =? 404)%Z;
      [apply consistent_push_error|apply consistent_start]. }
  set (v2 := if Http.isServerErrorStatus (Http.statusCode result) then _ else v1).
  assert (H2 : consistent v2).
  { subst v2. destruct (Http.isServerErrorStatus (Http.statusCode result));
      [apply consistent_push_error|done]. }
  clearbody v2. clear v0 v1 H1.
  match goal with
  | |- match ?red with Some _ => _ | None => None end = Some r → _ =>
      destruct red as [v3|] eqn:Hred; [|done]
  end.
  assert (H3 : consistent v3).
  { destruct (Http.wasRedirected result); [|by injection Hred as <-].
    destruct (Url.parse destUrl) as [o|]; [|done].
    destruct (Url.parse (Http.finalUrl result)) as [f|]; [|done].
    destruct (negb (String.eqb (Url.pathname o) (Url.pathname f)));
      injection Hred as <-; [apply consistent_push_warn|done]. }
  clear Hred.
  set (v4 := if Http.isSuccessStatus (Http.statusCode result) then _ else v3).
  assert (H4 : consistent v4).
  { subst v4. destruct (Http.isSuccessStatus (Http.statusCode result)); [|done].
    cbv zeta.
    match goal with |- context [if ?b then _ else _] => destruct b end;
      [apply consistent_push_error|done]. }
  clearbody v4.
  intros [= <-]. simpl.
  match goal with |- context [if ?c then _ else v4] => destruct c end; [|done].
  destruct (negb (Soft404.titlesMatch _ _)); [apply consistent_push_warn|done].
Qed.

End ValidateUrl.

(** C8. Every result returned by [validateUrl] has status [ok] exactly when
    its list of issues is empty. *)
Theorem validateUrl_ok_iff_no_issues (w : world) (path : string)
    (srcTitle : option string) (destinationUrl : string) (timeout_ms : Z)
    (r : ValidationResult) :
  validateUrl w path srcTitle destinationUrl timeout_ms = Some r →
  status r = Ok ↔ issues r = [].
Proof.
  unfold validateUrl. cbv zeta.
  match goal with |- context [Http.fetchUrl ?n ?t ?o] =>
    destruct (Http.fetchUrl n t o) as [[result tr]|]; [|done]
  end.
  destruct (Http.has_error result).
  - intros [= <-]. simpl. done.
  - apply check_response_consistent.
Qed.

Lemma validateUrl_ok_iff_no_issues_witness :
  ∃ r,
    validateUrl example_world "/x" (Some "Foo") "https://new.example.com" 10000 = Some r ∧
    status r = Warning ∧
    (status r = Ok ↔ issues r = []).
Proof.
  eexists. split; [vm_compute; reflexivity|]. split; [reflexivity|].
  apply (validateUrl_ok_iff_no_issues example_world "/x" (Some "Foo")
           "https://new.example.com" 10000).
  vm_compute. reflexivity.
Defined.

(** C6. Two configurations that differ only in the redirect-handling flag
    give the same result for every page.  When the fetch succeeds and the
    final URL's path differs from the requested one, the redirect issue is
    reported under either flag, and the status is [warning] unless one of the
    error rules makes it [error]: it is never [ok]. *)
Theorem redirect_flag_ignored (w : world) (c1 c2 : ValidatorConfig)
    (page : Crawler.CrawledUrl) (result : Http.FetchResult) (tr : list Http.event)
    (original final : Url.URL) :
  same_but_redirects c1 c2 →
  let destUrl :=
    HtmlParser.joinUrl (resolve w) (cfg_destinationUrl c1) (Crawler.path page) in
  Http.fetchUrl (net w destUrl) destUrl
    {| Http.timeout := Some (timeout c1);
       Http.retries := Some 1%Z;
       Http.followRedirects := Some true |} = Some (result, tr) →
  Http.has_error result = false →
  Url.parse destUrl = Some original →
  Url.parse (Http.finalUrl result) = Some final →
  Url.pathname original ≠ Url.pathname final →
  validate_one w c1 page = validate_one w c2 page ∧
  ∃ r,
    validate_one w c1 page = Some r ∧
    {| type := redirect;
       message := "Redirected to: " +:+ Url.pathname final;
       details := RedirectDetails (Http.finalUrl result) |} ∈ issues r ∧
    status r = (if error_rules w result then Error else Warning).
Proof.
  intros (_ & Hdest & _ & Htime & _ & _) destUrl Hfetch Hok Horig Hfinal Hpath.
  split.
  { unfold validate_one. by rewrite Hdest, Htime. }
  unfold validate_one, validateUrl. cbv zeta. fold destUrl.
  rewrite Hfetch, Hok.
  assert (Hred : Http.wasRedirected result = true).
  { destruct (Http.fetchUrl_no_error _ _ _ _ _ Hfetch Hok) as (r & el & ->).
    simpl in *. apply negb_true_iff, String.eqb_neq. intros E.
    rewrite E, Horig in Hfinal. by injection Hfinal as ->. }
  unfold check_response, error_rules. cbv zeta.
  rewrite Hred, Horig, Hfinal.
  assert (negb (String.eqb (Url.pathname original) (Url.pathname final)) = true) as ->.
  { by apply negb_true_iff, String.eqb_neq. }
  destruct (Http.statusCode result =? 404)%Z,
    (Http.isServerErrorStatus (Http.statusCode result)),
    (Http.isSuccessStatus (Http.statusCode result));
    cbn [push warn fst snd orb andb];
    try destruct (Soft404.isSoft404 _);
    cbn [push warn fst snd orb andb is_error negb];
    rewrite ?andb_false_r; cbn [push warn fst snd];
    repeat match goal with
           | |- context [if ?c then _ else _] =>
               lazymatch c with
               | context [Soft404.absent] => destruct c
               | context [Soft404.titlesMatch] => destruct c
               end
           end;
    cbn [push warn fst snd];
    (eexists; split; [reflexivity|]; split; [|reflexivity]);
    cbn [issues]; rewrite ?elem_of_app, ?elem_of_cons; tauto.
Qed.

Lemma redirect_flag_ignored_witness :
  validate_one example_world (example_config RedirectsOk) example_page
    = validate_one example_world (example_config RedirectsWarning) example_page ∧
  ∃ r,
    validate_one example_world (example_config RedirectsOk) example_page = Some r ∧
    {| type := redirect;
       message := "Redirected to: /moved";
       details := RedirectDetails "https://new.example.com/moved" |} ∈ issues r ∧
    status r = Warning.
Proof.
  refine (redirect_flag_ignored example_world
            (example_config RedirectsOk) (example_config RedirectsWarning) example_page
            (Http.success_result "https://new.example.com/x"
               {| Http.status := 200;
                  Http.url := "https://new.example.com/moved";
                  Http.text := "page" |} 12)
            (Http.schedule 1)
            {| Url.scheme := Url.Https; Url.hostname := "new.example.com";
               Url.port := None; Url.pathname := "/x";
               Url.query := None; Url.fragment := None |}
            {| Url.scheme := Url.Https; Url.hostname := "new.example.com";
               Url.port := None; Url.pathname := "/moved";
               Url.query := None; Url.fragment := None |}
            _ _ _ _ _ _).
  - repeat split.
  - vm_compute. reflexivity.
  - reflexivity.
  - vm_compute. reflexivity.
  - vm_compute. reflexivity.
  - vm_compute. discriminate.
Defined.

(** ** Further properties of the validator *)

(** Case analysis on every test of [check_response]. *)
Ltac response_cases result :=
  unfold check_response; cbv zeta;
  destruct (Http.statusCode result =? 404)%Z eqn:?,
    (Http.isServerErrorStatus (Http.statusCode result)) eqn:?,
    (Http.wasRedirected result) eqn:?;
  repeat match goal with
         | |- context [Url.parse ?u] => destruct (Url.parse u) eqn:?
         end;
  repeat match goal with
         | |- context [negb (String.eqb ?a ?b)] => destruct (negb (String.eqb a b)) eqn:?
         end;
  cbn [push warn fst snd];
  try discriminate;
  destruct (Http.isSuccessStatus (Http.statusCode result)) eqn:?;
  cbv zeta;
  try match goal with
      | |- context [Soft404.isSoft404 ?c] => destruct (Soft404.isSoft404 c) eqn:?
      end;
  cbn [push warn fst snd is_error negb];
  rewrite ?andb_false_r, ?andb_true_r;
  repeat match goal with
         | |- context [if ?c then _ else _] =>
             lazymatch c with
             | context [Soft404.absent] => destruct c eqn:?
             | context [Soft404.titlesMatch] => destruct c eqn:?
             end
         end;
  cbn [push warn fst snd].

Section Verdicts.

Variable w : world.

(** The status is derived from the issues: it is the worst severity among
    them, [error] before [warning] before [ok]. *)
Theorem status_is_worst_issue (path : string) (srcTitle : option string)
    (destinationUrl : string) (timeout_ms : Z) (r : ValidationResult) :
  validateUrl w path srcTitle destinationUrl timeout_ms = Some r →
  status r = worst (List.map type (issues r)).
Proof.
  unfold validateUrl. cbv zeta.
  match goal with |- context [Http.fetchUrl ?n ?t ?o] =>
    destruct (Http.fetchUrl n t o) as [[result tr]|]; [|done]
  end.
  destruct (Http.has_error result); [by intros [= <-]|].
  response_cases result; by intros [= <-].
Qed.

(** The issues of a result follow the order of the checks, each kind at
    most once: a fetch error alone, or a selection of not-found, server
    error, redirect, soft 404, title mismatch in this order. *)
Theorem issues_in_check_order (path : string) (srcTitle : option string)
    (destinationUrl : string) (timeout_ms : Z) (r : ValidationResult) :
  validateUrl w path srcTitle destinationUrl timeout_ms = Some r →
  (∃ i, issues r = [i] ∧ type i = error_issue)
  ∨ (has_type error_issue r = false ∧ has_type timeout_issue r = false ∧
     increasing (List.map (fun i => rank (type i)) (issues r)) = true).
Proof.
  unfold validateUrl. cbv zeta.
  match goal with |- context [Http.fetchUrl ?n ?t ?o] =>
    destruct (Http.fetchUrl n t o) as [[result tr]|]; [|done]
  end.
  destruct (Http.has_error result); [intros [= <-]; left; by eexists|].
  response_cases result; intros [= <-]; by right.
Qed.

(** A title mismatch is only reported on a result that is otherwise free of
    errors: with it the status is [warning], never [error]. *)
Theorem title_mismatch_is_warning (path : string) (srcTitle : option string)
    (destinationUrl : string) (timeout_ms : Z) (r : ValidationResult) :
  validateUrl w path srcTitle destinationUrl timeout_ms = Some r →
  has_type title_mismatch r = true →
  status r = Warning ∧ has_type not_found r = false ∧
  has_type server_error r = false ∧ has_type soft_404 r = false.
Proof.
  unfold validateUrl. cbv zeta.
  match goal with |- context [Http.fetchUrl ?n ?t ?o] =>
    destruct (Http.fetchUrl n t o) as [[result tr]|]; [|done]
  end.
  destruct (Http.has_error result); [by intros [= <-]|].
  response_cases result; by intros [= <-].
Qed.

(** A soft 404 is only reported for status code 200: the other 2xx codes
    pass the success test but are never scored. *)
Theorem soft_404_only_on_200 (path : string) (srcTitle : option string)
    (destinationUrl : string) (timeout_ms : Z) (r : ValidationResult) :
  validateUrl w path srcTitle destinationUrl timeout_ms = Some r →
  has_type soft_404 r = true →
  destinationStatusCode r = Some 200%Z ∧ status r = Error.
Proof.
  unfold validateUrl. cbv zeta.
  match goal with |- context [Http.fetchUrl ?n ?t ?o] =>
    destruct (Http.fetchUrl n t o) as [[result tr]|]; [|done]
  end.
  destruct (Http.has_error result); [by intros [= <-]|].
  destruct (Z.eq_dec (Http.statusCode result) 200%Z) as [E|Hne].
  - response_cases result; intros [= <-]; try done; cbn; by rewrite E.
  - unfold check_response; cbv zeta.
    rewrite (Soft404.checkSoft404_not_200 _ _ _ Hne). cbn [Soft404.isSoft404].
    destruct (Http.statusCode result =? 404)%Z eqn:?,
      (Http.isServerErrorStatus (Http.statusCode result)) eqn:?,
      (Http.wasRedirected result) eqn:?;
    repeat match goal with
           | |- context [Url.parse ?u] => destruct (Url.parse u) eqn:?
           end;
    repeat match goal with
           | |- context [negb (String.eqb ?a ?b)] => destruct (negb (String.eqb a b)) eqn:?
           end;
    cbn [push warn fst snd]; try discriminate;
    destruct (Http.isSuccessStatus (Http.statusCode result)) eqn:?;
    cbn [push warn fst snd is_error negb];
    rewrite ?andb_false_r, ?andb_true_r;
    repeat match goal with
           | |- context [if ?c then _ else _] =>
               lazymatch c with
               | context [Soft404.absent] => destruct c eqn:?
               | context [Soft404.titlesMatch] => destruct c eqn:?
               end
           end;
    cbn [push warn fst snd]; by intros [= <-].
Qed.

End Verdicts.

Lemma status_is_worst_issue_witness :
  ∃ r,
    validateUrl example_world "/x" (Some "Something else entirely")
      "https://new.example.com" 10000 = Some r ∧
    List.map type (issues r) = [redirect; title_mismatch] ∧
    status r = worst (List.map type (issues r)).
Proof.
  eexists. split; [vm_compute; reflexivity|]. split; [reflexivity|].
  apply (status_is_worst_issue example_world "/x" (Some "Something else entirely")
           "https://new.example.com" 10000).
  vm_compute. reflexivity.
Defined.

Lemma issues_in_check_order_witness :
  ∃ r,
    validateUrl example_world "/x" (Some "Something else entirely")
      "https://new.example.com" 10000 = Some r ∧
    List.map type (issues r) = [redirect; title_mismatch] ∧
    ((∃ i, issues r = [i] ∧ type i = error_issue)
     ∨ (has_type error_issue r = false ∧ has_type timeout_issue r = false ∧
        increasing (List.map (fun i => rank (type i)) (issues r)) = true)).
Proof.
  eexists. split; [vm_compute; reflexivity|]. split; [reflexivity|].
  apply (issues_in_check_order example_world "/x" (Some "Something else entirely")
           "https://new.example.com" 10000).
  vm_compute. reflexivity.
Defined.

Lemma title_mismatch_is_warning_witness :
  ∃ r,
    validateUrl example_world "/x" (Some "Something else entirely")
      "https://new.example.com" 10000 = Some r ∧
    has_type title_mismatch r = true ∧
    status r = Warning ∧ has_type not_found r = false ∧
    has_type server_error r = false ∧ has_type soft_404 r = false.
Proof.
  eexists. split; [vm_compute; reflexivity|]. split; [reflexivity|].
  apply (title_mismatch_is_warning example_world "/x" (Some "Something else entirely")
           "https://new.example.com" 10000).
  - vm_compute. reflexivity.
  - reflexivity.
Defined.

Lemma soft_404_only_on_200_witness :
  ∃ r,
    validateUrl example_soft404_world "/old-page" (Some "Old Page")
      "https://new.example.com" 10000 = Some r ∧
    has_type soft_404 r = true ∧
    destinationStatusCode r = Some 200%Z ∧ status r = Error.
Proof.
  eexists. split; [vm_compute; reflexivity|]. split; [reflexivity|].
  apply (soft_404_only_on_200 example_soft404_world "/old-page" (Some "Old Page")
           "https://new.example.com" 10000).
  - vm_compute. reflexivity.
  - reflexivity.
Defined.

Section Report.

Implicit Types (l results : list ValidationResult) (s : ValidationSummary).

Lemma count_issues_statuses (found : list ValidationIssue) s :
  let s' := List.fold_left count_issue found s in
  totalUrls s' = totalUrls s ∧ okUrls s' = okUrls s ∧
  warningUrls s' = warningUrls s ∧ errorUrls s' = errorUrls s.
Proof.
  revert s; induction found as [|i found IH]; intros s; simpl; [done|].
  destruct (IH (count_issue s i)) as (-> & -> & -> & ->).
  unfold count_issue. by destruct (type i).
Qed.

Lemma count_results_statuses results s :
  let s' := List.fold_left count_result results s in
  totalUrls s' = totalUrls s ∧
  okUrls s' = (okUrls s + List.length (with_status Ok results))%nat ∧
  warningUrls s' = (warningUrls s + List.length (with_status Warning results))%nat ∧
  errorUrls s' = (errorUrls s + List.length (with_status Error results))%nat ∧
  (List.length (with_status Ok results) + List.length (with_status Warning results)
     + List.length (with_status Error results) = List.length results)%nat.
Proof.
  revert s; induction results as [|r results IH]; intros s; simpl.
  - split_and!; lia.
  - destruct (IH (count_result s r)) as (H0 & H1 & H2 & H3 & H4).
    rewrite H0, H1, H2, H3. unfold count_result.
    destruct (count_issues_statuses (issues r) (count_status s (status r)))
      as (-> & -> & -> & ->).
    unfold with_status in *.
    destruct (status r); simpl in *; split_and!; lia.
Qed.

(** The status counters of the summary partition the results: they count
    the results of each status and add up to [totalUrls]. *)
Theorem summary_status_counts (results : list ValidationResult) (duration : Z) :
  let s := calculateSummary results duration in
  totalUrls s = List.length results ∧
  okUrls s = List.length (with_status Ok results) ∧
  warningUrls s = List.length (with_status Warning results) ∧
  errorUrls s = List.length (with_status Error results) ∧
  (okUrls s + warningUrls s + errorUrls s = totalUrls s)%nat.
Proof.
  intros s. subst s. unfold calculateSummary.
  match goal with |- context [List.fold_left count_result results ?s0] =>
    destruct (count_results_statuses results s0) as (-> & -> & -> & -> & Hsum)
  end.
  simpl. split_and!; lia.
Qed.

Lemma insert_result_with_status st x l :
  with_status st (insert_result x l) = with_status st (x :: l).
Proof.
  induction l as [|y l IH]; [done|]. simpl.
  destruct (order (status x) <=? order (status y))%nat eqn:E; [done|].
  simpl. rewrite IH. simpl.
  apply Nat.leb_gt in E.
  destruct (Nat.eqb_spec (order (status x)) (order st)) as [Ex|_],
    (Nat.eqb_spec (order (status y)) (order st)) as [Ey|_]; try done.
  lia.
Qed.

Lemma sort_results_with_status st l :
  with_status st (sort_results l) = with_status st l.
Proof.
  induction l as [|x l IH]; [done|]. simpl.
  rewrite insert_result_with_status. simpl. by rewrite IH.
Qed.

Fixpoint ordered_results (l : list ValidationResult) : Prop :=
  match l with
  | [] => True
  | x :: l' =>
      match l' with
      | [] => True
      | y :: _ => (order (status x) <= order (status y))%nat
      end ∧ ordered_results l'
  end.

Lemma insert_result_ordered x l : ordered_results l → ordered_results (insert_result x l).
Proof.
  induction l as [|y l IH]; simpl; [done|].
  intros [Hy Hl]. destruct (Nat.leb_spec (order (status x)) (order (status y))).
  - simpl. done.
  - specialize (IH Hl). simpl. split; [|done].
    destruct l as [|z l]; simpl; [lia|].
    destruct (order (status x) <=? order (status z))%nat; [lia|done].
Qed.

Lemma ordered_results_split l :
  ordered_results l →
  l = with_status Error l ++ with_status Warning l ++ with_status Ok l.
Proof.
  assert (Hhead : ∀ l x, ordered_results (x :: l) →
                         Forall (fun y => (order (status x) <= order (status y))%nat) l).
  { clear. induction l as [|y l IH]; intros x; [constructor|].
    intros [Hxy Hl]. constructor; [done|].
    eapply List.Forall_impl; [|apply IH, Hl]. simpl. intros; lia. }
  induction l as [|x l IH]; [done|].
  intros Hl. pose proof (Hhead _ _ Hl) as Hge. destruct Hl as [_ Hl].
  specialize (IH Hl). unfold with_status in *. simpl.
  destruct (status x) eqn:Ex; simpl.
  - (* ok: everything after is ok *)
    assert (Hall : List.filter (fun r => (order (status r) =? 0)%nat) l = [] ∧
                   List.filter (fun r => (order (status r) =? 1)%nat) l = [] ∧
                   List.filter (fun r => (order (status r) =? 2)%nat) l = l).
    { clear -Hge. induction Hge as [|y l Hy _ IHl]; [done|].
      destruct IHl as (H0 & H1 & H2). simpl in *.
      destruct (status y); simpl in *; try lia. by rewrite H0, H1, H2. }
    destruct Hall as (-> & -> & ->). done.
  - (* warning: no error after *)
    assert (Hall : List.filter (fun r => (order (status r) =? 0)%nat) l = []).
    { clear -Hge. induction Hge as [|y l Hy _ IHl]; [done|].
      simpl in *. destruct (status y); simpl in *; try lia; done. }
    simpl in IH. rewrite Hall in IH |- *. simpl in IH |- *. by f_equal.
  - simpl in IH |- *. by f_equal.
Qed.

(** The report lists the results by severity -- all errors, then all
    warnings, then the rest -- and within a severity in the order in which
    they were produced; nothing is lost or duplicated. *)
Theorem sort_results_by_severity (results : list ValidationResult) :
  sort_results results
    = with_status Error results ++ with_status Warning results ++ with_status Ok results.
Proof.
  rewrite <- !(sort_results_with_status _ results).
  apply ordered_results_split.
  induction results as [|x l IH]; [done|]. simpl. by apply insert_result_ordered.
Qed.

End Report.

(** A destination that times out is reported at once, as a single issue of
    kind [error] carrying the timeout message, with no status code. *)
Theorem timeout_is_reported (w : world) (path : string) (srcTitle : option string)
    (destinationUrl : string) (timeout_ms : Z) (e : Http.JsError) :
  let destUrl := HtmlParser.joinUrl (resolve w) destinationUrl path in
  Http.attempt_outcome (net w destUrl) 1 = Http.Thrown e →
  Http.is_abort e = true →
  validateUrl w path srcTitle destinationUrl timeout_ms
    = Some {| sourcePath := path;
              sourceTitle := srcTitle;
              destinationUrl := destUrl;
              destinationStatusCode := None;
              destinationTitle := None;
              status := Error;
              issues := [{| type := error_issue;
                            message := "Request timeout after " +:+ show_Z timeout_ms +:+ "ms";
                            details := NoDetails |}];
              responseTimeMs := Some (elapsed w destUrl) |}.
Proof.
  intros destUrl He Habort. unfold validateUrl. cbv zeta. fold destUrl.
  unfold Http.fetchUrl. cbv zeta. simpl default.
  change (Z.to_nat (1 + 1)) with 2%nat.
  cbn [Http.fetch_loop]. change (0 <=? 1)%Z with true. cbv iota.
  change (0 + 1)%Z with 1%Z. rewrite He, Habort. done.
Qed.

Lemma timeout_is_reported_witness :
  let w := {| resolve := resolve example_world;
              net := fun _ =>
                {| Http.attempt_outcome := fun _ =>
                     Http.Thrown {| Http.name := "AbortError";
                                    Http.message := "This operation was aborted" |};
                   Http.attempt_elapsed := fun _ => 10000%Z |};
              elapsed := fun _ => 10003%Z;
              dom := dom example_world |} in
  validateUrl w "/slow" None "https://new.example.com" 10000
    = Some {| sourcePath := "/slow";
              sourceTitle := None;
              destinationUrl := "https://new.example.com/slow";
              destinationStatusCode := None;
              destinationTitle := None;
              status := Error;
              issues := [{| type := error_issue;
                            message := "Request timeout after 10000ms";
                            details := NoDetails |}];
              responseTimeMs := Some 10003%Z |}.
Proof.
  intros w.
  refine (timeout_is_reported w "/slow" None "https://new.example.com" 10000
            {| Http.name := "AbortError"; Http.message := "This operation was aborted" |}
            _ _); reflexivity.
Defined.

End Validator.

(* ===================================================================== *)
(** * utils/concurrency.ts *)
(* ===================================================================== *)

Module Concurrency.

Import JS.

(** Formats milliseconds as a human-readable duration. *)
Definition formatDuration (ms : Z) : string :=
  if (ms <? 1000)%Z then show_Z ms +:+ "ms"
  else
    let seconds := (ms / 1000)%Z in
    if (seconds <? 60)%Z then show_Z seconds +:+ "s"
    else
      let minutes := (seconds / 60)%Z in
      let remainingSeconds := (seconds mod 60)%Z in
      if (minutes <? 60)%Z
      then show_Z minutes +:+ "m " +:+ show_Z remainingSeconds +:+ "s"
      else
        let hours := (minutes / 60)%Z in
        let remainingMinutes := (minutes mod 60)%Z in
        show_Z hours +:+ "h " +:+ show_Z remainingMinutes +:+ "m".

(** [items.slice(i, j)] for [0 <= i <= j]. *)
Definition slice {T} (i j : nat) (items : list T) : list T :=
  take (j - i) (drop i items).

(** The [for] loop of [batch]: [i] is the loop variable, [batches] the
    array built so far.  [None] when [fuel] iterations do not end it. *)
Fixpoint batch_loop {T} (fuel : nat) (items : list T) (size i : nat)
    (batches : list (list T)) : option (list (list T)) :=
  if (i <? List.length items)%nat
  then
    match fuel with
    | O => None
    | S fuel' =>
        batch_loop fuel' items size (i + size) (batches ++ [slice i (i + size) items])
    end
  else Some batches.

(** Batches an array into chunks of specified size.  The loop advances by
    [size], so [items.length] iterations suffice whenever it advances at
    all. *)
Definition batch {T} (items : list T) (size : nat) : option (list (list T)) :=
  batch_loop (List.length items) items size 0 [].

Section Batch.

Context {T : Type}.

Implicit Types (items : list T) (batches : list (list T)).

Lemma batch_loop_spec items size :
  (1 <= size)%nat →
  ∀ fuel i batches,
    (List.length items - i <= fuel)%nat →
    ∃ chunks,
      batch_loop fuel items size i batches = Some (batches ++ chunks) ∧
      concat chunks = drop i items ∧
      Forall (fun chunk => (1 <= List.length chunk <= size)%nat) chunks ∧
      (List.length chunks * size < List.length items - i + size)%nat.
Proof.
  intros Hsize. induction fuel as [|fuel IH]; intros i batches Hfuel.
  - exists []. simpl. destruct (Nat.ltb_spec i (List.length items)); [lia|].
    rewrite app_nil_r, drop_ge by lia. split_and!; [done|done|constructor|simpl; lia].
  - simpl. destruct (Nat.ltb_spec i (List.length items)) as [Hlt|Hge].
    + destruct (IH (i + size)%nat (batches ++ [slice i (i + size) items]) ltac:(lia))
        as (chunks & Hrun & Hcat & Hall & Hlen).
      exists (slice i (i + size) items :: chunks).
      rewrite Hrun, <- app_assoc. split_and!.
      * done.
      * simpl. rewrite Hcat. unfold slice.
        replace (i + size - i)%nat with size by lia.
        rewrite <- drop_drop. apply take_drop.
      * constructor; [|done]. unfold slice.
        rewrite length_take, length_drop. lia.
      * clear -Hlen Hlt Hsize. destruct chunks; simpl in *; lia.
    + exists []. rewrite app_nil_r, drop_ge by lia.
      split_and!; [done|done|constructor|simpl; lia].
Qed.

(** With a positive chunk size, [batch] returns; the chunks put together
    give the items back, none is empty or longer than [size], and there are
    [ceil(length / size)] of them. *)
Theorem batch_partitions (items : list T) (size : nat) :
  (1 <= size)%nat →
  ∃ chunks,
    batch items size = Some chunks ∧
    concat chunks = items ∧
    Forall (fun chunk => (1 <= List.length chunk <= size)%nat) chunks ∧
    List.length chunks = ((List.length items + size - 1) / size)%nat.
Proof.
  intros Hsize. unfold batch.
  destruct (batch_loop_spec items size Hsize (List.length items) 0 [] ltac:(lia))
    as (chunks & Hrun & Hcat & Hall & Hlen).
  exists chunks. split_and!; [done|done|done|].
  assert (Hsum : (List.length items <= List.length chunks * size)%nat).
  { rewrite <- Hcat at 1. rewrite drop_0 in Hcat. clear -Hall.
    induction Hall as [|c cs [_ Hc] _ IH]; simpl; [done|].
    rewrite length_app. lia. }
  rewrite Nat.sub_0_r in Hlen.
  apply Nat.div_unique with (r := (List.length items + size - 1
                                               - size * List.length chunks)%nat);
    lia.
Qed.

(** A chunk size of zero never ends the loop on a non-empty array: no
    amount of fuel produces a result. *)
Theorem batch_zero_diverges (items : list T) (fuel : nat) :
  items ≠ [] → batch_loop fuel items 0 0 [] = None.
Proof.
  intros Hne.
  assert (H : ∀ batches, batch_loop fuel items 0 0 batches = None).
  { induction fuel as [|fuel IH]; intros batches; simpl.
    - destruct items; [done|]. done.
    - destruct items as [|x items']; [done|]. simpl. apply IH. }
  apply H.
Qed.

End Batch.

Lemma batch_partitions_witness :
  batch [1; 2; 3; 4; 5; 6; 7]%nat 3 = Some [[1; 2; 3]; [4; 5; 6]; [7]]%nat ∧
  ∃ chunks,
    batch [1; 2; 3; 4; 5; 6; 7]%nat 3 = Some chunks ∧
    concat chunks = [1; 2; 3; 4; 5; 6; 7]%nat ∧
    Forall (fun chunk => (1 <= List.length chunk <= 3)%nat) chunks ∧
    List.length chunks = ((7 + 3 - 1) / 3)%nat.
Proof.
  split; [reflexivity|].
  apply (batch_partitions [1; 2; 3; 4; 5; 6; 7]%nat 3). lia.
Defined.

Lemma batch_zero_diverges_witness :
  batch_loop 100 ["a"; "b"] 0 0 [] = None.
Proof.
  apply (batch_zero_diverges ["a"; "b"] 100). discriminate.
Defined.

(** From one second on, the rendering drops the milliseconds, and from one
    hour on also the seconds: durations in the same second (minute) are
    shown alike. *)
Theorem formatDuration_truncates (ms : Z) :
  (1000 <= ms)%Z →
  formatDuration ms = formatDuration (ms / 1000 * 1000) ∧
  ((3600000 <= ms)%Z → formatDuration ms = formatDuration (ms / 60000 * 60000)).
Proof.
  intros Hms.
  assert (Hdiv : ∀ a b, (0 < b)%Z → (a / b * b / b = a / b)%Z).
  { intros a b Hb. rewrite Z.div_mul; lia. }
  split.
  - unfold formatDuration.
    assert (1000 <= ms / 1000 * 1000)%Z.
    { assert (1 <= ms / 1000)%Z by (apply Z.div_le_lower_bound; lia). lia. }
    destruct (Z.ltb_spec ms 1000); [lia|].
    destruct (Z.ltb_spec (ms / 1000 * 1000) 1000); [lia|].
    by rewrite Hdiv.
  - intros Hh. unfold formatDuration.
    assert (H1 : (60 <= ms / 60000)%Z) by (apply Z.div_le_lower_bound; lia).
    assert (H2 : (ms / 60000 * 60000 / 1000 / 60 = ms / 1000 / 60)%Z).
    { rewrite !Z.div_div by lia. change (1000 * 60)%Z with 60000%Z.
      rewrite Z.div_mul by lia. done. }
    assert (H3 : (3600 <= ms / 1000)%Z) by (apply Z.div_le_lower_bound; lia).
    assert (H4 : (3600 <= ms / 60000 * 60000 / 1000)%Z).
    { apply Z.div_le_lower_bound; lia. }
    destruct (Z.ltb_spec ms 1000); [lia|].
    destruct (Z.ltb_spec (ms / 60000 * 60000) 1000); [lia|].
    destruct (Z.ltb_spec (ms / 1000) 60); [lia|].
    destruct (Z.ltb_spec (ms / 60000 * 60000 / 1000) 60); [lia|].
    cbv zeta. rewrite H2.
    assert (60 <= ms / 1000 / 60)%Z by (apply Z.div_le_lower_bound; lia).
    destruct (Z.ltb_spec (ms / 1000 / 60) 60); [lia|]. done.
Qed.

Lemma formatDuration_truncates_witness :
  formatDuration 3723456 = "1h 2m" ∧
  formatDuration 3723456 = formatDuration (3723456 / 1000 * 1000) ∧
  ((3600000 <= 3723456)%Z →
   formatDuration 3723456 = formatDuration (3723456 / 60000 * 60000)).
Proof.
  split; [reflexivity|].
  apply (formatDuration_truncates 3723456). lia.
Defined.

End Concurrency.
